(** * V8.Simple: the marshaling and lifecycle bridge of V8Simple.cpp

    A shallow embedding of [src/V8Simple.cpp] and of the properties its
    specification states about it.  The engine (namespace [v8]) is not
    part of the program: what it answers is data of the model, and the
    program is embedded as functions over that data.

    Embedded: the [String] class over raw character storage; [Throw],
    [FromJust], [ToV8String]; [Value::Wrap] and [Value::Unwrap]; the
    function [Unwrap] makes of a [Callback] and the weak finalizer it
    registers; [UniqueValueVector]; [Context]'s constructor, destructor,
    [Evaluate], [GlobalObject] and the two handler routines.  The methods
    of [Object], [Array] and [Function] and the debug pass-through follow
    the same pattern as [Evaluate] and are left out.

    Layout: the [String] class, the engine boundary, the value model, the
    world of the bridge with its state-and-exception monad, the program,
    the notions the statements use; then the theorems. *)

From stdpp Require Import gmap list strings.
From Stdlib Require Import ZArith.
From Stdlib.Strings Require Import Byte.

(** Addresses of C++ objects ([new], locals) and engine handles. *)
Definition ptr := positive.
Definition handle := positive.

(** [int] is a 32-bit signed integer. *)
Definition INT_MAX : Z := 2147483647.

(** [static_cast<int>] of an unsigned size, wrap-around written out. *)
Definition static_cast_int (z : Z) : Z :=
((z + 2147483648) `mod` 4294967296 - 2147483648)%Z.

(* ================================================================== *)
(** * The [String] class over raw character storage *)

Module StringStorage.

(** A [char] cell holds a byte or is indeterminate (fresh [new char[]]). *)
Definition cell := option byte.
Abbreviation Memory := (gmap ptr (list cell)).

Definition nul : byte := x00.

Inductive outcome (A : Type) : Type :=
| Finished (a : A) (m : Memory)
| bad_array_new_length
| UndefinedBehaviour.
Arguments Finished {A} a m.
Arguments bad_array_new_length {A}.
Arguments UndefinedBehaviour {A}.

Definition andThen {A B} (o : outcome A) (k : A → Memory → outcome B)
  : outcome B :=
  match o with
  | Finished a m => k a m
  | bad_array_new_length => bad_array_new_length
  | UndefinedBehaviour => UndefinedBehaviour
  end.

(** [new char[n]]: a block no live block shares, contents indeterminate. *)
Definition new_char (n : Z) (m : Memory) : outcome ptr :=
  if decide (n < 0)%Z then bad_array_new_length
  else let p := fresh (dom m) in
       Finished p (<[p := replicate (Z.to_nat n) None]> m).

(** [delete[] p]. *)
Definition delete_char (p : ptr) (m : Memory) : outcome unit :=
  match m !! p with
  | Some _ => Finished tt (delete p m)
  | None => UndefinedBehaviour
  end.

(** [std::memcpy(dst, src, n)] between two live blocks. *)
Definition memcpy (dst src : ptr) (n : Z) (m : Memory) : outcome unit :=
  match m !! dst, m !! src with
  | Some d, Some s =>
      if decide (0 ≤ n ∧ n ≤ Z.of_nat (length d) ∧ n ≤ Z.of_nat (length s))%Z
      then Finished tt
             (<[dst := take (Z.to_nat n) s ++ drop (Z.to_nat n) d]> m)
      else UndefinedBehaviour
  | _, _ => UndefinedBehaviour
  end.

(** [p[i] = c]. *)
Definition store (p : ptr) (i : Z) (c : byte) (m : Memory) : outcome unit :=
  match m !! p with
  | Some buf =>
      if decide (0 ≤ i < Z.of_nat (length buf))%Z
      then Finished tt (<[p := <[Z.to_nat i := Some c]> buf]> m)
      else UndefinedBehaviour
  | None => UndefinedBehaviour
  end.

(** [std::strlen]: the offset of the first nul; reading past the block
    or reading an indeterminate cell is undefined. *)
Fixpoint strlen_cells (buf : list cell) : option nat :=
  match buf with
  | [] => None
  | None :: _ => None
  | Some b :: rest =>
      if Byte.eqb b nul then Some O else S <$> strlen_cells rest
  end.

Definition strlen (value : ptr) (m : Memory) : outcome Z :=
  match m !! value with
  | Some buf =>
      match strlen_cells buf with
      | Some n => Finished (Z.of_nat n) m
      | None => UndefinedBehaviour
      end
  | None => UndefinedBehaviour
  end.

(** Data members of [String]. *)
Record String : Type := { _value : ptr; _length : Z }.

(** [v8::String::Utf8Value]: [operator*] and [length()]. *)
Record Utf8Value : Type := { star : option ptr; length_ : Z }.

(** [String::String(const char* value, int length)]. *)
Definition String_ptr_length (value : option ptr) (length : Z) (m : Memory)
  : outcome String :=
  if decide (INT_MAX < length + 1)%Z then UndefinedBehaviour
  else
    andThen (new_char (length + 1) m) (λ p m,
    andThen (match value with
             | Some src =>
                 if decide (0 < length)%Z then memcpy p src length m
                 else Finished tt m
             | None => Finished tt m
             end) (λ _ m,
    andThen (store p length nul m) (λ _ m,
    Finished {| _value := p; _length := length |} m))).

(** [String::String(const char* value)]. *)
Definition String_ptr (value : option ptr) (m : Memory) : outcome String :=
  andThen (match value with
           | None => Finished 0%Z m
           | Some v => andThen (strlen v m) (λ n m,
                         Finished (static_cast_int n) m)
           end) (λ length m,
  String_ptr_length value length m).

(** [String::String(const String& str)]. *)
Definition String_copy (str : String) (m : Memory) : outcome String :=
  String_ptr_length (Some (_value str)) (_length str) m.

(** [String::String(const v8::String::Utf8Value& v)]. *)
Definition String_Utf8Value (v : Utf8Value) (m : Memory) : outcome String :=
  String_ptr_length
    (if decide (0 < length_ v)%Z then star v else None) (length_ v) m.

(** [String::operator=]. *)
Definition String_assign (this str : String) (m : Memory) : outcome String :=
  andThen (delete_char (_value this) m) (λ _ m,
  let length := _length str in
  if decide (INT_MAX < length + 1)%Z then UndefinedBehaviour
  else
    andThen (new_char (length + 1) m) (λ p m,
    andThen (memcpy p (_value str) (length + 1) m) (λ _ m,
    Finished {| _value := p; _length := length |} m))).

(** [String::~String]. *)
Definition String_dtor (this : String) (m : Memory) : outcome unit :=
  delete_char (_value this) m.

(** The bytes a [String] holds: the first [_length] cells of its block. *)
Definition contents (s : String) (m : Memory) : option (list cell) :=
  take (Z.to_nat (_length s)) <$> m !! _value s.

(** The block is terminated by a nul at offset [_length]. *)
Definition terminated (s : String) (m : Memory) : Prop :=
  ∃ buf, m !! _value s = Some buf
         ∧ Z.of_nat (length buf) = (_length s + 1)%Z
         ∧ buf !! Z.to_nat (_length s) = Some (Some nul).

(** A source pointer from which [length] characters can be read, when
    there are any to read. *)
Definition readable (value : option ptr) (length : Z) (m : Memory) : Prop :=
  match value with
  | Some src =>
      (0 < length)%Z →
      ∃ buf, m !! src = Some buf ∧ (length ≤ Z.of_nat (List.length buf))%Z
  | None => True
  end.

(** A null pointer, or a pointer to a nul-terminated string whose length
    fits an [int] with room for the terminator. *)
Definition c_string (value : option ptr) (m : Memory) : Prop :=
  match value with
  | Some src =>
      ∃ buf n, m !! src = Some buf ∧ strlen_cells buf = Some n
               ∧ (Z.of_nat n < INT_MAX)%Z
  | None => True
  end.

(** What the engine guarantees of a [Utf8Value]: [length()] characters
    are readable at [operator*] whenever [length()] is positive. *)
Definition utf8_valid (v : Utf8Value) (m : Memory) : Prop :=
  (0 ≤ length_ v < INT_MAX)%Z
  ∧ ((0 < length_ v)%Z → is_Some (star v) ∧ readable (star v) (length_ v) m).

(** The constructed [String] [s] sits in a block that was not live in [m];
    every other block of [m'] is as in [m]. *)
Definition freshly_allocated (s : String) (m m' : Memory) : Prop :=
  (_value s ∉ dom m) ∧ (∃ buf, m' = <[_value s := buf]> m).

End StringStorage.

(* ================================================================== *)
(** * The engine boundary (namespace [v8])

    The bridge never looks inside an engine value: it asks the engine
    questions.  A native value is the record of the engine's answers, a
    fallible engine call is its result together with what it leaves in
    the capture region. *)

(** A [double] is moved, never computed with: its binary64 bit pattern. *)
Definition double := Z.

Module v8.

(** A [Local<String>], by its UTF-8 encoding. *)
Definition String := list byte.

(** [v8::String::Utf8Value] of a handle: the encoded bytes behind
    [operator*], or a null [operator*] with [length()] zero when the value
    has no string conversion. *)
Definition Utf8Value := option (list byte).

Definition length (v : Utf8Value) : Z :=
  match v with Some s => Z.of_nat (List.length s) | None => 0%Z end.

(** [v8::Message], as far as [Throw] reads it. *)
Record MessageObject : Type := {
  GetSourceLine : option String;
  Get : option String;
  GetScriptResourceName : Utf8Value;
  GetLineNumber : option Z;
}.

(** [v8::TryCatch]: the capture region.  An empty handle is [None]; the
    thrown value and the stack trace are kept by their [Utf8Value]. *)
Record TryCatch : Type := {
  HasCaught : bool;
  Message : option MessageObject;
  Exception : option Utf8Value;
  StackTrace : option Utf8Value;
}.

(** The capture region of a guard that has just been opened. *)
Definition TryCatch_new : TryCatch :=
  {| HasCaught := false; Message := None; Exception := None;
     StackTrace := None |}.

(** [Maybe<A>] / [MaybeLocal<A>] as an engine call produces it: [caught]
    is what the call leaves in the capture region when it throws. *)
Record Maybe (A : Type) : Type := {
  just : option A;
  caught : option TryCatch;
}.
Arguments just {A} _.
Arguments caught {A} _.

Definition Just {A} (a : A) : Maybe A := {| just := Some a; caught := None |}.

(** A [Local<Value>] handed to [Wrap]: the answers to the predicates and
    conversions [Wrap] uses. *)
Record Value : Type := {
  IsInt32 : bool;
  IsNumber : bool;
  IsNumberObject : bool;
  IsBoolean : bool;
  IsBooleanObject : bool;
  IsString : bool;
  IsStringObject : bool;
  IsArray : bool;
  IsFunction : bool;
  IsObject : bool;
  IsUndefined : bool;
  IsNull : bool;
  Int32Value : Maybe Z;
  NumberValue : Maybe double;
  BooleanValue : Maybe bool;
  ToString : Maybe String;
  ToObject : Maybe handle;
}.

(** The relations the engine maintains between its predicates: a 32-bit
    integer is a number; primitives, [null] and [undefined] are not
    objects and exclude one another; arrays, functions and boxed
    primitives are objects. *)
Definition consistent (v : Value) : bool :=
  implb (IsInt32 v) (IsNumber v)
  && implb (IsArray v || IsFunction v || IsNumberObject v
            || IsBooleanObject v || IsStringObject v) (IsObject v)
  && implb (IsUndefined v || IsNull v)
       (negb (IsNumber v || IsBoolean v || IsString v || IsObject v))
  && implb (IsObject v) (negb (IsNumber v || IsBoolean v || IsString v))
  && implb (IsNumber v) (negb (IsBoolean v || IsString v))
  && implb (IsBoolean v) (negb (IsString v))
  && implb (IsUndefined v) (negb (IsNull v)).

(** Native values as the engine presents them. *)
Definition Nothing {A} : Maybe A := {| just := None; caught := None |}.

Definition null : Value :=
  {| IsInt32 := false; IsNumber := false; IsNumberObject := false;
     IsBoolean := false; IsBooleanObject := false; IsString := false;
     IsStringObject := false; IsArray := false; IsFunction := false;
     IsObject := false; IsUndefined := false; IsNull := true;
     Int32Value := Just 0%Z; NumberValue := Just 0%Z;
     BooleanValue := Just false;
     ToString := Just [x6e; x75; x6c; x6c];
     ToObject := Nothing |}.

Definition undefined : Value :=
  {| IsInt32 := false; IsNumber := false; IsNumberObject := false;
     IsBoolean := false; IsBooleanObject := false; IsString := false;
     IsStringObject := false; IsArray := false; IsFunction := false;
     IsObject := false; IsUndefined := true; IsNull := false;
     Int32Value := Just 0%Z; NumberValue := Just 0%Z;
     BooleanValue := Just false;
     ToString := Just [x75; x6e; x64; x65; x66; x69; x6e; x65; x64];
     ToObject := Nothing |}.

(** A symbol: a primitive of none of the categories [Wrap] knows; its
    conversions to number and to string throw. *)
Definition Symbol (thrown : TryCatch) : Value :=
  {| IsInt32 := false; IsNumber := false; IsNumberObject := false;
     IsBoolean := false; IsBooleanObject := false; IsString := false;
     IsStringObject := false; IsArray := false; IsFunction := false;
     IsObject := false; IsUndefined := false; IsNull := false;
     Int32Value := {| just := None; caught := Some thrown |};
     NumberValue := {| just := None; caught := Some thrown |};
     BooleanValue := Just true;
     ToString := {| just := None; caught := Some thrown |};
     ToObject := Nothing |}.

(** The 32-bit integer [z], with its bit pattern [d] as a double and its
    decimal notation [s]. *)
Definition Int32 (z : Z) (d : double) (s : String) : Value :=
  {| IsInt32 := true; IsNumber := true; IsNumberObject := false;
     IsBoolean := false; IsBooleanObject := false; IsString := false;
     IsStringObject := false; IsArray := false; IsFunction := false;
     IsObject := false; IsUndefined := false; IsNull := false;
     Int32Value := Just z; NumberValue := Just d;
     BooleanValue := Just (negb (Z.eqb z 0)); ToString := Just s;
     ToObject := Nothing |}.

(** A boxed number ([new Number(...)]) at heap handle [h], whose
    primitive value converts as [number] says. *)
Definition NumberObject (h : handle) (z : Z) (number : Maybe double)
  (s : Maybe String) : Value :=
  {| IsInt32 := false; IsNumber := false; IsNumberObject := true;
     IsBoolean := false; IsBooleanObject := false; IsString := false;
     IsStringObject := false; IsArray := false; IsFunction := false;
     IsObject := true; IsUndefined := false; IsNull := false;
     Int32Value := Just z; NumberValue := number;
     BooleanValue := Just true; ToString := s;
     ToObject := Just h |}.

(** What [Unwrap] hands to the engine. *)
Inductive Local : Type :=
| Null
| Int32_New (value : Z)
| Number_New (value : double)
| Boolean_New (value : bool)
| LocalString (s : String)
| Persistent_Get (h : handle)
| LocalFunction (f : handle).

Definition Script := positive.

(** The engine calls of the bridge whose answer does not hang on a
    native value. *)
Record Engine : Type := {
  String_NewFromUtf8 : list byte → Maybe String;
  Script_Compile : String → String → Maybe Script;
  Script_Run : Script → Maybe Value;
  Function_New : Maybe unit;
}.

End v8.

(* ================================================================== *)
(** * The value model *)

(** [enum class Type]. *)
Inductive Type_ : Type :=
| Type_Int | Type_Double | Type_String | Type_Bool
| Type_Object | Type_Array | Type_Function | Type_Callback.

Global Instance Type_eq_dec : EqDecision Type_.
Proof. solve_decision. Defined.

(** What an embedder's [Callback::Call] does with its arguments: it
    takes elements of the [UniqueValueVector], asks for its length, and
    returns a [Value*]. *)
Inductive CallProgram : Type :=
| Call_return (result : option ptr)
| Call_Get (index : Z) (k : option ptr → CallProgram)
| Call_Length (k : Z → CallProgram).

(** The classes derived from [Value], with their data members.  A
    [String] is kept by the characters it holds. *)
Inductive Value : Type :=
| Int (_value : Z)
| Double (_value : double)
| String (_value : list byte)
| Bool (_value : bool)
| Object (_object : handle)
| Array (_array : handle)
| Function (_function : handle)
| Callback (Call : CallProgram).

Definition GetValueType (v : Value) : Type_ :=
  match v with
  | Int _ => Type_Int
  | Double _ => Type_Double
  | String _ => Type_String
  | Bool _ => Type_Bool
  | Object _ => Type_Object
  | Array _ => Type_Array
  | Function _ => Type_Function
  | Callback _ => Type_Callback
  end.

(** [String(const char*, int)] applied to [*v] and [v.length()], and
    [String(const Utf8Value&)]: the characters of [v], none when
    [operator*] is null. *)
Definition String_of_Utf8Value (v : v8.Utf8Value) : list byte :=
  match v with
  | Some s => if decide (0 < v8.length v)%Z then s else []
  | None => []
  end.

(** [String::GetValue()] read as a C string: up to the first nul. *)
Fixpoint c_str (s : list byte) : list byte :=
  match s with
  | [] => []
  | b :: rest => if Byte.eqb b x00 then [] else b :: c_str rest
  end.

(** [ScriptException]: each string member is a [String] built from the
    [Utf8Value] the constructor is given, kept here by its characters. *)
Record ScriptException : Type := {
  Name : list byte;
  ErrorMessage : list byte;
  FileName : list byte;
  LineNumber : Z;
  StackTrace : list byte;
  SourceLine : list byte;
}.

(** Modelled from the spec: the declaration of [UniqueValueVector] is
    not among the sources.  It is "a transient, single-pass view over an
    argument list": [_values] refers to the caller's vector, as the
    constructor's parameter [std::vector<Value*>&] does, and a copy of the
    view refers to the same vector. *)
Record UniqueValueVector : Type := { _values : ptr }.

Record Context : Type := {
  _isolate : handle;
  _conversionIsolate : handle;
  _context : handle;
  _instanceOf : option ptr;
  _scriptExceptionHandler : option ptr;
  _runtimeExceptionHandler : option ptr;
  _debugMessageHandler : option ptr;
}.

(* ================================================================== *)
(** * The world of the bridge and its monad *)

(** Calls of the fallible engine operations. *)
Inductive EngineCall : Type :=
| call_Int32Value | call_NumberValue | call_BooleanValue | call_ToString
| call_ToObject | call_NewFromUtf8 (s : list byte)
| call_Compile (origin source : v8.String) | call_Run (script : v8.Script)
| call_Function_New.

(** What can be observed of a run from outside the library. *)
Inductive Event : Type :=
| ScriptExceptionHandler_Handle (handler : ptr) (e : ScriptException)
| MessageHandler_Handle (handler : ptr) (message : string)
| V8Scope_enter
| V8Scope_leave
| Engine (c : EngineCall)
| Deleted (p : ptr).

Record World : Type := {
  (** objects made by [new Int], [new Object], ... and not yet deleted,
      and the embedder's [Callback] objects *)
  values : gmap ptr Value;
  (** [std::vector<Value*>] objects; a [UniqueValueVector] refers to one *)
  vectors : gmap ptr (list (option ptr));
  (** the capture region of the innermost [V8Scope] *)
  region : v8.TryCatch;
  (** live [v8::External]s with a weak finalizer, and its parameter *)
  externals : gmap handle ptr;
  (** native function objects made by [Unwrap], and the [External] each
      carries as data *)
  functions : gmap handle handle;
  (** retain counts kept by the embedder's objects *)
  retainCount : gmap ptr Z;
  _globalContext : option ptr;
  _platform : bool;
  contexts : gmap ptr Context;
  isolates : gset handle;
  trace : list Event;
}.

Definition set_values (f : gmap ptr Value → gmap ptr Value) (w : World) :=
  {| values := f (values w); vectors := vectors w; region := region w;
     externals := externals w; functions := functions w;
     retainCount := retainCount w; _globalContext := _globalContext w;
     _platform := _platform w; contexts := contexts w;
     isolates := isolates w; trace := trace w |}.

Definition set_vectors
  (f : gmap ptr (list (option ptr)) → gmap ptr (list (option ptr)))
  (w : World) :=
  {| values := values w; vectors := f (vectors w); region := region w;
     externals := externals w; functions := functions w;
     retainCount := retainCount w; _globalContext := _globalContext w;
     _platform := _platform w; contexts := contexts w;
     isolates := isolates w; trace := trace w |}.

Definition set_region (tc : v8.TryCatch) (w : World) :=
  {| values := values w; vectors := vectors w; region := tc;
     externals := externals w; functions := functions w;
     retainCount := retainCount w; _globalContext := _globalContext w;
     _platform := _platform w; contexts := contexts w;
     isolates := isolates w; trace := trace w |}.

Definition set_externals (f : gmap handle ptr → gmap handle ptr) (w : World) :=
  {| values := values w; vectors := vectors w; region := region w;
     externals := f (externals w); functions := functions w;
     retainCount := retainCount w; _globalContext := _globalContext w;
     _platform := _platform w; contexts := contexts w;
     isolates := isolates w; trace := trace w |}.

Definition set_functions
  (f : gmap handle handle → gmap handle handle) (w : World) :=
  {| values := values w; vectors := vectors w; region := region w;
     externals := externals w; functions := f (functions w);
     retainCount := retainCount w; _globalContext := _globalContext w;
     _platform := _platform w; contexts := contexts w;
     isolates := isolates w; trace := trace w |}.

Definition set_retainCount (f : gmap ptr Z → gmap ptr Z) (w : World) :=
  {| values := values w; vectors := vectors w; region := region w;
     externals := externals w; functions := functions w;
     retainCount := f (retainCount w); _globalContext := _globalContext w;
     _platform := _platform w; contexts := contexts w;
     isolates := isolates w; trace := trace w |}.

Definition set_globalContext (g : option ptr) (w : World) :=
  {| values := values w; vectors := vectors w; region := region w;
     externals := externals w; functions := functions w;
     retainCount := retainCount w; _globalContext := g;
     _platform := _platform w; contexts := contexts w;
     isolates := isolates w; trace := trace w |}.

Definition set_platform (b : bool) (w : World) :=
  {| values := values w; vectors := vectors w; region := region w;
     externals := externals w; functions := functions w;
     retainCount := retainCount w; _globalContext := _globalContext w;
     _platform := b; contexts := contexts w;
     isolates := isolates w; trace := trace w |}.

Definition set_contexts
  (f : gmap ptr Context → gmap ptr Context) (w : World) :=
  {| values := values w; vectors := vectors w; region := region w;
     externals := externals w; functions := functions w;
     retainCount := retainCount w; _globalContext := _globalContext w;
     _platform := _platform w; contexts := f (contexts w);
     isolates := isolates w; trace := trace w |}.

Definition set_isolates (f : gset handle → gset handle) (w : World) :=
  {| values := values w; vectors := vectors w; region := region w;
     externals := externals w; functions := functions w;
     retainCount := retainCount w; _globalContext := _globalContext w;
     _platform := _platform w; contexts := contexts w;
     isolates := f (isolates w); trace := trace w |}.

Definition emit (e : Event) (w : World) :=
  {| values := values w; vectors := vectors w; region := region w;
     externals := externals w; functions := functions w;
     retainCount := retainCount w; _globalContext := _globalContext w;
     _platform := _platform w; contexts := contexts w;
     isolates := isolates w; trace := trace w ++ [e] |}.

(** C++ exceptions the program throws. *)
Inductive exception : Type :=
| throw_ScriptException (e : ScriptException)
| runtime_error (what : string)
| out_of_range.

Inductive result (A : Type) : Type :=
| Returns (a : A)
| Throws (e : exception)
| Undefined.
Arguments Returns {A} a.
Arguments Throws {A} e.
Arguments Undefined {A}.

Definition M (A : Type) : Type := World → result A * World.

Definition ret {A} (a : A) : M A := λ w, (Returns a, w).

Definition bind {A B} (m : M A) (k : A → M B) : M B := λ w,
  match m w with
  | (Returns a, w') => k a w'
  | (Throws e, w') => (Throws e, w')
  | (Undefined, w') => (Undefined, w')
  end.

Definition throw {A} (e : exception) : M A := λ w, (Throws e, w).
Definition undefined {A} : M A := λ w, (Undefined, w).
Definition gets {A} (f : World → A) : M A := λ w, (Returns (f w), w).
Definition modify (f : World → World) : M unit := λ w, (Returns tt, f w).

(** [try { body } catch (...) { ... }]: [handlers] names the exceptions
    the catch clauses accept. *)
Definition try_catch {A} (body : M A) (handlers : exception → option (M A))
  : M A := λ w,
  match body w with
  | (Throws e, w') =>
      match handlers e with
      | Some h => h w'
      | None => (Throws e, w')
      end
  | other => other
  end.

Notation "'let*' x := m 'in' k" := (bind m (λ x, k))
  (at level 10, x name, m at level 100, k at level 200).
Notation "m >> k" := (bind m (λ _, k))
  (at level 100, k at level 200, right associativity).

(** [for (int i = 0; i < n; ++i) body(i)] over the elements of a list. *)
Fixpoint for_each {A} (l : list A) (body : A → M unit) : M unit :=
  match l with
  | [] => ret tt
  | a :: rest => body a >> for_each rest body
  end.

(* ================================================================== *)
(** * Handlers, the scoped execution guard, the exception translator *)

(** Modelled from the spec: the embedder's [Retain] and [Release], which
    the program declares virtual and calls but does not implement, keep
    the "embedder-side retain count" of the object: one up, one down. *)
Definition retains (w : World) (p : ptr) : Z :=
  default 0%Z (retainCount w !! p).

Definition Retain (p : ptr) : M unit :=
  modify (λ w, set_retainCount (<[p := (retains w p + 1)%Z]>) w).

Definition Release (p : ptr) : M unit :=
  modify (λ w, set_retainCount (<[p := (retains w p - 1)%Z]>) w).

(** [Context::_globalContext->...]: dereferences the singleton. *)
Definition globalContext : M Context := λ w,
  match _globalContext w with
  | Some c =>
      match contexts w !! c with
      | Some ctx => (Returns ctx, w)
      | None => (Undefined, w)
      end
  | None => (Undefined, w)
  end.

(** [CurrentIsolate()] and [CurrentContext()]. *)
Definition CurrentIsolate : M handle :=
  let* ctx := globalContext in ret (_isolate ctx).

Definition CurrentContext : M handle :=
  let* ctx := globalContext in ret (_context ctx).

(** [Context::HandleScriptException]. *)
Definition HandleScriptException (e : ScriptException) : M unit :=
  let* ctx := globalContext in
  match _scriptExceptionHandler ctx with
  | Some h => modify (emit (ScriptExceptionHandler_Handle h e))
  | None => ret tt
  end.

(** [Context::HandleRuntimeException]. *)
Definition HandleRuntimeException (e : string) : M unit :=
  let* g := gets _globalContext in
  match g with
  | Some _ =>
      let* ctx := globalContext in
      match _runtimeExceptionHandler ctx with
      | Some h => modify (emit (MessageHandler_Handle h e))
      | None => ret tt
      end
  | None => ret tt
  end.

(** [V8Scope scope; body]: the guard is opened on the singleton's
    isolate and context, with a capture region of its own, and closed on
    every way out of [body]. *)
Definition with_V8Scope {A} (body : M A) : M A := λ w,
  match globalContext w with
  | (Returns _, _) =>
      let outer := region w in
      let '(r, w') := body (set_region v8.TryCatch_new (emit V8Scope_enter w)) in
      (r, emit V8Scope_leave (set_region outer w'))
  | _ => (Undefined, w)
  end.

(** An engine call made under the guard: it is observed, and what it
    throws lands in the capture region. *)
Definition call {A} (c : EngineCall) (a : v8.Maybe A) : M (option A) :=
  modify (λ w, emit (Engine c)
                 (match v8.caught a with
                  | Some tc => set_region tc w
                  | None => w
                  end)) >>
  ret (v8.just a).

(** The fields [Throw] extracts from the capture region. *)
Definition translate (tc : v8.TryCatch) : ScriptException :=
  let emptyString : v8.Utf8Value := Some [] in
  let '(sourceLine, messageStr, fileName, lineNumber) :=
    match v8.Message tc with
    | Some message =>
        (match v8.GetSourceLine message with
         | Some l => Some l
         | None => emptyString
         end,
         match v8.Get message with
         | Some messageStrLocal => Some messageStrLocal
         | None => emptyString
         end,
         v8.GetScriptResourceName message,
         default (-1)%Z (v8.GetLineNumber message))
    | None => (emptyString, emptyString, emptyString, (-1)%Z)
    end in
  let exception :=
    match v8.Exception tc with
    | None => emptyString
    | Some e => e
    end in
  let stackTrace := default emptyString (v8.StackTrace tc) in
  {| Name := String_of_Utf8Value exception;
     ErrorMessage := String_of_Utf8Value messageStr;
     FileName := String_of_Utf8Value fileName;
     LineNumber := lineNumber;
     StackTrace := String_of_Utf8Value stackTrace;
     SourceLine := String_of_Utf8Value sourceLine |}.

(** [Throw(scope)]. *)
Definition Throw : M unit :=
  CurrentContext >>
  CurrentIsolate >>
  let* tc := gets region in
  throw (throw_ScriptException (translate tc)).

(** [FromJust(scope, a)], both overloads. *)
Definition FromJust {A} (a : option A) : M A :=
  let* tc := gets region in
  (if v8.HasCaught tc || negb (bool_decide (is_Some a))
   then Throw else ret tt) >>
  match a with
  | Some x => ret x
  | None => undefined
  end.

(* ================================================================== *)
(** * The marshaling engine *)

(** [new T(...)] for a class derived from [Value]. *)
Definition new (v : Value) : M ptr := λ w,
  let p := fresh (dom (values w)) in
  (Returns p, set_values (<[p := v]>) w).

(** [delete p] on a [Value*]. *)
Definition delete_ (p : option ptr) : M unit :=
  match p with
  | None => ret tt
  | Some a => λ w,
      match values w !! a with
      | Some _ => (Returns tt, emit (Deleted a) (set_values (delete a) w))
      | None => (Undefined, w)
      end
  end.

(** [value->GetValueType()] and the [static_cast] that follows it. *)
Definition deref (p : ptr) : M Value := λ w,
  match values w !! p with
  | Some v => (Returns v, w)
  | None => (Undefined, w)
  end.

(** [Value::Wrap(const V8Scope&, v8::Local<v8::Value>)]. *)
Definition Wrap (value : v8.Value) : M (option ptr) :=
  CurrentContext >>
  if v8.IsInt32 value then
    let* a := call call_Int32Value (v8.Int32Value value) in
    let* x := FromJust a in
    let* p := new (Int x) in ret (Some p)
  else if v8.IsNumber value || v8.IsNumberObject value then
    let* a := call call_NumberValue (v8.NumberValue value) in
    let* x := FromJust a in
    let* p := new (Double x) in ret (Some p)
  else if v8.IsBoolean value || v8.IsBooleanObject value then
    let* a := call call_BooleanValue (v8.BooleanValue value) in
    let* x := FromJust a in
    let* p := new (Bool x) in ret (Some p)
  else if v8.IsString value || v8.IsStringObject value then
    let* a := call call_ToString (v8.ToString value) in
    let* str := FromJust a in
    let* p := new (String (String_of_Utf8Value (Some str))) in ret (Some p)
  else if v8.IsArray value then
    let* a := call call_ToObject (v8.ToObject value) in
    let* o := FromJust a in
    let* p := new (Array o) in ret (Some p)
  else if v8.IsFunction value then
    let* a := call call_ToObject (v8.ToObject value) in
    let* o := FromJust a in
    let* p := new (Function o) in ret (Some p)
  else if v8.IsObject value then
    let* a := call call_ToObject (v8.ToObject value) in
    let* o := FromJust a in
    let* p := new (Object o) in ret (Some p)
  else if v8.IsUndefined value || v8.IsNull value then
    ret None
  else
    throw (runtime_error "Unhandled type in V8Simple").

(** [UniqueValueVector::Length]. *)
Definition UniqueValueVector_Length (this : UniqueValueVector) : M Z := λ w,
  match vectors w !! _values this with
  | Some vs => (Returns (static_cast_int (Z.of_nat (length vs))), w)
  | None => (Undefined, w)
  end.

(** [UniqueValueVector::Get]: [_values.at(index)] converts [index] to an
    unsigned size and throws when it is not below the size. *)
Definition UniqueValueVector_Get (this : UniqueValueVector) (index : Z)
  : M (option ptr) := λ w,
  match vectors w !! _values this with
  | Some vs =>
      match (if decide (0 ≤ index)%Z then vs !! Z.to_nat index else None) with
      | Some result =>
          (Returns result,
           set_vectors (<[_values this := <[Z.to_nat index := None]> vs]>) w)
      | None => (Throws out_of_range, w)
      end
  | None => (Undefined, w)
  end.

(** The virtual call [callback->Call(args)]: [args] is passed by value
    and still refers to the caller's vector. *)
Fixpoint run_Call (prog : CallProgram) (args : UniqueValueVector)
  : M (option ptr) :=
  match prog with
  | Call_return result => ret result
  | Call_Get index k =>
      let* v := UniqueValueVector_Get args index in run_Call (k v) args
  | Call_Length k =>
      let* n := UniqueValueVector_Length args in run_Call (k n) args
  end.

Definition Callback_Call (callback : ptr) (args : UniqueValueVector)
  : M (option ptr) :=
  let* v := deref callback in
  match v with
  | Callback prog => run_Call prog args
  | _ => undefined
  end.

(** A local [std::vector<Value*>] and its [push_back]. *)
Definition new_vector : M ptr := λ w,
  let a := fresh (dom (vectors w)) in
  (Returns a, set_vectors (<[a := []]>) w).

Definition push_back (vec : ptr) (p : option ptr) : M unit := λ w,
  match vectors w !! vec with
  | Some vs => (Returns tt, set_vectors (<[vec := vs ++ [p]]>) w)
  | None => (Undefined, w)
  end.

(** [v8::FunctionCallbackInfo<v8::Value>]: the arguments of the call and
    the [External] the function carries. *)
Record FunctionCallbackInfo : Type := {
  info_args : list v8.Value;
  Data : ptr;
}.

(** The block of the invocation lambda that follows argument wrapping:
    the call and the release of what the callback left in the vector. *)
Definition call_and_release (callback : ptr) (wrappedArgs : ptr)
  : M (option ptr) :=
  let args := {| _values := wrappedArgs |} in
  let* result := Callback_Call callback args in
  let* len := UniqueValueVector_Length args in
  for_each (seqZ 0 len)
    (λ i, let* p := UniqueValueVector_Get args i in delete_ p) >>
  ret result.

Section Program.

Variable engine : v8.Engine.

(** [ToV8String(scope, str)]. *)
Definition ToV8String (str : list byte) : M v8.String :=
  let* a := call (call_NewFromUtf8 str) (v8.String_NewFromUtf8 engine str) in
  FromJust a.

(** [Value::Wrap(const V8Scope&, v8::MaybeLocal<v8::Value>)]. *)
Definition Wrap_MaybeLocal (c : EngineCall) (mvalue : v8.Maybe v8.Value)
  : M (option ptr) :=
  let* a := call c mvalue in
  let* v := FromJust a in
  Wrap v.

(** The [Callback] case of [Unwrap], up to the creation of the native
    function: retain, make the [External], make it weak with the
    [Release] finalizer, make the function. *)
Definition Unwrap_Callback (callback : ptr) : M v8.Local :=
  Retain callback >>
  let* localCallback :=
    (λ w, let ext := fresh (dom (externals w)) in
          (Returns ext, set_externals (<[ext := callback]>) w)) in
  CurrentContext >>
  let* made := call call_Function_New (v8.Function_New engine) in
  let* f :=
    match made with
    | Some _ => λ w,
        let f := fresh (dom (functions w)) in
        (Returns (Some f), set_functions (<[f := localCallback]>) w)
    | None => ret None
    end in
  let* fn := FromJust f in
  ret (v8.LocalFunction fn).

(** [Value::Unwrap]. *)
Definition Unwrap (value : option ptr) : M v8.Local :=
  CurrentIsolate >>
  match value with
  | None => ret v8.Null
  | Some p =>
      let* v := deref p in
      match v with
      | Int x => ret (v8.Int32_New x)
      | Double x => ret (v8.Number_New x)
      | String s => let* l := ToV8String (c_str s) in ret (v8.LocalString l)
      | Bool b => ret (v8.Boolean_New b)
      | Object h => ret (v8.Persistent_Get h)
      | Array h => ret (v8.Persistent_Get h)
      | Function h => ret (v8.Persistent_Get h)
      | Callback _ => Unwrap_Callback p
      end
  end.

(** The collector finds the native function [f] unreachable: [f] and the
    [External] it carries go, and the weak finalizer registered on the
    [External] runs once. *)
Definition collect (f : handle) (w : World) : World :=
  match functions w !! f with
  | Some ext =>
      let w := set_functions (delete f) w in
      match externals w !! ext with
      | Some cb => snd (Release cb (set_externals (delete ext) w))
      | None => w
      end
  | None => w
  end.

(** The function that [Unwrap] hands to [v8::Function::New]: what runs
    when a script calls the bridged callback. *)
Definition invoke (info : FunctionCallbackInfo) : M v8.Local :=
  with_V8Scope (
    let* wrappedArgs := new_vector in
    try_catch
      (for_each (info_args info)
         (λ arg, let* p := Wrap arg in push_back wrappedArgs p))
      (λ e, match e with
            | runtime_error what => Some (HandleRuntimeException what)
            | _ => None
            end) >>
    let callback := Data info in
    let* result := call_and_release callback wrappedArgs in
    Unwrap result).

(* ------------------------------------------------------------------ *)
(** ** The [Context] *)

Definition bytes (s : string) : list byte := String.list_byte_of_string s.

(** [Context::Evaluate]. *)
Definition Evaluate (fileName code : option (list byte)) : M (option ptr) :=
  match fileName with
  | None =>
      HandleRuntimeException
        "V8Simple::Context::Evaluate is not defined for nullptr `fileName` argument" >>
      ret None
  | Some fileName =>
      match code with
      | None =>
          HandleRuntimeException
            "V8Simple::Context::Evaluate is not defined for nullptr `code` argument" >>
          ret None
      | Some code =>
          try_catch
            (with_V8Scope (
               CurrentContext >>
               let* origin := ToV8String fileName in
               let* source := ToV8String code in
               let* compiled :=
                 call (call_Compile origin source)
                   (v8.Script_Compile engine origin source) in
               let* script := FromJust compiled in
               Wrap_MaybeLocal (call_Run script)
                 (v8.Script_Run engine script)))
            (λ e, match e with
                  | throw_ScriptException e =>
                      Some (HandleScriptException e >> ret None)
                  | runtime_error what =>
                      Some (HandleRuntimeException what >> ret None)
                  | out_of_range => None
                  end)
      end
  end.

(** [v8::Isolate::New] and [v8::Context::New]: an engine object no live
    one shares. *)
Definition new_engine_object : M handle := λ w,
  let h := fresh (isolates w) in
  (Returns h, set_isolates (union {[h]}) w).

(** The constructor of [Context], from a script-exception handler and a
    runtime-exception handler, run on the storage [this]. *)
Definition Context_ctor (this : ptr)
  (scriptExceptionHandler runtimeExceptionHandler : option ptr) : M unit :=
  let* g := gets _globalContext in
  match g with
  | Some _ =>
      HandleRuntimeException "V8Simple::Contexts are not re-entrant"
  | None =>
      modify (set_globalContext (Some this)) >>
      match scriptExceptionHandler with
      | Some h => Retain h
      | None => ret tt
      end >>
      match runtimeExceptionHandler with
      | Some h => Retain h
      | None => ret tt
      end >>
      modify (set_platform true) >>
      let* isolate := new_engine_object in
      let* conversionIsolate := new_engine_object in
      let* context := new_engine_object in
      modify (set_contexts
                (<[this := {| _isolate := isolate;
                              _conversionIsolate := conversionIsolate;
                              _context := context;
                              _instanceOf := None;
                              _scriptExceptionHandler := scriptExceptionHandler;
                              _runtimeExceptionHandler := runtimeExceptionHandler;
                              _debugMessageHandler := None |}]>)) >>
      let* instanceOf :=
        Evaluate (Some (bytes "instanceof"))
          (Some (bytes "(function(x, y) { return (x instanceof y); })")) in
      let* isFunction :=
        match instanceOf with
        | None => ret false
        | Some p =>
            let* v := deref p in
            ret (bool_decide (GetValueType v = Type_Function))
        end in
      if isFunction then
        modify (set_contexts
                  (alter (λ c, {| _isolate := _isolate c;
                                  _conversionIsolate := _conversionIsolate c;
                                  _context := _context c;
                                  _instanceOf := instanceOf;
                                  _scriptExceptionHandler :=
                                    _scriptExceptionHandler c;
                                  _runtimeExceptionHandler :=
                                    _runtimeExceptionHandler c;
                                  _debugMessageHandler :=
                                    _debugMessageHandler c |}) this))
      else
        HandleRuntimeException
          "V8Simple could not create an instanceof function"
  end.

(** [Context::GlobalObject]: the global object goes by the handle of its
    context. *)
Definition GlobalObject : M ptr :=
  with_V8Scope (let* global := CurrentContext in new (Object global)).

(** [Context::~Context]. *)
Definition Context_dtor (this : ptr) : M unit :=
  let* fields := (λ w, match contexts w !! this with
                       | Some c => (Returns c, w)
                       | None => (Undefined, w)
                       end) in
  delete_ (_instanceOf fields) >>
  match _runtimeExceptionHandler fields with
  | Some h => Release h
  | None => ret tt
  end >>
  match _scriptExceptionHandler fields with
  | Some h => Release h
  | None => ret tt
  end >>
  modify (set_isolates
            (λ s, s ∖ {[_context fields]} ∖ {[_conversionIsolate fields]}
                    ∖ {[_isolate fields]})) >>
  modify (set_contexts (delete this)) >>
  modify (set_globalContext None).

End Program.

(* ================================================================== *)
(** * Clients and initial states used in the statements *)

(** The process before any [Context] exists. *)
Definition World_init : World :=
  {| values := ∅; vectors := ∅; region := v8.TryCatch_new;
     externals := ∅; functions := ∅; retainCount := ∅;
     _globalContext := None; _platform := false; contexts := ∅;
     isolates := ∅; trace := [] |}.

(** A taker that reads the given indices of a [UniqueValueVector] in
    turn. *)
Definition take_each (this : UniqueValueVector) (indices : list Z) : M unit :=
  for_each indices
    (λ index, let* _ := UniqueValueVector_Get this index in ret tt).

(** The vector after the elements at [indices] were moved out. *)
Definition moved_out (indices : list Z) (vs : list (option ptr))
  : list (option ptr) :=
  foldl (λ vs index, <[Z.to_nat index := None]> vs) vs indices.

Definition in_range (vs : list (option ptr)) (index : Z) : Prop :=
  (0 ≤ index < Z.of_nat (length vs))%Z.

(** A process in which one [Context], at address 1, is live: handlers
    at addresses 2 (script exceptions) and 3 (runtime faults). *)
Definition Context_live : Context :=
  {| _isolate := 1%positive; _conversionIsolate := 2%positive;
     _context := 3%positive; _instanceOf := None;
     _scriptExceptionHandler := Some 2%positive;
     _runtimeExceptionHandler := Some 3%positive;
     _debugMessageHandler := None |}.

Definition World_live : World :=
  set_isolates (λ _, {[1%positive; 2%positive; 3%positive]})
    (set_contexts (<[1%positive := Context_live]>)
       (set_globalContext (Some 1%positive) World_init)).

(** The precedence of section 4.4 of the specification, in its words: the
    categories in the order they are checked, each with the tag it wraps
    to ([None]: an absent value). *)
Definition precedence : list ((v8.Value → bool) * option Type_) :=
  [ (v8.IsInt32, Some Type_Int);
    (λ v, v8.IsNumber v || v8.IsNumberObject v, Some Type_Double);
    (λ v, v8.IsBoolean v || v8.IsBooleanObject v, Some Type_Bool);
    (λ v, v8.IsString v || v8.IsStringObject v, Some Type_String);
    (v8.IsArray, Some Type_Array);
    (v8.IsFunction, Some Type_Function);
    (v8.IsObject, Some Type_Object);
    (λ v, v8.IsUndefined v || v8.IsNull v, None) ].

(** The first category of the precedence a native value falls in, if
    any. *)
Definition category (v : v8.Value) : option (option Type_) :=
  snd <$> List.find (λ row, fst row v) precedence.

(** The tag of what [Wrap] returned: [None] for an absent value. *)
Definition tag_of (w : World) (r : option ptr) : option (option Type_) :=
  match r with
  | None => Some None
  | Some p => (λ v, Some (GetValueType v)) <$> values w !! p
  end.

(** Two native values answer every predicate alike. *)
Definition same_category (v1 v2 : v8.Value) : Prop :=
  v8.IsInt32 v1 = v8.IsInt32 v2 ∧ v8.IsNumber v1 = v8.IsNumber v2
  ∧ v8.IsNumberObject v1 = v8.IsNumberObject v2
  ∧ v8.IsBoolean v1 = v8.IsBoolean v2
  ∧ v8.IsBooleanObject v1 = v8.IsBooleanObject v2
  ∧ v8.IsString v1 = v8.IsString v2
  ∧ v8.IsStringObject v1 = v8.IsStringObject v2
  ∧ v8.IsArray v1 = v8.IsArray v2 ∧ v8.IsFunction v1 = v8.IsFunction v2
  ∧ v8.IsObject v1 = v8.IsObject v2
  ∧ v8.IsUndefined v1 = v8.IsUndefined v2 ∧ v8.IsNull v1 = v8.IsNull v2.

(** Every conversion of the value succeeds and throws nothing. *)
Definition converts (v : v8.Value) : Prop :=
  (is_Some (v8.just (v8.Int32Value v)) ∧ v8.caught (v8.Int32Value v) = None)
  ∧ (is_Some (v8.just (v8.NumberValue v))
     ∧ v8.caught (v8.NumberValue v) = None)
  ∧ (is_Some (v8.just (v8.BooleanValue v))
     ∧ v8.caught (v8.BooleanValue v) = None)
  ∧ (is_Some (v8.just (v8.ToString v)) ∧ v8.caught (v8.ToString v) = None)
  ∧ (is_Some (v8.just (v8.ToObject v)) ∧ v8.caught (v8.ToObject v) = None).

(** The singleton is set and points to an initialised [Context]. *)
Definition Context_is_live (w : World) : Prop :=
  ∃ c ctx, _globalContext w = Some c ∧ contexts w !! c = Some ctx.

(** One branch of [Wrap]: convert, check the capture region, allocate. *)
Definition convert_and_new {A} (c : EngineCall) (a : v8.Maybe A)
  (mk : A → Value) : M (option ptr) :=
  let* r := call c a in
  let* x := FromJust r in
  let* p := new (mk x) in ret (Some p).

(** The collector finds the native functions of [schedule] unreachable,
    one after the other. *)
Definition collect_all (schedule : list handle) (w : World) : World :=
  foldl (λ w f, collect f w) w schedule.

(** No native function carries the callback [cb] yet, and every native
    function carries a live [External]. *)
Definition unbridged (cb : ptr) (w : World) : Prop :=
  ∀ f ext, functions w !! f = Some ext →
           ∃ p, externals w !! ext = Some p ∧ p ≠ cb.

(** An engine in which every call of the bridge succeeds: scripts
    compile to script 1 and evaluate to the integer two. *)
Definition engine_ok : v8.Engine :=
  {| v8.String_NewFromUtf8 := λ s, v8.Just s;
     v8.Script_Compile := λ _ _, v8.Just 1%positive;
     v8.Script_Run := λ _, v8.Just (v8.Int32 2%Z 4611686018427387904%Z [x32]);
     v8.Function_New := v8.Just tt |}.

(** What the two native functions of [cb] look like when [d1], [d2] say
    which of them the collector has taken. *)
Definition two_functions (cb : ptr) (f1 f2 e1 e2 : handle) (d1 d2 : bool)
  (w : World) : Prop :=
  (if d1 then functions w !! f1 = None
   else functions w !! f1 = Some e1 ∧ externals w !! e1 = Some cb)
  ∧ (if d2 then functions w !! f2 = None
     else functions w !! f2 = Some e2 ∧ externals w !! e2 = Some cb)
  ∧ (∀ f ext, f ≠ f1 → f ≠ f2 → functions w !! f = Some ext →
       ext ≠ e1 ∧ ext ≠ e2 ∧ externals w !! ext ≠ Some cb)
  ∧ retains w cb
    = (2 - (if d1 then 1 else 0) - (if d2 then 1 else 0))%Z.

(** The indices a callback's [Call] takes from the vector [vs], in the
    order it takes them. *)
Fixpoint taken (prog : CallProgram) (vs : list (option ptr)) : list Z :=
  match prog with
  | Call_return _ => []
  | Call_Get index k =>
      match (if decide (0 ≤ index)%Z then vs !! Z.to_nat index else None) with
      | Some v => index :: taken (k v) (<[Z.to_nat index := None]> vs)
      | None => []
      end
  | Call_Length k => taken (k (static_cast_int (Z.of_nat (length vs)))) vs
  end.

(** The world after [delete] ran on the objects [ps], in order. *)
Definition deleted (ps : list ptr) (w : World) : World :=
  foldl (λ w p, emit (Deleted p) (set_values (delete p) w)) w ps.

(** The objects a vector still owns: its non-null elements. *)
Definition owned (vs : list (option ptr)) : list ptr := omap id vs.

(** The world after the runtime-fault handler of the live [Context], if
    it has one, was handed [message]: only the trace has grown. *)
Definition reported (message : string) (w : World) : World :=
  match _globalContext w with
  | Some c =>
      match contexts w !! c with
      | Some ctx =>
          match _runtimeExceptionHandler ctx with
          | Some h => emit (MessageHandler_Handle h message) w
          | None => w
          end
      | None => w
      end
  | None => w
  end.

(** The world after the script-exception handler of the live [Context],
    if it has one, was handed [e]. *)
Definition delivered (e : ScriptException) (w : World) : World :=
  match _globalContext w with
  | Some c =>
      match contexts w !! c with
      | Some ctx =>
          match _scriptExceptionHandler ctx with
          | Some h => emit (ScriptExceptionHandler_Handle h e) w
          | None => w
          end
      | None => w
      end
  | None => w
  end.

(** A guard is opened in [w]; the engine calls [calls] are made in it. *)
Definition guarded (calls : list EngineCall) (w : World) : World :=
  foldl (λ w c, emit (Engine c) w)
    (set_region v8.TryCatch_new (emit V8Scope_enter w)) calls.

(** The guard opened in [w] is closed in [w']. *)
Definition unguarded (w w' : World) : World :=
  emit V8Scope_leave (set_region (region w) w').

(** An engine call made in a clean capture region faults: it has no
    result, or it left a caught exception. *)
Definition faults {A} (a : v8.Maybe A) : Prop :=
  v8.just a = None
  ∨ ∃ tc, v8.caught a = Some tc ∧ v8.HasCaught tc = true.

(** The capture region after a call made in a clean region. *)
Definition fault_region {A} (a : v8.Maybe A) : v8.TryCatch :=
  default v8.TryCatch_new (v8.caught a).

(** A script that throws: its compilation succeeds, its run leaves the
    thrown value in the capture region. *)
Definition thrown_TypeError : v8.TryCatch :=
  {| v8.HasCaught := true;
     v8.Message :=
       Some {| v8.GetSourceLine := Some [x28; x7b; x7d; x29; x2e; x78; x2e; x79];
               v8.Get := Some [x54; x79; x70; x65; x45; x72; x72; x6f; x72];
               v8.GetScriptResourceName := Some [x74];
               v8.GetLineNumber := Some 1%Z |};
     v8.Exception := Some (Some [x54; x79; x70; x65; x45; x72; x72; x6f; x72]);
     v8.StackTrace := Some (Some [x61; x74; x20; x74; x3a; x31]) |}.

Definition engine_throwing : v8.Engine :=
  {| v8.String_NewFromUtf8 := λ s, v8.Just s;
     v8.Script_Compile := λ _ _, v8.Just 1%positive;
     v8.Script_Run := λ _, {| v8.just := None;
                              v8.caught := Some thrown_TypeError |};
     v8.Function_New := v8.Just tt |}.

(** The world with its trace replaced. *)
Definition set_trace (t : list Event) (w : World) :=
  {| values := values w; vectors := vectors w; region := region w;
     externals := externals w; functions := functions w;
     retainCount := retainCount w; _globalContext := _globalContext w;
     _platform := _platform w; contexts := contexts w;
     isolates := isolates w; trace := t |}.

(** A program that never reads the trace: run after any history [t], it
    does what it does after none, and adds its events to [t]. *)
Definition oblivious {A} (m : M A) : Prop :=
  ∀ w t,
    m (set_trace t w)
    = (fst (m (set_trace [] w)),
       set_trace (t ++ trace (snd (m (set_trace [] w))))
         (snd (m (set_trace [] w)))).

(** A world with a live [Context] and an embedder callback at address 9
    that takes its first argument and returns it. *)
Definition World_callback : World :=
  set_values
    (<[9%positive := Callback (Call_Get 0%Z (λ v, Call_return v))]>)
    World_live.

(** [new Number(1)] with a [valueOf] that throws: a boxed number whose
    conversion to a number leaves the thrown value in the capture
    region. *)
Definition boxed_number_throwing : v8.Value :=
  v8.NumberObject 7%positive 1%Z
    {| v8.just := None; v8.caught := Some thrown_TypeError |}
    (v8.Just [x31]).

(** The memory-level [Utf8Value] [v] holds the encoding [u]. *)
Definition holds_utf8 (u : v8.Utf8Value) (v : StringStorage.Utf8Value)
  (m : gmap ptr (list StringStorage.cell)) : Prop :=
  StringStorage.length_ v = v8.length u
  ∧ match u with
    | Some s =>
        ∃ q buf, StringStorage.star v = Some q ∧ m !! q = Some buf
                 ∧ take (length s) buf = Some <$> s
    | None => StringStorage.star v = None
    end.

(** What a run may do to the heap of [Value]s: nothing, or allocate the
    one object it returns. *)
Definition allocates_result (w w' : World) (r : result (option ptr)) : Prop :=
  vectors w' = vectors w
  ∧ ((values w' = values w ∧ ∀ p, r ≠ Returns (Some p))
     ∨ ∃ p x, r = Returns (Some p) ∧ (p ∉ dom (values w))
              ∧ values w' = <[p := x]> (values w)).

(* ================================================================== *)
(** * The methods of [Object], [Function] and [Array]

    Each method opens a guard, hands its arguments to an engine call on
    the heap object it wraps, and turns what comes back into a result or
    into a call of a handler. *)

(** [static_cast<uint32_t>] of an [int]. *)
Definition static_cast_uint32 (z : Z) : Z := (z `mod` 4294967296)%Z.

(** The engine calls on heap objects: property access by name and by
    index, property names (each name by the [Utf8Value] of the element
    the names array gives for it), identity, calls and construction.
    [heap_CallProperty] is the call without a context argument, whose
    result is an empty handle when the function throws. *)
Record Heap : Type := {
  heap_Get : handle → v8.String → v8.Maybe v8.Value;
  heap_Set : handle → v8.String → v8.Local → v8.Maybe bool;
  heap_Has : handle → v8.String → v8.Maybe bool;
  heap_GetPropertyNames : handle → v8.Maybe (list (v8.Maybe v8.Utf8Value));
  heap_Equals : handle → handle → v8.Maybe bool;
  heap_Call : handle → handle → list v8.Local → v8.Maybe v8.Value;
  heap_CallProperty : v8.Value → handle → list v8.Local → v8.Maybe v8.Value;
  heap_NewInstance : handle → list v8.Local → v8.Maybe handle;
  heap_GetIndex : handle → Z → v8.Maybe v8.Value;
  heap_SetIndex : handle → Z → v8.Local → v8.Maybe bool;
  heap_Length : handle → Z;
}.

(** A call on a heap object made under the guard: what it throws lands
    in the capture region. *)
Definition heap_call {A} (a : v8.Maybe A) : M (option A) :=
  modify (λ w, match v8.caught a with
               | Some tc => set_region tc w
               | None => w
               end) >>
  ret (v8.just a).

(** The data member [_object], [_function] or [_array] of the object a
    method runs on. *)
Definition this_Object (this : ptr) : M handle :=
  let* v := deref this in
  match v with Object h => ret h | _ => undefined end.

Definition this_Function (this : ptr) : M handle :=
  let* v := deref this in
  match v with Function h => ret h | _ => undefined end.

Definition this_Array (this : ptr) : M handle :=
  let* v := deref this in
  match v with Array h => ret h | _ => undefined end.

(** [for (...) result.push_back(f(x))]: the results, in order. *)
Fixpoint map_each {A B} (l : list A) (f : A → M B) : M (list B) :=
  match l with
  | [] => ret []
  | a :: rest =>
      let* b := f a in
      let* bs := map_each rest f in
      ret (b :: bs)
  end.

(** The [catch] clauses of the methods: some catch [ScriptException]
    only, some [std::runtime_error] as well; [after] is what the method
    does once the handler was told. *)
Definition catch_ScriptException {A} (after : M A) (e : exception)
  : option (M A) :=
  match e with
  | throw_ScriptException e => Some (HandleScriptException e >> after)
  | _ => None
  end.

Definition catch_both {A} (after : M A) (e : exception) : option (M A) :=
  match e with
  | throw_ScriptException e => Some (HandleScriptException e >> after)
  | runtime_error what => Some (HandleRuntimeException what >> after)
  | out_of_range => None
  end.

Section Objects.

Variables (engine : v8.Engine) (heap : Heap).

(** [Value::UnwrapVector]. *)
Definition UnwrapVector (values : list (option ptr)) : M (list v8.Local) :=
  map_each values (Unwrap engine).

(** [Object::Get]. *)
Definition Object_Get (this : ptr) (key : option (list byte))
  : M (option ptr) :=
  match key with
  | None =>
      HandleRuntimeException
        "V8Simple::Object::Get is not defined for nullptr argument" >>
      ret None
  | Some key =>
      try_catch
        (with_V8Scope (
           CurrentIsolate >>
           let* o := this_Object this in
           CurrentContext >>
           let* k := ToV8String engine key in
           let* r := heap_call (heap_Get heap o k) in
           let* v := FromJust r in
           Wrap v))
        (catch_both (ret None))
  end.

(** [Object::Set]. *)
Definition Object_Set (this : ptr) (key : option (list byte))
  (value : option ptr) : M unit :=
  match key with
  | None =>
      HandleRuntimeException
        "V8Simple::Object::Set is not defined for nullptr `key` argument"
  | Some key =>
      try_catch
        (with_V8Scope (
           CurrentIsolate >>
           let* o := this_Object this in
           CurrentContext >>
           let* k := ToV8String engine key in
           let* v := Unwrap engine value in
           let* r := heap_call (heap_Set heap o k v) in
           FromJust r >> ret tt))
        (catch_ScriptException (ret tt))
  end.

(** [Object::Keys]. *)
Definition Object_Keys (this : ptr) : M (list (list byte)) :=
  try_catch
    (with_V8Scope (
       CurrentContext >>
       CurrentIsolate >>
       let* o := this_Object this in
       let* names := heap_call (heap_GetPropertyNames heap o) in
       let* propArr := FromJust names in
       let length := Z.of_nat (List.length propArr) in
       map_each (take (Z.to_nat (static_cast_int length)) propArr)
         (λ name, let* r := heap_call name in
                  let* u := FromJust r in
                  ret (String_of_Utf8Value u))))
    (catch_ScriptException (ret [])).

(** [Function::Call]: the receiver is the global object of the context. *)
Definition Function_Call (this : ptr) (args : list (option ptr))
  : M (option ptr) :=
  try_catch
    (with_V8Scope (
       let* context := CurrentContext in
       let* unwrappedArgs := UnwrapVector args in
       CurrentIsolate >>
       let* f := this_Function this in
       let* r := heap_call (heap_Call heap f context unwrappedArgs) in
       let* v := FromJust r in
       Wrap v))
    (catch_both (ret None)).

(** [Function::Construct]. *)
Definition Function_Construct (this : ptr) (args : list (option ptr))
  : M (option ptr) :=
  try_catch
    (with_V8Scope (
       CurrentIsolate >>
       let* unwrappedArgs := UnwrapVector args in
       let* f := this_Function this in
       CurrentContext >>
       let* r := heap_call (heap_NewInstance heap f unwrappedArgs) in
       let* o := FromJust r in
       CurrentIsolate >>
       let* p := new (Object o) in
       ret (Some p)))
    (catch_ScriptException (ret None)).

(** [Function::Equals]. *)
Definition Function_Equals (this function : ptr) : M bool :=
  try_catch
    (with_V8Scope (
       CurrentIsolate >>
       let* f := this_Function this in
       CurrentContext >>
       let* g := this_Function function in
       let* r := heap_call (heap_Equals heap f g) in
       FromJust r))
    (catch_ScriptException (ret false)).

(** [Object::InstanceOf]: [callResult] is still null when a [catch]
    clause is entered. *)
Definition Object_InstanceOf (this type : ptr) : M bool :=
  try_catch
    (let* ctx := globalContext in
     match _instanceOf ctx with
     | None => undefined
     | Some instanceOf =>
         let* callResult := Function_Call instanceOf [Some this; Some type] in
         let* result :=
           match callResult with
           | None => ret false
           | Some p =>
               let* v := deref p in
               ret (match v with Bool b => b | _ => false end)
           end in
         delete_ callResult >>
         ret result
     end)
    (catch_both (delete_ None >> ret false)).

(** [Object::CallMethod].  The call of the property goes to [Wrap] as a
    handle, not through [FromJust]: an empty handle is dereferenced. *)
Definition Object_CallMethod (this : ptr) (name : option (list byte))
  (args : list (option ptr)) : M (option ptr) :=
  match name with
  | None =>
      HandleRuntimeException
        "V8Simple::Object::CallMethod is not defined for nullptr `name` argument" >>
      ret None
  | Some name =>
      try_catch
        (with_V8Scope (
           CurrentIsolate >>
           CurrentContext >>
           let* localObject := this_Object this in
           let* k := ToV8String engine name in
           let* r := heap_call (heap_Get heap localObject k) in
           let* prop := FromJust r in
           (if v8.IsFunction prop then ret tt else Throw) >>
           let* unwrappedArgs := UnwrapVector args in
           let* called :=
             heap_call (heap_CallProperty heap prop localObject unwrappedArgs) in
           match called with
           | Some v => Wrap v
           | None => undefined
           end))
        (catch_both (ret None))
  end.

(** [Object::ContainsKey]. *)
Definition Object_ContainsKey (this : ptr) (key : option (list byte))
  : M bool :=
  match key with
  | None =>
      HandleRuntimeException
        "V8Simple::Object::ContainsKey is not defined for nullptr" >>
      ret false
  | Some key =>
      try_catch
        (with_V8Scope (
           CurrentIsolate >>
           let* o := this_Object this in
           CurrentContext >>
           let* k := ToV8String engine key in
           let* r := heap_call (heap_Has heap o k) in
           FromJust r))
        (catch_ScriptException (ret false))
  end.

(** [Object::Equals]. *)
Definition Object_Equals (this o : ptr) : M bool :=
  try_catch
    (with_V8Scope (
       CurrentIsolate >>
       let* a := this_Object this in
       CurrentContext >>
       let* b := this_Object o in
       let* r := heap_call (heap_Equals heap a b) in
       FromJust r))
    (catch_ScriptException (ret false)).

(** [Array::Get]. *)
Definition Array_Get (this : ptr) (index : Z) : M (option ptr) :=
  try_catch
    (with_V8Scope (
       CurrentIsolate >>
       let* a := this_Array this in
       CurrentContext >>
       let* r := heap_call (heap_GetIndex heap a (static_cast_uint32 index)) in
       let* v := FromJust r in
       Wrap v))
    (catch_both (ret None)).

(** [Array::Set]. *)
Definition Array_Set (this : ptr) (index : Z) (value : option ptr) : M unit :=
  try_catch
    (with_V8Scope (
       CurrentIsolate >>
       let* a := this_Array this in
       CurrentContext >>
       let* v := Unwrap engine value in
       let* r := heap_call (heap_SetIndex heap a (static_cast_uint32 index) v) in
       FromJust r >> ret tt))
    (catch_ScriptException (ret tt)).

(** [Array::Length]. *)
Definition Array_Length (this : ptr) : M Z :=
  with_V8Scope (
    CurrentIsolate >>
    let* a := this_Array this in
    ret (static_cast_int (heap_Length heap a))).

(** [Array::Equals]. *)
Definition Array_Equals (this array : ptr) : M bool :=
  try_catch
    (with_V8Scope (
       CurrentIsolate >>
       let* a := this_Array this in
       CurrentContext >>
       let* b := this_Array array in
       let* r := heap_call (heap_Equals heap a b) in
       FromJust r))
    (catch_ScriptException (ret false)).

End Objects.

(** [Context::SetDebugMessageHandler]: the engine keeps the function that
    forwards its debug messages to [_debugMessageHandler]. *)
Definition SetDebugMessageHandler (debugMessageHandler : option ptr) : M unit :=
  let* g := gets _globalContext in
  match g with
  | None => ret tt
  | Some c =>
      match debugMessageHandler with
      | Some h => Retain h
      | None => ret tt
      end >>
      let* ctx := globalContext in
      match _debugMessageHandler ctx with
      | Some old => Release old
      | None => ret tt
      end >>
      with_V8Scope (
        modify (set_contexts
                  (alter (λ c, {| _isolate := _isolate c;
                                  _conversionIsolate := _conversionIsolate c;
                                  _context := _context c;
                                  _instanceOf := _instanceOf c;
                                  _scriptExceptionHandler :=
                                    _scriptExceptionHandler c;
                                  _runtimeExceptionHandler :=
                                    _runtimeExceptionHandler c;
                                  _debugMessageHandler :=
                                    debugMessageHandler |}) c)))
  end.

(** The base class's [Callback::Call]: it takes nothing and returns a
    null pointer. *)
Definition Callback_Call_default : CallProgram := Call_return None.

(* ================================================================== *)
(** * Notions the statements about these methods use *)

(** The program throws no exception but those [P] admits. *)
Definition throws_only {A} (P : exception → Prop) (m : M A) : Prop :=
  ∀ w e, fst (m w) = Throws e → P e.

Definition is_ScriptException (e : exception) : Prop :=
  ∃ x, e = throw_ScriptException x.

Definition is_caught_by_both (e : exception) : Prop :=
  e ≠ out_of_range.

(** No run of the program changes what [f] reads of the world. *)
Definition preserves {A B} (f : World → B) (m : M A) : Prop :=
  ∀ w, f (snd (m w)) = f w.

(** The objects the embedder owns through the bridge: the [Value]s and
    the vectors of pointers to them. *)
Definition Values_of (w : World) : gmap ptr Value * gmap ptr (list (option ptr)) :=
  (values w, vectors w).

(** Everything of the world but the capture region and the trace. *)
Definition frame (w : World) :=
  (values w, vectors w, externals w, functions w, retainCount w,
   _globalContext w, _platform w, contexts w, isolates w).

(** Every run of the program leaves the vectors alone and, of the
    [Value]s, changes nothing or adds the one object it returns. *)
Definition allocating (m : M (option ptr)) : Prop :=
  ∀ w, allocates_result w (snd (m w)) (fst (m w)).

(** A world with a live [Context] and the [String] "a", nul, "b" at
    address 5. *)
Definition World_string : World :=
  set_values (<[5%positive := String [x61; x00; x62]]>) World_live.

(** What [Unwrap] makes of a [Value] without asking the engine: the
    number, the boolean, or the handle of the heap object. *)
Definition native_of (x : Value) : option v8.Local :=
  match x with
  | Int z => Some (v8.Int32_New z)
  | Double d => Some (v8.Number_New d)
  | Bool b => Some (v8.Boolean_New b)
  | Object h | Array h | Function h => Some (v8.Persistent_Get h)
  | String _ | Callback _ => None
  end.

(** The natives of an argument list of absent values, numbers, booleans
    and heap objects. *)
Definition natives (w : World) (args : list (option ptr))
  : option (list v8.Local) :=
  mapM (λ a : option ptr,
          match a with
          | None => Some v8.Null
          | Some p => values w !! p ≫= native_of
          end) args.

(** The [ScriptException] [Throw] makes of an empty capture region. *)
Definition ScriptException_empty : ScriptException :=
  {| Name := []; ErrorMessage := []; FileName := []; LineNumber := (-1)%Z;
     StackTrace := []; SourceLine := [] |}.

(** An engine heap in which every property and element is the integer
    two, every call returns it, and there are no property names. *)
Definition heap_two : Heap :=
  let two := v8.Int32 2%Z 4611686018427387904%Z [x32] in
  {| heap_Get := λ _ _, v8.Just two;
     heap_Set := λ _ _ _, v8.Just true;
     heap_Has := λ _ _, v8.Just true;
     heap_GetPropertyNames := λ _, v8.Just [];
     heap_Equals := λ a b, v8.Just (bool_decide (a = b));
     heap_Call := λ _ _ _, v8.Just two;
     heap_CallProperty := λ _ _ _, v8.Just two;
     heap_NewInstance := λ _ _, v8.Just 20%positive;
     heap_GetIndex := λ _ _, v8.Just two;
     heap_SetIndex := λ _ _ _, v8.Just true;
     heap_Length := λ _, 3%Z |}.

(** A world with a live [Context], an [Object] at address 5, a
    [Function] at 6, an [Array] at 7 and the [Int] seven at 8. *)
Definition World_objects : World :=
  set_values (λ _, {[ 5%positive := Object 10%positive;
                      6%positive := Function 11%positive;
                      7%positive := Array 12%positive;
                      8%positive := Int 7%Z ]})
    World_live.

(** The world after [Retain] or [Release] ran on a handler that may be
    null. *)
Definition retained (handler : option ptr) (w : World) : World :=
  match handler with
  | Some h => set_retainCount (<[h := (retains w h + 1)%Z]>) w
  | None => w
  end.

Definition released (handler : option ptr) (w : World) : World :=
  match handler with
  | Some h => set_retainCount (<[h := (retains w h - 1)%Z]>) w
  | None => w
  end.

(** One when the handler pointer is [q], zero otherwise. *)
Definition is_handler (handler : option ptr) (q : ptr) : Z :=
  if bool_decide (handler = Some q) then 1%Z else 0%Z.

(** The bootstrap script of the constructor. *)
Definition instanceof_name : list byte := bytes "instanceof".
Definition instanceof_code : list byte :=
  bytes "(function(x, y) { return (x instanceof y); })".

(** A native function at heap handle [h]. *)
Definition native_function (h : handle) : v8.Value :=
  {| v8.IsInt32 := false; v8.IsNumber := false; v8.IsNumberObject := false;
     v8.IsBoolean := false; v8.IsBooleanObject := false;
     v8.IsString := false; v8.IsStringObject := false; v8.IsArray := false;
     v8.IsFunction := true; v8.IsObject := true; v8.IsUndefined := false;
     v8.IsNull := false;
     v8.Int32Value := v8.Just 0%Z; v8.NumberValue := v8.Just 0%Z;
     v8.BooleanValue := v8.Just true;
     v8.ToString := v8.Just [x66];
     v8.ToObject := v8.Just h |}.

(** An engine in which every script compiles to script 1 and evaluates
    to the function at handle 30. *)
Definition engine_function : v8.Engine :=
  {| v8.String_NewFromUtf8 := λ s, v8.Just s;
     v8.Script_Compile := λ _ _, v8.Just 1%positive;
     v8.Script_Run := λ _, v8.Just (native_function 30%positive);
     v8.Function_New := v8.Just tt |}.

(* ================================================================== *)
(** * Theorems *)

Module StringStorageFacts.
Import StringStorage.

Ltac in_bounds :=
  match goal with
  | |- context [decide ?P] =>
      destruct (decide P) as [_|Hn];
      [|exfalso; apply Hn;
        rewrite ?length_insert, ?length_app, ?length_take, ?length_drop,
          ?length_replicate; lia]
  end.

Lemma String_ptr_length_eq value length m :
  (0 ≤ length < INT_MAX)%Z →
  readable value length m →
  let p := fresh (dom m) in
  ∃ buf,
    String_ptr_length value length m
    = Finished {| _value := p; _length := length |} (<[p := buf]> m)
    ∧ Z.of_nat (List.length buf) = (length + 1)%Z
    ∧ buf !! Z.to_nat length = Some (Some nul)
    ∧ match value with
      | Some src =>
          (0 < length)%Z →
          take (Z.to_nat length) buf
          = take (Z.to_nat length) (default [] (m !! src))
      | None => True
      end.
Proof.
  intros Hlen Hsrc p. unfold String_ptr_length.
  destruct (decide _) as [?|_]; [lia|].
  unfold new_char. destruct (decide _) as [?|_]; [lia|]. cbn [andThen].
  fold p.
  assert (Hfresh : m !! p = None).
  { apply not_elem_of_dom. apply is_fresh. }
  destruct value as [src|].
  - destruct (decide (0 < length)%Z) as [Hpos|Hz].
    + destruct (Hsrc Hpos) as (sbuf & Hs & Hle).
      unfold memcpy. rewrite lookup_insert_eq.
      assert (Hne : p ≠ src) by (intros ->; congruence).
      rewrite lookup_insert_ne by done. rewrite Hs.
      in_bounds. cbn [andThen]. rewrite insert_insert_eq.
      unfold store. rewrite lookup_insert_eq.
      in_bounds. cbn [andThen]. rewrite insert_insert_eq.
      eexists. split; [reflexivity|].
      rewrite length_insert, length_app, length_take, length_drop,
        length_replicate.
      split; [lia|]. split.
      * apply list_lookup_insert_eq.
        rewrite length_app, length_take, length_drop, length_replicate. lia.
      * intros _. cbn [default].
        rewrite take_insert_ge by lia.
        rewrite take_app_le by (rewrite length_take; lia).
        rewrite take_take. f_equal. lia.
    + assert (length = 0)%Z as -> by lia. cbn [andThen].
      unfold store. rewrite lookup_insert_eq.
      in_bounds. cbn [andThen]. rewrite insert_insert_eq.
      eexists. split; [reflexivity|]. rewrite length_insert.
      split; [rewrite length_replicate; lia|]. split; [|lia].
      apply list_lookup_insert_eq. rewrite length_replicate. lia.
  - cbn [andThen]. unfold store. rewrite lookup_insert_eq.
    in_bounds. cbn [andThen]. rewrite insert_insert_eq.
    eexists. split; [reflexivity|]. rewrite length_insert.
    split; [rewrite length_replicate; lia|]. split; [|done].
    apply list_lookup_insert_eq. rewrite length_replicate. lia.
Qed.

Lemma strlen_cells_lt buf n :
  strlen_cells buf = Some n → (n < List.length buf)%nat.
Proof.
  revert n. induction buf as [|c buf IH]; intros n; cbn; [done|].
  destruct c as [b|]; [|done].
  destruct (Byte.eqb b nul).
  - intros [= <-]. lia.
  - destruct (strlen_cells buf) as [k|]; cbn; [|done].
    intros [= <-]. specialize (IH k eq_refl). lia.
Qed.

Lemma static_cast_int_small z :
  (0 ≤ z < INT_MAX)%Z → static_cast_int z = z.
Proof.
  intros H. unfold static_cast_int, INT_MAX in *.
  rewrite Z.mod_small by lia. lia.
Qed.

Lemma String_ptr_length_spec value length m :
  (0 ≤ length < INT_MAX)%Z → readable value length m →
  ∃ s m', String_ptr_length value length m = Finished s m'
          ∧ freshly_allocated s m m' ∧ _length s = length
          ∧ terminated s m'
          ∧ (∀ src, value = Some src → (0 < length)%Z →
               contents s m'
               = Some (take (Z.to_nat length) (default [] (m !! src)))).
Proof.
  intros Hlen Hr.
  destruct (String_ptr_length_eq value length m Hlen Hr)
    as (buf & Heq & Hl & Hnul & Hcopy).
  eexists _, _. split; [exact Heq|].
  split; [split; [apply is_fresh|by eexists]|].
  split; [done|]. split.
  - exists buf. cbn. by rewrite lookup_insert_eq.
  - intros src -> Hpos. unfold contents. cbn.
    rewrite lookup_insert_eq. cbn. f_equal. by apply Hcopy.
Qed.

(** C10.  Every [String] constructor returns a [String] whose block was
    not live before the call and carries a nul at offset [_length]: the
    constructor from a pointer and a length (for a length that fits an
    [int] and a readable source), the constructor from a C string or a
    null pointer (the latter gives the empty string), the constructor from
    a [Utf8Value], and the copy constructor, whose block is distinct from
    the original's, holds the same characters and leaves the original
    untouched. *)
Theorem String_constructors_fresh_and_terminated (m : Memory) :
  (∀ value length,
     (0 ≤ length < INT_MAX)%Z → readable value length m →
     ∃ s m', String_ptr_length value length m = Finished s m'
             ∧ freshly_allocated s m m' ∧ _length s = length
             ∧ terminated s m')
  ∧ (∀ value,
       c_string value m →
       ∃ s m', String_ptr value m = Finished s m'
               ∧ freshly_allocated s m m' ∧ terminated s m'
               ∧ (value = None → _length s = 0%Z ∧ contents s m' = Some []))
  ∧ (∀ v,
       utf8_valid v m →
       ∃ s m', String_Utf8Value v m = Finished s m'
               ∧ freshly_allocated s m m' ∧ _length s = length_ v
               ∧ terminated s m')
  ∧ (∀ str,
       (_length str < INT_MAX)%Z → terminated str m →
       ∃ s m', String_copy str m = Finished s m'
               ∧ freshly_allocated s m m' ∧ terminated s m'
               ∧ _value s ≠ _value str
               ∧ m' !! _value str = m !! _value str
               ∧ _length s = _length str
               ∧ contents s m' = contents str m).
Proof.
  split; [|split; [|split]].
  - intros value length Hlen Hr.
    destruct (String_ptr_length_spec value length m Hlen Hr)
      as (s & m' & ? & ? & ? & ? & _). by exists s, m'.
  - intros [src|] Hc; unfold String_ptr.
    + destruct Hc as (buf & n & Hb & Hn & Hmax).
      unfold strlen. rewrite Hb, Hn. cbn [andThen].
      rewrite static_cast_int_small by lia.
      destruct (String_ptr_length_spec (Some src) (Z.of_nat n) m)
        as (s & m' & ? & ? & ? & ? & _); [lia| |].
      { exists buf. split; [done|]. apply strlen_cells_lt in Hn. lia. }
      exists s, m'. split_and!; try done.
    + cbn [andThen].
      destruct (String_ptr_length_spec None 0%Z m)
        as (s & m' & ? & ? & Hl & Ht & _); [unfold INT_MAX; lia|done|].
      exists s, m'. split_and!; try done.
      unfold contents. destruct Ht as (buf & -> & _ & _).
      by rewrite Hl.
  - intros v [Hlen Hv]. unfold String_Utf8Value.
    destruct (decide (0 < length_ v)%Z) as [Hpos|Hz].
    + destruct (Hv Hpos) as [_ Hr].
      destruct (String_ptr_length_spec (star v) (length_ v) m Hlen Hr)
        as (s & m' & ? & ? & ? & ? & _). by exists s, m'.
    + destruct (String_ptr_length_spec None (length_ v) m Hlen I)
        as (s & m' & ? & ? & ? & ? & _). by exists s, m'.
  - intros str Hmax (buf & Hb & Hl & Hnul). unfold String_copy.
    assert (Hlen : (0 ≤ _length str < INT_MAX)%Z).
    { apply lookup_lt_Some in Hnul. unfold cell in *. lia. }
    destruct (String_ptr_length_spec (Some (_value str)) (_length str) m Hlen)
      as (s & m' & Heq & [Hf [b' ->]] & Hls & Ht & Hc).
    { exists buf. split; [done|lia]. }
    assert (Hne : _value s ≠ _value str).
    { intros E. apply Hf. rewrite E. apply elem_of_dom. by eexists. }
    exists s, (<[_value s := b']> m). split_and!; try done.
    + split; [done|by eexists].
    + by rewrite lookup_insert_ne.
    + destruct (decide (0 < _length str)%Z) as [Hpos|Hz].
      * rewrite (Hc _ eq_refl Hpos). unfold contents. by rewrite Hb.
      * unfold contents. rewrite Hb, lookup_insert_eq. cbn.
        rewrite Hls. by replace (Z.to_nat (_length str)) with O by lia.
Qed.

Lemma String_constructors_witness :
  let m : Memory := {[ 1%positive := [Some x68; Some x69; Some nul] ]} in
  let str := {| _value := 1%positive; _length := 2%Z |} in
  (∃ s m', String_ptr_length (Some 1%positive) 2%Z m = Finished s m'
           ∧ freshly_allocated s m m' ∧ _length s = 2%Z ∧ terminated s m')
  ∧ (∃ s m', String_ptr None m = Finished s m'
             ∧ freshly_allocated s m m' ∧ terminated s m'
             ∧ _length s = 0%Z ∧ contents s m' = Some [])
  ∧ (∃ s m', String_Utf8Value {| star := Some 1%positive; length_ := 2%Z |} m
             = Finished s m'
             ∧ freshly_allocated s m m' ∧ _length s = 2%Z ∧ terminated s m')
  ∧ (∃ s m', String_copy str m = Finished s m'
             ∧ freshly_allocated s m m' ∧ terminated s m'
             ∧ _value s ≠ _value str
             ∧ m' !! _value str = m !! _value str
             ∧ _length s = _length str
             ∧ contents s m' = contents str m).
Proof.
  intros m str.
  assert (Hbuf : m !! 1%positive = Some [Some x68; Some x69; Some nul])
    by reflexivity.
  destruct (String_constructors_fresh_and_terminated m)
    as (Hlength & Hptr & Hutf8 & Hcopy).
  split_and!.
  - apply (Hlength (Some 1%positive) 2%Z); [unfold INT_MAX; lia|].
    eexists. split; [exact Hbuf|cbn; lia].
  - destruct (Hptr None I) as (s & m' & E & Hf & Ht & Hn).
    exists s, m'. split_and!; try done; by apply Hn.
  - apply (Hutf8 {| star := Some 1%positive; length_ := 2%Z |}).
    split; [cbn; unfold INT_MAX; lia|]. intros _. split; [by eexists|].
    eexists. split; [exact Hbuf|cbn; lia].
  - apply (Hcopy str); [cbn; unfold INT_MAX; lia|].
    eexists. split; [exact Hbuf|]. split; [cbn; lia|reflexivity].
Defined.

End StringStorageFacts.

(** The characters a [String] built from a [Utf8Value] holds in memory
    are those the value model keeps for it. *)
Lemma String_of_Utf8Value_in_memory u v m :
  holds_utf8 u v m → (v8.length u < INT_MAX)%Z →
  ∃ s m', StringStorage.String_Utf8Value v m = StringStorage.Finished s m'
          ∧ StringStorage.contents s m' = Some (Some <$> String_of_Utf8Value u).
Proof.
  intros [Hlen Hu] Hmax. unfold StringStorage.String_Utf8Value.
  assert (H0 : (0 ≤ v8.length u)%Z) by (destruct u; cbn; lia).
  destruct (decide (0 < StringStorage.length_ v)%Z) as [Hpos|Hz].
  - destruct u as [bs|]; [|cbn in Hlen; lia].
    destruct Hu as (q & buf & Hq & Hb & Htake). rewrite Hq, Hlen.
    destruct (StringStorageFacts.String_ptr_length_spec (Some q)
                (v8.length (Some bs)) m)
      as (s & m' & E & _ & _ & _ & Hc); [lia| |].
    { exists buf. split; [done|]. cbn.
      pose proof (f_equal length Htake) as Hl.
      rewrite length_take, length_fmap in Hl.
      unfold StringStorage.cell in *. lia. }
    exists s, m'. split; [done|].
    rewrite (Hc q eq_refl) by lia.
    replace (default [] (m !! q)) with buf by (by rewrite Hb).
    cbn. f_equal. rewrite Nat2Z.id.
    etrans; [exact Htake|].
    destruct (decide _) as [|Hn]; [done|]. by destruct bs.
  - destruct (StringStorageFacts.String_ptr_length_spec None
                (StringStorage.length_ v) m)
      as (s & m' & E & _ & Hl & Ht & _); [lia|done|].
    exists s, m'. split; [done|].
    assert (Hzero : StringStorage.length_ v = 0%Z) by lia.
    unfold StringStorage.contents. destruct Ht as (buf & -> & _ & _).
    rewrite Hl, Hzero. cbn. f_equal.
    unfold String_of_Utf8Value. destruct u as [bs|]; [|done].
    destruct (decide _) as [Hp|]; [|done]. rewrite <- Hlen in Hp. lia.
Qed.

(* ================================================================== *)
(** ** The monad *)

Lemma bind_Returns {A B} (m : M A) (k : A → M B) w a w' :
  m w = (Returns a, w') → bind m k w = k a w'.
Proof. intros H. unfold bind. by rewrite H. Qed.

Lemma bind_Throws {A B} (m : M A) (k : A → M B) w e w' :
  m w = (Throws e, w') → bind m k w = (Throws e, w').
Proof. intros H. unfold bind. by rewrite H. Qed.

Lemma bind_Undefined {A B} (m : M A) (k : A → M B) w w' :
  m w = (Undefined, w') → bind m k w = (Undefined, w').
Proof. intros H. unfold bind. by rewrite H. Qed.

(* ================================================================== *)
(** ** [UniqueValueVector] *)

Lemma moved_out_length indices vs :
  length (moved_out indices vs) = length vs.
Proof.
  revert vs. induction indices as [|j js IH]; intros vs; cbn; [done|].
  unfold moved_out in IH. by rewrite IH, length_insert.
Qed.

Lemma moved_out_lookup_other indices vs (i : nat) :
  Z.of_nat i ∉ indices → Forall (λ j, 0 ≤ j)%Z indices →
  moved_out indices vs !! i = vs !! i.
Proof.
  revert vs. induction indices as [|j js IH]; intros vs Hi Hpos; cbn; [done|].
  apply not_elem_of_cons in Hi as [Hne Hi].
  apply Forall_cons in Hpos as [Hj Hpos].
  unfold moved_out in IH. rewrite IH by done.
  apply list_lookup_insert_ne. lia.
Qed.

Lemma moved_out_lookup_taken indices vs (i : nat) :
  Z.of_nat i ∈ indices → Forall (λ j, 0 ≤ j)%Z indices →
  (i < length vs)%nat →
  moved_out indices vs !! i = Some None.
Proof.
  revert vs. induction indices as [|j js IH]; intros vs Hi Hpos Hlt; cbn.
  - by apply elem_of_nil in Hi.
  - apply Forall_cons in Hpos as [Hj Hpos].
    destruct (decide (Z.of_nat i ∈ js)) as [Hin|Hnin].
    + unfold moved_out in IH. apply IH; [done|done|].
      by rewrite length_insert.
    + apply elem_of_cons in Hi as [Hi|Hi]; [|done]. subst j.
      pose proof (moved_out_lookup_other js
                    (<[Z.to_nat (Z.of_nat i) := None]> vs) i Hnin Hpos) as E.
      unfold moved_out in E. rewrite E, Nat2Z.id.
      by apply list_lookup_insert_eq.
Qed.

Lemma UniqueValueVector_Get_eq this w vs index :
  vectors w !! _values this = Some vs → in_range vs index →
  UniqueValueVector_Get this index w
  = (Returns (default None (vs !! Z.to_nat index)),
     set_vectors (<[_values this := <[Z.to_nat index := None]> vs]>) w).
Proof.
  intros Hv [H0 Hlt]. unfold UniqueValueVector_Get. rewrite Hv.
  destruct (decide _) as [_|?]; [|lia].
  destruct (lookup_lt_is_Some_2 vs (Z.to_nat index)) as [x Hx]; [lia|].
  by rewrite Hx.
Qed.

Lemma take_each_eq this indices : ∀ w vs,
  vectors w !! _values this = Some vs → Forall (in_range vs) indices →
  take_each this indices w
  = (Returns tt, set_vectors (<[_values this := moved_out indices vs]>) w).
Proof.
  induction indices as [|j js IH]; intros w vs Hv Hr.
  - cbn. unfold ret. f_equal. destruct w. unfold set_vectors. cbn in *.
    f_equal. symmetry. by apply insert_id.
  - apply Forall_cons in Hr as [Hj Hr].
    unfold take_each. cbn [for_each].
    erewrite bind_Returns; last first.
    { erewrite bind_Returns; [reflexivity|].
      by apply UniqueValueVector_Get_eq. }
    fold (take_each this js).
    erewrite IH; last first.
    { eapply Forall_impl; [exact Hr|]. intros k. unfold in_range.
      by rewrite length_insert. }
    { cbn. apply lookup_insert_eq. }
    f_equal. unfold set_vectors. cbn. f_equal.
    by rewrite insert_insert_eq.
Qed.

Lemma in_range_same_length vs vs' indices :
  length vs' = length vs →
  Forall (in_range vs) indices → Forall (in_range vs') indices.
Proof.
  intros Hl H. eapply Forall_impl; [exact H|].
  intros k. unfold in_range. by rewrite Hl.
Qed.

Lemma in_range_nonneg vs indices :
  Forall (in_range vs) indices → Forall (λ j, 0 ≤ j)%Z indices.
Proof. intros H. eapply Forall_impl; [exact H|]. by intros k [? _]. Qed.

(** C9.  In a [UniqueValueVector] over the vector [vs], whatever other
    in-range indices were taken before, the first take of an in-range
    index [i] returns the element [vs] held at [i]; and once [i] has been
    taken, every later take of [i] returns an absent value, whatever was
    taken before or in between. *)
Theorem UniqueValueVector_take_once
  (this : UniqueValueVector) (w : World) (vs : list (option ptr))
  (i : nat) (x : option ptr) :
  vectors w !! _values this = Some vs →
  vs !! i = Some x →
  (∀ js, Forall (in_range vs) js → Z.of_nat i ∉ js →
     fst ((take_each this js >>
           UniqueValueVector_Get this (Z.of_nat i)) w) = Returns x)
  ∧ (∀ js ks, Forall (in_range vs) js → Forall (in_range vs) ks →
       fst ((take_each this js >>
             (UniqueValueVector_Get this (Z.of_nat i) >>
              (take_each this ks >>
               UniqueValueVector_Get this (Z.of_nat i)))) w) = Returns None).
Proof.
  intros Hv Hx.
  assert (Hlt : (i < length vs)%nat) by (by eapply lookup_lt_Some).
  assert (Hget : ∀ w' v, vectors w' !! _values this = Some v →
                 length v = length vs →
                 UniqueValueVector_Get this (Z.of_nat i) w'
                 = (Returns (default None (v !! i)),
                    set_vectors (<[_values this := <[i := None]> v]>) w')).
  { intros w' v Hv' Hl.
    rewrite (UniqueValueVector_Get_eq this w' v (Z.of_nat i) Hv').
    - by rewrite Nat2Z.id.
    - unfold in_range. lia. }
  split.
  - intros js Hjs Hi.
    erewrite bind_Returns by (by apply take_each_eq).
    erewrite Hget; [|cbn; apply lookup_insert_eq|apply moved_out_length].
    cbn. rewrite moved_out_lookup_other; [by rewrite Hx|done|].
    by eapply in_range_nonneg.
  - intros js ks Hjs Hks.
    erewrite bind_Returns by (by apply take_each_eq).
    erewrite bind_Returns;
      [|apply Hget; [cbn; apply lookup_insert_eq|apply moved_out_length]].
    set (v1 := <[i := None]> (moved_out js vs)).
    assert (Hl1 : length v1 = length vs).
    { unfold v1. by rewrite length_insert, moved_out_length. }
    erewrite bind_Returns; last first.
    { apply (take_each_eq _ _ _ v1).
      - cbn. apply lookup_insert_eq.
      - by eapply in_range_same_length. }
    erewrite Hget;
      [|cbn; apply lookup_insert_eq|by rewrite moved_out_length].
    cbn. destruct (decide (Z.of_nat i ∈ ks)) as [Hin|Hnin].
    + rewrite moved_out_lookup_taken; [done|done| |lia].
      by eapply in_range_nonneg.
    + rewrite moved_out_lookup_other; [|done|by eapply in_range_nonneg].
      unfold v1. rewrite list_lookup_insert_eq; [done|].
      rewrite moved_out_length. lia.
Qed.

Lemma UniqueValueVector_take_once_witness :
  let this := {| _values := 1%positive |} in
  let vs := [Some 5%positive; None; Some 7%positive] in
  let w := set_vectors (<[1%positive := vs]>) World_init in
  fst ((take_each this [2%Z] >> UniqueValueVector_Get this 0%Z) w)
  = Returns (Some 5%positive)
  ∧ fst ((take_each this [0%Z] >>
          (UniqueValueVector_Get this 0%Z >>
           (take_each this [2%Z; 1%Z] >> UniqueValueVector_Get this 0%Z))) w)
    = Returns None.
Proof.
  intros this vs w.
  destruct (UniqueValueVector_take_once this w vs 0 (Some 5%positive))
    as [H1 H2]; [reflexivity|reflexivity|].
  split.
  - apply (H1 [2%Z]).
    + repeat constructor; unfold in_range; cbn; lia.
    + intros H. apply list_elem_of_In in H. cbn in H. lia.
  - apply (H2 [0%Z] [2%Z; 1%Z]);
      repeat constructor; unfold in_range; cbn; lia.
Defined.

(* ================================================================== *)
(** ** [Wrap] *)

Lemma globalContext_live w :
  Context_is_live w → ∃ ctx, globalContext w = (Returns ctx, w).
Proof.
  intros (c & ctx & Hg & Hc). exists ctx. unfold globalContext.
  by rewrite Hg, Hc.
Qed.

Lemma globalContext_inv w r w' :
  globalContext w = (Returns r, w') → Context_is_live w ∧ w' = w.
Proof.
  unfold globalContext, Context_is_live.
  destruct (_globalContext w) as [c|]; [|done].
  destruct (contexts w !! c) as [ctx|] eqn:E; [|done].
  intros [= <- <-]. split; [|done]. by exists c, ctx.
Qed.

Lemma CurrentContext_Returns w r w' :
  CurrentContext w = (Returns r, w') → Context_is_live w ∧ w' = w.
Proof.
  unfold CurrentContext, bind, ret.
  destruct (globalContext w) as [[ctx| |] w1] eqn:E; try done.
  intros [= <- <-]. by apply globalContext_inv in E.
Qed.

Lemma CurrentContext_live w :
  Context_is_live w → ∃ h, CurrentContext w = (Returns h, w).
Proof.
  intros H. destruct (globalContext_live w H) as [ctx E].
  exists (_context ctx). unfold CurrentContext, bind. by rewrite E.
Qed.

Lemma CurrentIsolate_live w :
  Context_is_live w → ∃ h, CurrentIsolate w = (Returns h, w).
Proof.
  intros H. destruct (globalContext_live w H) as [ctx E].
  exists (_isolate ctx). unfold CurrentIsolate, bind. by rewrite E.
Qed.

Lemma convert_and_new_Returns {A} c (a : v8.Maybe A) mk w r w' :
  convert_and_new c a mk w = (Returns r, w') →
  ∃ p x, r = Some p ∧ v8.just a = Some x ∧ values w' !! p = Some (mk x)
         ∧ p ∉ dom (values w).
Proof.
  unfold convert_and_new, call, FromJust, Throw, bind, modify, gets, ret,
    new, throw, undefined.
  cbn.
  destruct (v8.HasCaught _ || negb (bool_decide (is_Some (v8.just a)))) eqn:E.
  - destruct (CurrentContext _) as [[?| |] ?]; try done.
    destruct (CurrentIsolate _) as [[?| |] ?]; done.
  - destruct (v8.just a) as [x|] eqn:Ea; [|done].
    intros [= <- <-]. eexists _, x. split; [done|]. split; [done|].
    cbn. split; [apply lookup_insert_eq|].
    destruct (v8.caught a); apply is_fresh.
Qed.

Lemma convert_and_new_ok {A} c (a : v8.Maybe A) mk w x :
  v8.just a = Some x → v8.caught a = None →
  v8.HasCaught (region w) = false →
  ∃ p w', convert_and_new c a mk w = (Returns (Some p), w')
          ∧ values w' !! p = Some (mk x).
Proof.
  intros Hj Hc Hr.
  unfold convert_and_new, call, FromJust, Throw, bind, modify, gets, ret,
    new, throw, undefined.
  cbn. rewrite Hc, Hj. cbn. rewrite Hr. cbn.
  eexists _, _. split; [reflexivity|]. cbn. apply lookup_insert_eq.
Qed.

Ltac wrap_branch mk :=
  let H := fresh "H" in
  intros H; apply (convert_and_new_Returns _ _ mk) in H;
  destruct H as (p & x & -> & _ & Hp & _); cbn; by rewrite Hp.

Lemma Wrap_tag v w r w' :
  Wrap v w = (Returns r, w') → tag_of w' r = category v.
Proof.
  unfold Wrap, category, precedence. cbn [List.find fst snd].
  unfold bind at 1.
  destruct (CurrentContext w) as [[h| |] w1] eqn:E; try done. clear E.
  destruct (v8.IsInt32 v); [wrap_branch Int|].
  destruct (v8.IsNumber v || v8.IsNumberObject v); [wrap_branch Double|].
  destruct (v8.IsBoolean v || v8.IsBooleanObject v); [wrap_branch Bool|].
  destruct (v8.IsString v || v8.IsStringObject v).
  { wrap_branch (λ str : v8.String, String (String_of_Utf8Value (Some str))). }
  destruct (v8.IsArray v); [wrap_branch Array|].
  destruct (v8.IsFunction v); [wrap_branch Function|].
  destruct (v8.IsObject v); [wrap_branch Object|].
  destruct (v8.IsUndefined v || v8.IsNull v); [|done].
  by intros [= <- <-].
Qed.

Ltac wrap_branch_ok c mk Hj Hc Hr :=
  destruct Hj as [x Hj];
  let Eq := fresh "Eq" in
  destruct (convert_and_new_ok c _ mk _ x Hj Hc Hr) as (p & w' & Eq & _);
  exists (Some p), w'; exact Eq.

Lemma Wrap_progress v w :
  Context_is_live w → converts v → v8.HasCaught (region w) = false →
  match category v with
  | Some _ => ∃ r w', Wrap v w = (Returns r, w')
  | None =>
      Wrap v w = (Throws (runtime_error "Unhandled type in V8Simple"), w)
  end.
Proof.
  intros Hlive ([Hi1 Hi2] & [Hn1 Hn2] & [Hb1 Hb2] & [Hs1 Hs2] & [Ho1 Ho2]) Hr.
  destruct (CurrentContext_live w Hlive) as [h E].
  unfold Wrap, category, precedence. cbn [List.find fst snd].
  rewrite !(bind_Returns CurrentContext _ w h w E).
  destruct (v8.IsInt32 v); [cbn; wrap_branch_ok call_Int32Value Int Hi1 Hi2 Hr|].
  destruct (v8.IsNumber v || v8.IsNumberObject v);
    [cbn; wrap_branch_ok call_NumberValue Double Hn1 Hn2 Hr|].
  destruct (v8.IsBoolean v || v8.IsBooleanObject v);
    [cbn; wrap_branch_ok call_BooleanValue Bool Hb1 Hb2 Hr|].
  destruct (v8.IsString v || v8.IsStringObject v).
  { cbn.
    wrap_branch_ok call_ToString
      (λ str : v8.String, String (String_of_Utf8Value (Some str)))
      Hs1 Hs2 Hr. }
  destruct (v8.IsArray v); [cbn; wrap_branch_ok call_ToObject Array Ho1 Ho2 Hr|].
  destruct (v8.IsFunction v); [cbn; wrap_branch_ok call_ToObject Function Ho1 Ho2 Hr|].
  destruct (v8.IsObject v); [cbn; wrap_branch_ok call_ToObject Object Ho1 Ho2 Hr|].
  destruct (v8.IsUndefined v || v8.IsNull v); cbn; [|done].
  by eexists _, _.
Qed.

Lemma category_same v1 v2 : same_category v1 v2 → category v1 = category v2.
Proof.
  intros (H1 & H2 & H3 & H4 & H5 & H6 & H7 & H8 & H9 & H10 & H11 & H12).
  unfold category, precedence. cbn [List.find fst snd].
  by rewrite H1, H2, H3, H4, H5, H6, H7, H8, H9, H10, H11, H12.
Qed.

Lemma category_boxed_number v :
  v8.consistent v = true → v8.IsNumberObject v = true →
  v8.IsObject v = true → category v = Some (Some Type_Double).
Proof.
  unfold v8.consistent, category, precedence. cbn [List.find fst snd].
  intros Hc Hn Ho.
  repeat (let H := fresh "Hc" in apply andb_prop in Hc as [Hc H]).
  rewrite Hn, Ho in *.
  by destruct (v8.IsInt32 v), (v8.IsNumber v).
Qed.

(** C1.  [Wrap] dispatches in the precedence Int32, numeric (boxed
    included), boolean (boxed included), string (boxed included), array,
    function, object, null/undefined: whatever [Wrap] returns carries the
    tag of the first category of that list the native value falls in;
    when the conversions succeed and no fault is pending it does return
    (and faults on a value of no category); a boxed number, which is also
    an object, wraps to [Double]; and two native values of the same
    category never wrap to different tags. *)
Theorem Wrap_precedence :
  (∀ v w r w', Wrap v w = (Returns r, w') → tag_of w' r = category v)
  ∧ (∀ v w,
       Context_is_live w → converts v → v8.HasCaught (region w) = false →
       match category v with
       | Some _ => ∃ r w', Wrap v w = (Returns r, w')
       | None =>
           Wrap v w
           = (Throws (runtime_error "Unhandled type in V8Simple"), w)
       end)
  ∧ (∀ v w r w',
       v8.consistent v = true → v8.IsNumberObject v = true →
       v8.IsObject v = true →
       Wrap v w = (Returns r, w') →
       tag_of w' r = Some (Some Type_Double)
       ∧ tag_of w' r ≠ Some (Some Type_Object))
  ∧ (∀ v1 v2 w1 w2 r1 r2 w1' w2',
       same_category v1 v2 →
       Wrap v1 w1 = (Returns r1, w1') → Wrap v2 w2 = (Returns r2, w2') →
       tag_of w1' r1 = tag_of w2' r2).
Proof.
  split_and!.
  - apply Wrap_tag.
  - apply Wrap_progress.
  - intros v w r w' Hc Hn Ho HW. apply Wrap_tag in HW. rewrite HW.
    rewrite (category_boxed_number v Hc Hn Ho). by split.
  - intros v1 v2 w1 w2 r1 r2 w1' w2' Hs H1 H2.
    apply Wrap_tag in H1, H2. rewrite H1, H2. by apply category_same.
Qed.

Lemma World_live_is_live : Context_is_live World_live.
Proof. exists 1%positive, Context_live. split; reflexivity. Defined.

Lemma Wrap_precedence_witness :
  let boxed := v8.NumberObject 7%positive 5%Z (v8.Just 4617315517961601024%Z)
                 (v8.Just [x35]) in
  ∃ r w', Wrap boxed World_live = (Returns r, w')
          ∧ tag_of w' r = Some (Some Type_Double)
          ∧ tag_of w' r ≠ Some (Some Type_Object).
Proof.
  intros boxed.
  destruct Wrap_precedence as (_ & Hreturns & Hboxed & _).
  destruct (Hreturns boxed World_live) as (r & w' & E).
  - exact World_live_is_live.
  - unfold converts, boxed; cbn. repeat split; by eexists.
  - reflexivity.
  - exists r, w'. split; [exact E|].
    apply (Hboxed boxed World_live r w'); try reflexivity. exact E.
Defined.

(** C8.  On a native value that is [null] or [undefined], [Wrap] returns
    an absent value and leaves the world as it was: no [Value] is
    allocated, nothing is thrown, no handler is called, whatever the
    capture region holds. *)
Theorem Wrap_null_undefined (v : v8.Value) (w : World) :
  v8.consistent v = true →
  v8.IsUndefined v || v8.IsNull v = true →
  Context_is_live w →
  Wrap v w = (Returns None, w).
Proof.
  intros Hc Hn Hlive.
  destruct (CurrentContext_live w Hlive) as [h E].
  unfold Wrap. rewrite (bind_Returns CurrentContext _ w h w E).
  unfold v8.consistent in Hc.
  repeat (let H := fresh "Hc" in apply andb_prop in Hc as [Hc H]).
  rewrite Hn in *. cbn in *.
  destruct (v8.IsInt32 v), (v8.IsNumber v), (v8.IsBoolean v),
    (v8.IsString v), (v8.IsObject v); cbn in *; try done.
  destruct (v8.IsNumberObject v), (v8.IsBooleanObject v),
    (v8.IsStringObject v), (v8.IsArray v), (v8.IsFunction v);
    cbn in *; try done.
  all: repeat match goal with
       | H : context [_ || true] |- _ => rewrite orb_true_r in H
       end; cbn in *; done.
Qed.

Lemma Wrap_null_undefined_witness :
  Wrap v8.null World_live = (Returns None, World_live)
  ∧ Wrap v8.undefined World_live = (Returns None, World_live).
Proof.
  split.
  - apply (Wrap_null_undefined v8.null World_live);
      [reflexivity|reflexivity|exact World_live_is_live].
  - apply (Wrap_null_undefined v8.undefined World_live);
      [reflexivity|reflexivity|exact World_live_is_live].
Defined.

(* ================================================================== *)
(** ** The exception translator *)

Lemma String_of_Utf8Value_Some s : String_of_Utf8Value (Some s) = s.
Proof.
  unfold String_of_Utf8Value. destruct (decide _) as [|Hn]; [done|].
  cbn in Hn. by destruct s.
Qed.

Lemma Throw_eq w :
  Context_is_live w →
  Throw w = (Throws (throw_ScriptException (translate (region w))), w).
Proof.
  intros Hlive.
  destruct (CurrentContext_live w Hlive) as [h E].
  destruct (CurrentIsolate_live w Hlive) as [i Ei].
  unfold Throw.
  by rewrite (bind_Returns _ _ _ _ _ E), (bind_Returns _ _ _ _ _ Ei).
Qed.




(* ================================================================== *)
(** ** The callback bridge: retain and release *)

Lemma Unwrap_Callback_cases engine cb w :
  Context_is_live w →
  let ext := fresh (dom (externals w)) in
  let f := fresh (dom (functions w)) in
  ∃ r w', Unwrap_Callback engine cb w = (r, w')
    ∧ retainCount w' = <[cb := (retains w cb + 1)%Z]> (retainCount w)
    ∧ externals w' = <[ext := cb]> (externals w)
    ∧ values w' = values w ∧ vectors w' = vectors w
    ∧ _globalContext w' = _globalContext w ∧ contexts w' = contexts w
    ∧ ((r = Returns (v8.LocalFunction f)
        ∧ functions w' = <[f := ext]> (functions w))
       ∨ ((∃ e, r = Throws (throw_ScriptException e))
          ∧ (functions w' = functions w
             ∨ functions w' = <[f := ext]> (functions w)))).
Proof.
  intros (c & ctx & Hg & Hc) ext f.
  unfold Unwrap_Callback, Retain, call, FromJust, Throw, CurrentContext,
    CurrentIsolate, globalContext, bind, modify, gets, ret, throw, undefined.
  cbn. rewrite Hg, Hc. cbn.
  destruct (v8.just (v8.Function_New engine)) as [[]|],
    (v8.caught (v8.Function_New engine)) as [tc|]; cbn;
    rewrite ?orb_true_r;
    [destruct (v8.HasCaught tc)|destruct (v8.HasCaught (region w))| |];
    repeat (progress (rewrite ?Hg, ?Hc; cbn));
    eexists _, _; (split; [reflexivity|]); cbn; split_and!; try done;
    first [ by left
          | right; split; [by eexists|]; first [by left|by right] ].
Qed.

Lemma Unwrap_Callback_eq engine cb prog w :
  Context_is_live w → values w !! cb = Some (Callback prog) →
  Unwrap engine (Some cb) w = Unwrap_Callback engine cb w.
Proof.
  intros Hlive Hv. destruct (CurrentIsolate_live w Hlive) as [i Ei].
  unfold Unwrap. rewrite (bind_Returns _ _ _ _ _ Ei).
  unfold bind at 1, deref. by rewrite Hv.
Qed.

Lemma collect_fires f ext p w :
  functions w !! f = Some ext → externals w !! ext = Some p →
  collect f w
  = set_retainCount (<[p := (retains w p - 1)%Z]>)
      (set_externals (delete ext) (set_functions (delete f) w)).
Proof. intros Hf He. unfold collect. rewrite Hf. cbn. by rewrite He. Qed.

Lemma collect_gone f w : functions w !! f = None → collect f w = w.
Proof. intros Hf. unfold collect. by rewrite Hf. Qed.

Lemma collect_orphan f ext w :
  functions w !! f = Some ext → externals w !! ext = None →
  collect f w = set_functions (delete f) w.
Proof. intros Hf He. unfold collect. rewrite Hf. cbn. by rewrite He. Qed.

Section TwoFunctions.

Variables (cb : ptr) (f1 f2 e1 e2 : handle).
Hypothesis functions_distinct : f1 ≠ f2.
Hypothesis externals_distinct : e1 ≠ e2.

Lemma two_functions_collect d1 d2 f w :
  two_functions cb f1 f2 e1 e2 d1 d2 w →
  two_functions cb f1 f2 e1 e2 (d1 || bool_decide (f = f1)) (d2 || bool_decide (f = f2))
    (collect f w).
Proof.
  intros (H1 & H2 & Ho & Hr).
  destruct (decide (f = f1)) as [->|Hn1].
  - rewrite bool_decide_eq_true_2 by done.
    rewrite (bool_decide_eq_false_2 (f1 = f2)) by done.
    rewrite orb_true_r, orb_false_r.
    destruct d1.
    + rewrite collect_gone by done. by split_and!.
    + destruct H1 as [Hf He]. rewrite (collect_fires _ _ _ _ Hf He).
      unfold two_functions, retains. cbn. split_and!.
      * apply lookup_delete_eq.
      * destruct d2; rewrite lookup_delete_ne by done; [done|].
        destruct H2 as [Hf2 He2]. split; [done|].
        by rewrite lookup_delete_ne.
      * intros f ext Hf1 Hf2. rewrite lookup_delete_ne by done. intros Hfe.
        destruct (Ho f ext Hf1 Hf2 Hfe) as (? & ? & ?). split_and!; try done.
        by rewrite lookup_delete_ne.
      * rewrite lookup_insert_eq. cbn. unfold retains in Hr. lia.
  - rewrite (bool_decide_eq_false_2 (f = f1)) by done. rewrite orb_false_r.
    destruct (decide (f = f2)) as [->|Hn2].
    + rewrite bool_decide_eq_true_2 by done. rewrite orb_true_r.
      destruct d2.
      * rewrite collect_gone by done. by split_and!.
      * destruct H2 as [Hf He]. rewrite (collect_fires _ _ _ _ Hf He).
        unfold two_functions, retains. cbn. split_and!.
        -- destruct d1; rewrite lookup_delete_ne by done; [done|].
           destruct H1 as [Hf1 He1]. split; [done|].
           by rewrite lookup_delete_ne.
        -- apply lookup_delete_eq.
        -- intros f ext Hf1 Hf2. rewrite lookup_delete_ne by done. intros Hfe.
           destruct (Ho f ext Hf1 Hf2 Hfe) as (? & ? & ?).
           split_and!; try done. by rewrite lookup_delete_ne.
        -- rewrite lookup_insert_eq. cbn. unfold retains in Hr.
           destruct d1; lia.
    + rewrite (bool_decide_eq_false_2 (f = f2)) by done. rewrite orb_false_r.
      destruct (functions w !! f) as [ext|] eqn:Hf.
      * destruct (Ho f ext Hn1 Hn2 Hf) as (Hx1 & Hx2 & Hcb).
        assert (Hkeep : two_functions cb f1 f2 e1 e2 d1 d2 (set_functions (delete f) w)).
        { unfold two_functions, retains. cbn. split_and!.
          - destruct d1; rewrite lookup_delete_ne by done; done.
          - destruct d2; rewrite lookup_delete_ne by done; done.
          - intros g x Hg1 Hg2 Hgx.
            apply lookup_delete_Some in Hgx as [_ Hgx]. by apply Ho in Hgx.
          - done. }
        destruct (externals w !! ext) as [p|] eqn:He.
        -- rewrite (collect_fires _ _ _ _ Hf He).
           assert (Hp : p ≠ cb) by congruence.
           destruct Hkeep as (K1 & K2 & K3 & K4).
           unfold two_functions, retains in *. cbn in *. split_and!.
           ++ destruct d1; [done|]. destruct K1 as [? ?]. split; [done|].
              by rewrite lookup_delete_ne.
           ++ destruct d2; [done|]. destruct K2 as [? ?]. split; [done|].
              by rewrite lookup_delete_ne.
           ++ intros g x Hg1 Hg2 Hgx.
              destruct (K3 g x Hg1 Hg2 Hgx) as (? & ? & Hne).
              split_and!; try done. intros Hd.
              apply lookup_delete_Some in Hd as [_ Hd]. done.
           ++ by rewrite lookup_insert_ne.
        -- by rewrite (collect_orphan _ _ _ Hf He).
      * rewrite collect_gone by done. by split_and!.
Qed.

Lemma two_functions_collect_all schedule : ∀ d1 d2 w,
  two_functions cb f1 f2 e1 e2 d1 d2 w →
  two_functions cb f1 f2 e1 e2 (d1 || bool_decide (f1 ∈ schedule))
    (d2 || bool_decide (f2 ∈ schedule)) (collect_all schedule w).
Proof.
  induction schedule as [|f fs IH]; intros d1 d2 w H; cbn.
  - rewrite !bool_decide_eq_false_2 by apply not_elem_of_nil.
    by rewrite !orb_false_r.
  - apply (two_functions_collect _ _ f) in H. apply IH in H.
    replace (d1 || bool_decide (f1 ∈ f :: fs))
      with (d1 || bool_decide (f = f1) || bool_decide (f1 ∈ fs)); last first.
    { rewrite <- orb_assoc. f_equal. apply eq_true_iff_eq.
      rewrite orb_true_iff, !bool_decide_eq_true, elem_of_cons.
      split; (intros [?|?]; [by left|by right]). }
    replace (d2 || bool_decide (f2 ∈ f :: fs))
      with (d2 || bool_decide (f = f2) || bool_decide (f2 ∈ fs)); [done|].
    rewrite <- orb_assoc. f_equal. apply eq_true_iff_eq.
    rewrite orb_true_iff, !bool_decide_eq_true, elem_of_cons.
    split; (intros [?|?]; [by left|by right]).
Qed.

End TwoFunctions.

Lemma Unwrap_Callback_Returns engine cb w f w' :
  Context_is_live w →
  Unwrap_Callback engine cb w = (Returns (v8.LocalFunction f), w') →
  f = fresh (dom (functions w))
  ∧ functions w' = <[f := fresh (dom (externals w))]> (functions w)
  ∧ externals w' = <[fresh (dom (externals w)) := cb]> (externals w)
  ∧ retainCount w' = <[cb := (retains w cb + 1)%Z]> (retainCount w)
  ∧ values w' = values w ∧ Context_is_live w'.
Proof.
  intros Hlive E.
  destruct (Unwrap_Callback_cases engine cb w Hlive)
    as (r & w'' & E' & Hrc & Hext & Hval & _ & Hg & Hc & Hcase).
  rewrite E in E'. injection E' as <- <-.
  destruct Hcase as [[[= ->] Hf]|[[e [=]] _]].
  split_and!; try done.
  destruct Hlive as (c & ctx & ? & ?). exists c, ctx. by rewrite Hg, Hc.
Qed.

(** C2.  Each [Unwrap] of a [Callback] raises its retain count by one
    and registers one weak [External] whose parameter is the callback,
    whether or not the native function could then be made; the finalizer
    of a native function of the callback lowers the count by one, once.
    So when a callback with count zero is unwrapped into two native
    functions, the count is two, never drops below zero whatever the
    collector takes and in whatever order, and is zero exactly when both
    functions have been collected. *)
Theorem Callback_retain_release
  (engine : v8.Engine) (w : World) (cb : ptr) (prog : CallProgram) :
  Context_is_live w →
  values w !! cb = Some (Callback prog) →
  (∃ r w', Unwrap engine (Some cb) w = (r, w')
           ∧ retains w' cb = (retains w cb + 1)%Z
           ∧ (∀ p, p ≠ cb → retains w' p = retains w p)
           ∧ externals w !! fresh (dom (externals w)) = None
           ∧ externals w' = <[fresh (dom (externals w)) := cb]> (externals w))
  ∧ (∀ f ext,
       functions w !! f = Some ext → externals w !! ext = Some cb →
       retains (collect f w) cb = (retains w cb - 1)%Z
       ∧ externals (collect f w) !! ext = None
       ∧ functions (collect f w) !! f = None
       ∧ collect f (collect f w) = collect f w)
  ∧ (∀ f1 w1 f2 w2,
       unbridged cb w → retains w cb = 0%Z →
       Unwrap engine (Some cb) w = (Returns (v8.LocalFunction f1), w1) →
       Unwrap engine (Some cb) w1 = (Returns (v8.LocalFunction f2), w2) →
       f1 ≠ f2 ∧ retains w2 cb = 2%Z
       ∧ ∀ schedule,
           retains (collect_all schedule w2) cb
           = (2 - (if bool_decide (f1 ∈ schedule) then 1 else 0)
                - (if bool_decide (f2 ∈ schedule) then 1 else 0))%Z
           ∧ (0 ≤ retains (collect_all schedule w2) cb)%Z
           ∧ (retains (collect_all schedule w2) cb = 0%Z
              ↔ f1 ∈ schedule ∧ f2 ∈ schedule)).
Proof.
  intros Hlive Hv. split_and!.
  - rewrite (Unwrap_Callback_eq engine cb prog w Hlive Hv).
    destruct (Unwrap_Callback_cases engine cb w Hlive)
      as (r & w' & E & Hrc & Hext & _).
    exists r, w'. split; [done|]. unfold retains. rewrite Hrc.
    split_and!.
    + by rewrite lookup_insert_eq.
    + intros p Hp. by rewrite lookup_insert_ne.
    + apply not_elem_of_dom, is_fresh.
    + done.
  - intros f ext Hf He. rewrite (collect_fires _ _ _ _ Hf He).
    split_and!.
    + unfold retains at 1. cbn. by rewrite lookup_insert_eq.
    + cbn. apply lookup_delete_eq.
    + cbn. apply lookup_delete_eq.
    + apply collect_gone. cbn. apply lookup_delete_eq.
  - intros f1 w1 f2 w2 Hun H0 E1 E2.
    rewrite (Unwrap_Callback_eq engine cb prog w Hlive Hv) in E1.
    destruct (Unwrap_Callback_Returns _ _ _ _ _ Hlive E1)
      as (Hf1 & Hfs1 & Hes1 & Hrc1 & Hv1 & Hlive1).
    rewrite (Unwrap_Callback_eq engine cb prog w1 Hlive1) in E2
      by (by rewrite Hv1).
    destruct (Unwrap_Callback_Returns _ _ _ _ _ Hlive1 E2)
      as (Hf2 & Hfs2 & Hes2 & Hrc2 & Hv2 & Hlive2).
    set (e1 := fresh (dom (externals w))) in *.
    set (e2 := fresh (dom (externals w1))) in *.
    assert (Hfn : f1 ≠ f2).
    { intros Heq. pose proof (is_fresh (dom (functions w1))) as Hfr.
      rewrite <- Hf2, <- Heq, Hfs1 in Hfr. apply Hfr.
      apply elem_of_dom. rewrite lookup_insert_eq. by eexists. }
    assert (Hen : e1 ≠ e2).
    { intros Heq. pose proof (is_fresh (dom (externals w1))) as Hfr.
      fold e2 in Hfr. rewrite <- Heq, Hes1 in Hfr. apply Hfr.
      apply elem_of_dom. rewrite lookup_insert_eq. by eexists. }
    assert (Hr2 : retains w2 cb = 2%Z).
    { unfold retains at 1. rewrite Hrc2, lookup_insert_eq. cbn.
      unfold retains at 1. rewrite Hrc1, lookup_insert_eq. cbn. lia. }
    assert (Hinv : two_functions cb f1 f2 e1 e2 false false w2).
    { unfold two_functions. rewrite Hfs2, Hes2, Hfs1, Hes1.
      split; [|split; [|split]].
      - rewrite lookup_insert_ne by done. rewrite lookup_insert_eq.
        split; [done|]. rewrite lookup_insert_ne by done.
        by rewrite lookup_insert_eq.
      - rewrite !lookup_insert_eq. done.
      - intros f ext Hn1 Hn2. rewrite !lookup_insert_ne by done.
        intros Hfe. destruct (Hun f ext Hfe) as (p & Hp & Hpcb).
        assert (ext ≠ e1).
        { intros ->. pose proof (is_fresh (dom (externals w))) as Hfr.
          apply Hfr. apply elem_of_dom. by eexists. }
        assert (ext ≠ e2).
        { intros ->. pose proof (is_fresh (dom (externals w1))) as Hfr.
          apply Hfr. fold e2. rewrite Hes1. apply elem_of_dom.
          rewrite lookup_insert_ne by done. by eexists. }
        split_and!; try done. rewrite !lookup_insert_ne by done.
        rewrite Hp. congruence.
      - by rewrite Hr2. }
    split; [done|]. split; [done|]. intros schedule.
    pose proof (two_functions_collect_all cb f1 f2 e1 e2 Hfn Hen schedule
                  false false w2 Hinv) as (_ & _ & _ & Hcount).
    cbn in Hcount.
    split; [exact Hcount|].
    revert Hcount.
    destruct (bool_decide_reflect (f1 ∈ schedule)),
      (bool_decide_reflect (f2 ∈ schedule)); intros Hcount;
      (split; [lia|]);
      (split; [intros ?; first [done|lia]|intros [? ?]; first [lia|done]]).
Qed.

Lemma Callback_retain_release_witness :
  let cb : ptr := 9%positive in
  let w := set_values (<[cb := Callback (Call_return None)]>) World_live in
  ∃ f1 w1 f2 w2,
    Unwrap engine_ok (Some cb) w = (Returns (v8.LocalFunction f1), w1)
    ∧ Unwrap engine_ok (Some cb) w1 = (Returns (v8.LocalFunction f2), w2)
    ∧ f1 ≠ f2 ∧ retains w2 cb = 2%Z
    ∧ retains (collect_all [f1] w2) cb = 1%Z
    ∧ retains (collect_all [f2; f1; f2] w2) cb = 0%Z.
Proof.
  intros cb w.
  destruct (Callback_retain_release engine_ok w cb (Call_return None))
    as (_ & _ & Htwo); [exact World_live_is_live|reflexivity|].
  pose (w1 := snd (Unwrap engine_ok (Some cb) w)).
  pose (w2 := snd (Unwrap engine_ok (Some cb) w1)).
  destruct (Htwo 1%positive w1 2%positive w2)
    as (Hne & Hcount & Hsched).
  - intros f ext Hf. vm_compute in Hf. discriminate Hf.
  - reflexivity.
  - vm_compute. reflexivity.
  - vm_compute. reflexivity.
  - exists 1%positive, w1, 2%positive, w2.
    split; [vm_compute; reflexivity|].
    split; [vm_compute; reflexivity|].
    split; [exact Hne|]. split; [exact Hcount|].
    split.
    + destruct (Hsched [1%positive]) as (-> & _). reflexivity.
    + destruct (Hsched [2%positive; 1%positive; 2%positive]) as (-> & _).
      reflexivity.
Defined.

(* ================================================================== *)
(** ** The callback bridge: ownership of the arguments *)

Lemma static_cast_int_id z :
  (0 ≤ z ≤ INT_MAX)%Z → static_cast_int z = z.
Proof.
  intros H. unfold static_cast_int, INT_MAX in *.
  rewrite Z.mod_small by lia. lia.
Qed.

Lemma run_Call_eq a prog : ∀ w vs r w1,
  vectors w !! a = Some vs →
  run_Call prog {| _values := a |} w = (Returns r, w1) →
  w1 = set_vectors (<[a := moved_out (taken prog vs) vs]>) w
  ∧ Forall (in_range vs) (taken prog vs).
Proof.
  induction prog as [result|index k IH|k IH]; intros w vs r w1 Hv; cbn.
  - intros [= <- <-]. split; [|constructor].
    destruct w. unfold set_vectors. cbn in *. f_equal.
    symmetry. by apply insert_id.
  - unfold bind, UniqueValueVector_Get. cbn. rewrite Hv.
    destruct (decide (0 ≤ index)%Z) as [H0|H0]; [|done].
    destruct (vs !! Z.to_nat index) as [v|] eqn:Hl; [|done].
    intros Hrun. eapply IH in Hrun as [-> Hall];
      [|cbn; apply lookup_insert_eq].
    split.
    + unfold set_vectors. cbn. f_equal. by rewrite insert_insert_eq.
    + constructor.
      * split; [done|]. apply lookup_lt_Some in Hl. lia.
      * eapply in_range_same_length; [|exact Hall].
        by rewrite length_insert.
  - unfold bind, UniqueValueVector_Length. cbn. rewrite Hv.
    intros Hrun. by eapply IH in Hrun.
Qed.

Lemma deleted_set_vectors f ps : ∀ w,
  deleted ps (set_vectors f w) = set_vectors f (deleted ps w).
Proof.
  induction ps as [|p ps IH]; intros w; cbn; [done|].
  exact (IH (emit (Deleted p) (set_values (delete p) w))).
Qed.

Lemma deleted_trace ps : ∀ w,
  trace (deleted ps w) = trace w ++ (Deleted <$> ps).
Proof.
  induction ps as [|p ps IH]; intros w; cbn.
  - by rewrite app_nil_r.
  - unfold deleted in IH. rewrite IH. cbn. by rewrite <- app_assoc.
Qed.

Lemma deleted_values_out ps p : ∀ w,
  p ∉ ps → values (deleted ps w) !! p = values w !! p.
Proof.
  induction ps as [|q ps IH]; intros w Hp; cbn; [done|].
  apply not_elem_of_cons in Hp as [Hne Hp].
  unfold deleted in IH. rewrite IH by done. cbn.
  by rewrite lookup_delete_ne.
Qed.

Lemma deleted_values_in ps p : ∀ w,
  p ∈ ps → values (deleted ps w) !! p = None.
Proof.
  induction ps as [|q ps IH]; intros w Hp; cbn.
  - by apply elem_of_nil in Hp.
  - destruct (decide (p ∈ ps)) as [Hin|Hnin].
    + unfold deleted in IH. by apply IH.
    + apply elem_of_cons in Hp as [->|Hp]; [|done].
      pose proof (deleted_values_out ps q
                    (emit (Deleted q) (set_values (delete q) w)) Hnin) as E.
      unfold deleted in E. rewrite E. cbn. apply lookup_delete_eq.
Qed.

(** The release loop, from any point of the vector onwards. *)
Lemma release_loop a : ∀ rest pre w,
  vectors w !! a = Some (pre ++ rest) →
  NoDup (owned rest) →
  (∀ p, p ∈ owned rest → is_Some (values w !! p)) →
  for_each (seqZ (Z.of_nat (length pre)) (Z.of_nat (length rest)))
    (λ i, let* p := UniqueValueVector_Get {| _values := a |} i in delete_ p) w
  = (Returns tt,
     set_vectors (<[a := pre ++ replicate (length rest) None]>)
       (deleted (owned rest) w)).
Proof.
  induction rest as [|x rest IH]; intros pre w Hv Hnd Hlive.
  - cbn. unfold ret. f_equal. destruct w. unfold set_vectors. cbn in *.
    f_equal. symmetry. apply insert_id. by rewrite app_nil_r in *.
  - cbn [length]. rewrite Nat2Z.inj_succ, seqZ_cons by lia.
    rewrite Z.pred_succ. cbn [for_each].
    assert (Hx : (pre ++ x :: rest) !! length pre = Some x).
    { by rewrite lookup_app_r, Nat.sub_diag by lia. }
    assert (Hget :
      UniqueValueVector_Get {| _values := a |} (Z.of_nat (length pre)) w
      = (Returns x, set_vectors (<[a := (pre ++ [None]) ++ rest]>) w)).
    { rewrite (UniqueValueVector_Get_eq _ w (pre ++ x :: rest)); [|done|].
      - rewrite Nat2Z.id, Hx. cbn. do 2 f_equal.
        rewrite insert_app_r_alt, Nat.sub_diag by lia. cbn.
        by rewrite <- app_assoc.
      - unfold in_range. rewrite length_app. cbn. lia. }
    set (w1 := set_vectors (<[a := (pre ++ [None]) ++ rest]>) w).
    assert (Hv1 : vectors w1 !! a = Some ((pre ++ [None]) ++ rest)).
    { cbn. apply lookup_insert_eq. }
    assert (Hnext : Z.succ (Z.of_nat (length pre))
                    = Z.of_nat (length (pre ++ [None])))
      by (rewrite length_app; cbn; lia).
    destruct x as [p|].
    + cbn in Hnd, Hlive. apply NoDup_cons in Hnd as [Hp Hnd].
      destruct (Hlive p) as [v Hpv]; [by left|].
      erewrite bind_Returns; last first.
      { erewrite bind_Returns by exact Hget.
        unfold delete_. fold w1.
        replace (values w1 !! p) with (Some v) by (by rewrite <- Hpv).
        reflexivity. }
      rewrite Hnext, IH; [|done|done|].
      * f_equal. cbn [owned omap id]. unfold w1, deleted at 2. cbn [foldl].
        fold (deleted (omap id rest)).
        change (emit (Deleted p)
                  (set_values (delete p)
                     (set_vectors <[a:=(pre ++ [None]) ++ rest]> w)))
          with (set_vectors <[a:=(pre ++ [None]) ++ rest]>
                  (emit (Deleted p) (set_values (delete p) w))).
        rewrite deleted_set_vectors. unfold set_vectors. cbn. f_equal.
        rewrite insert_insert_eq, <- app_assoc. done.
      * intros q Hq. cbn. rewrite lookup_delete_ne; [|by intros ->].
        apply Hlive. by right.
    + cbn in Hnd, Hlive.
      erewrite bind_Returns; last first.
      { erewrite bind_Returns by exact Hget. reflexivity. }
      rewrite Hnext, IH; [|done|done|done].
      f_equal. cbn [owned omap id]. unfold w1.
      rewrite deleted_set_vectors. unfold set_vectors. cbn. f_equal.
      rewrite insert_insert_eq, <- app_assoc. done.
Qed.

Lemma elem_of_owned p vs :
  p ∈ owned vs ↔ ∃ i : nat, vs !! i = Some (Some p).
Proof.
  unfold owned. rewrite list_elem_of_omap. split.
  - intros (x & Hx & Hid). cbn in Hid. subst x.
    by apply list_elem_of_lookup in Hx.
  - intros (i & Hi). exists (Some p). split; [|done].
    apply list_elem_of_lookup. by exists i.
Qed.

Lemma owned_insert_None (j : nat) vs :
  sublist (owned (<[j := None]> vs)) (owned vs).
Proof.
  revert j. induction vs as [|x vs IH]; intros j; cbn; [done|].
  destruct j as [|j]; cbn.
  - destruct x; cbn; [by apply sublist_cons|done].
  - destruct x; cbn; [apply sublist_skip|]; apply IH.
Qed.

Lemma owned_moved_out indices : ∀ vs,
  sublist (owned (moved_out indices vs)) (owned vs).
Proof.
  induction indices as [|j js IH]; intros vs; cbn; [done|].
  etrans; [apply IH|]. apply owned_insert_None.
Qed.

Lemma NoDup_owned_inj vs : ∀ (i j : nat) p,
  NoDup (owned vs) →
  vs !! i = Some (Some p) → vs !! j = Some (Some p) → i = j.
Proof.
  induction vs as [|x vs IH]; intros i j p Hnd Hi Hj; [done|].
  assert (Htail : NoDup (owned vs)).
  { destruct x; cbn in Hnd; [by apply NoDup_cons in Hnd as [_ ?]|done]. }
  assert (Hhead : ∀ k : nat, x = Some p → vs !! k = Some (Some p) → False).
  { intros k -> Hk. cbn in Hnd. apply NoDup_cons in Hnd as [Hp _].
    apply Hp, elem_of_owned. by exists k. }
  destruct i as [|i], j as [|j]; cbn in Hi, Hj.
  - done.
  - injection Hi as Hi. exfalso. by eapply Hhead.
  - injection Hj as Hj. exfalso. by eapply Hhead.
  - f_equal. by eapply IH.
Qed.

(** C3.  A bridged callback is invoked on the wrapped arguments [vs]
    (distinct live objects, absent ones aside) and its call operation
    returns, having taken the indices [taken prog vs].  Then the bridge
    deletes exactly the arguments left in the vector: an argument whose
    index was not taken is deleted, once, and is gone from the heap; an
    argument whose index was taken is not deleted and is in the heap as
    the callback left it. *)
Theorem call_and_release_ownership
  (w : World) (callback wrappedArgs : ptr) (prog : CallProgram)
  (vs : list (option ptr)) (result : option ptr) (w1 : World) :
  values w !! callback = Some (Callback prog) →
  vectors w !! wrappedArgs = Some vs →
  (Z.of_nat (length vs) ≤ INT_MAX)%Z →
  NoDup (owned vs) →
  (∀ p, p ∈ owned vs → is_Some (values w !! p)) →
  Callback_Call callback {| _values := wrappedArgs |} w = (Returns result, w1) →
  let S := taken prog vs in
  let released := owned (moved_out S vs) in
  ∃ w2, call_and_release callback wrappedArgs w = (Returns result, w2)
        ∧ trace w2 = trace w ++ (Deleted <$> released)
        ∧ NoDup released
        ∧ ∀ (i : nat) p,
            vs !! i = Some (Some p) →
            (Z.of_nat i ∉ S → p ∈ released ∧ values w2 !! p = None)
            ∧ (Z.of_nat i ∈ S →
               (p ∉ released) ∧ values w2 !! p = values w !! p).
Proof.
  intros Hcb Hv Hmax Hnd Hlive Hcall S released.
  assert (Hrun : run_Call prog {| _values := wrappedArgs |} w
                 = (Returns result, w1)).
  { revert Hcall. unfold Callback_Call, bind, deref. by rewrite Hcb. }
  destruct (run_Call_eq wrappedArgs prog w vs result w1 Hv Hrun)
    as [Hw1 Hrange].
  fold S in Hw1, Hrange.
  set (us := moved_out S vs) in *.
  assert (Hlen : length us = length vs) by apply moved_out_length.
  assert (Hv1 : vectors w1 !! wrappedArgs = Some ([] ++ us)).
  { rewrite Hw1. cbn. apply lookup_insert_eq. }
  assert (Hnd1 : NoDup (owned us)).
  { eapply sublist_NoDup; [exact Hnd|apply owned_moved_out]. }
  assert (Hlive1 : ∀ p, p ∈ owned us → is_Some (values w1 !! p)).
  { intros p Hp. rewrite Hw1. cbn. apply Hlive.
    eapply elem_of_sublist; [exact Hp|apply owned_moved_out]. }
  pose proof (release_loop wrappedArgs us [] w1 Hv1 Hnd1 Hlive1) as Hloop.
  cbn [length app] in Hloop.
  eexists. split.
  { unfold call_and_release.
    erewrite bind_Returns by exact Hcall.
    erewrite bind_Returns; last first.
    { unfold UniqueValueVector_Length. cbn [_values].
      cbn [app] in Hv1. rewrite Hv1. reflexivity. }
    rewrite Hlen, static_cast_int_id by lia. rewrite <- Hlen.
    erewrite bind_Returns by exact Hloop. reflexivity. }
  cbn [trace values set_vectors].
  split; [by rewrite deleted_trace, Hw1|].
  split; [done|].
  intros i p Hi. split.
  - intros Hnot.
    assert (Hus : us !! i = Some (Some p)).
    { unfold us. rewrite moved_out_lookup_other; [done|done|].
      by eapply in_range_nonneg. }
    assert (Hin : p ∈ released) by (apply elem_of_owned; by exists i).
    split; [done|]. by apply deleted_values_in.
  - intros Hin.
    assert (Hout : p ∉ released).
    { intros Hp. apply elem_of_owned in Hp as (j & Hj).
      assert (Hjlt : (j < length vs)%nat).
      { rewrite <- Hlen. by eapply lookup_lt_Some. }
      destruct (decide (Z.of_nat j ∈ S)) as [HjS|HjS].
      - unfold us in Hj. rewrite moved_out_lookup_taken in Hj;
          [done|done|by eapply in_range_nonneg|done].
      - unfold us in Hj. rewrite moved_out_lookup_other in Hj;
          [|done|by eapply in_range_nonneg].
        assert (i = j) by exact (NoDup_owned_inj vs i j p Hnd Hi Hj).
        by subst j. }
    split; [done|]. rewrite deleted_values_out by done. by rewrite Hw1.
Qed.

Lemma call_and_release_ownership_witness :
  let w := set_vectors (<[1%positive := [Some 4%positive; Some 5%positive;
                                          None]]>)
             (set_values (λ m, <[4%positive := Int 1%Z]>
                                 (<[5%positive := Int 2%Z]> m))
                World_callback) in
  ∃ w2, call_and_release 9%positive 1%positive w
        = (Returns (Some 4%positive), w2)
        ∧ trace w2 = [Deleted 5%positive]
        ∧ values w2 !! 5%positive = None
        ∧ values w2 !! 4%positive = Some (Int 1%Z).
Proof.
  intros w.
  destruct (call_and_release_ownership w 9%positive 1%positive
              (Call_Get 0%Z (λ v, Call_return v))
              [Some 4%positive; Some 5%positive; None] (Some 4%positive)
              (snd (Callback_Call 9%positive {| _values := 1%positive |} w)))
    as (w2 & E & Htrace & _ & Hown).
  - reflexivity.
  - reflexivity.
  - cbn. unfold INT_MAX. lia.
  - apply (bool_decide_unpack _). vm_compute. exact I.
  - intros p Hp. apply list_elem_of_In in Hp. cbn in Hp.
    destruct Hp as [<-|[<-|[]]]; by eexists.
  - vm_compute. reflexivity.
  - exists w2. split; [exact E|]. split; [exact Htrace|]. split.
    + apply (Hown 1%nat 5%positive eq_refl).
      intros Hin. apply list_elem_of_In in Hin. cbn in Hin.
      destruct Hin as [|[]]; lia.
    + destruct (Hown 0%nat 4%positive eq_refl) as [_ Htaken].
      destruct Htaken as [_ Hkept].
      * apply list_elem_of_In. cbn. by left.
      * etrans; [exact Hkept|reflexivity].
Defined.

(* ================================================================== *)
(** ** The [Context] *)

Lemma HandleRuntimeException_eq message w :
  Context_is_live w →
  HandleRuntimeException message w = (Returns tt, reported message w).
Proof.
  intros (c & ctx & Hg & Hc).
  unfold HandleRuntimeException, reported, globalContext, bind, gets, modify,
    ret.
  cbn. repeat (progress (rewrite ?Hg, ?Hc; cbn)).
  by destruct (_runtimeExceptionHandler ctx).
Qed.

Lemma HandleScriptException_eq e w :
  Context_is_live w →
  HandleScriptException e w = (Returns tt, delivered e w).
Proof.
  intros (c & ctx & Hg & Hc).
  unfold HandleScriptException, delivered, globalContext, bind, modify, ret.
  rewrite Hg, Hc. by destruct (_scriptExceptionHandler ctx).
Qed.

Lemma reported_fields message w :
  values (reported message w) = values w
  ∧ vectors (reported message w) = vectors w
  ∧ region (reported message w) = region w
  ∧ externals (reported message w) = externals w
  ∧ functions (reported message w) = functions w
  ∧ retainCount (reported message w) = retainCount w
  ∧ _globalContext (reported message w) = _globalContext w
  ∧ _platform (reported message w) = _platform w
  ∧ contexts (reported message w) = contexts w
  ∧ isolates (reported message w) = isolates w
  ∧ (trace (reported message w) = trace w
     ∨ ∃ h, trace (reported message w)
            = trace w ++ [MessageHandler_Handle h message]).
Proof.
  unfold reported.
  destruct (_globalContext w) as [c|] eqn:Hg; [|split_and!; auto].
  destruct (contexts w !! c) as [ctx|]; [|split_and!; auto].
  destruct (_runtimeExceptionHandler ctx) as [h|]; [|split_and!; auto].
  split_and!; eauto.
Qed.

Ltac still_live H :=
  let c := fresh "c" in
  let ctx := fresh "ctx" in
  let Hg := fresh "Hg" in
  let Hc := fresh "Hc" in
  destruct H as (c & ctx & Hg & Hc); exists c, ctx; split; assumption.

Lemma with_V8Scope_eq {A} (body : M A) w :
  Context_is_live w →
  with_V8Scope body w
  = (fst (body (guarded [] w)), unguarded w (snd (body (guarded [] w)))).
Proof.
  intros Hlive. destruct (globalContext_live w Hlive) as [ctx E].
  unfold with_V8Scope, guarded, unguarded. rewrite E. cbn.
  by destruct (body _).
Qed.

Lemma call_FromJust_Just {A} c (x : A) w :
  v8.HasCaught (region w) = false →
  (let* a := call c (v8.Just x) in FromJust a) w
  = (Returns x, emit (Engine c) w).
Proof.
  intros Hr. unfold call, FromJust, bind, modify, gets, ret. cbn.
  by rewrite Hr.
Qed.

Lemma call_FromJust_faults {A} c (a : v8.Maybe A) w :
  Context_is_live w → region w = v8.TryCatch_new → faults a →
  (let* r := call c a in FromJust r) w
  = (Throws (throw_ScriptException (translate (fault_region a))),
     set_region (fault_region a) (emit (Engine c) w)).
Proof.
  intros Hlive Hr Hf.
  set (w' := emit (Engine c)
               (match v8.caught a with
                | Some tc => set_region tc w
                | None => w
                end)).
  assert (Hlive' : Context_is_live w').
  { unfold w'. destruct (v8.caught a); still_live Hlive. }
  assert (Hregion : region w' = fault_region a).
  { unfold w', fault_region. destruct (v8.caught a); cbn; done. }
  assert (Hw' : w' = set_region (fault_region a) (emit (Engine c) w)).
  { unfold w', fault_region. destruct (v8.caught a); cbn; [done|].
    destruct w. cbn in *. by subst. }
  assert (Hcheck : v8.HasCaught (region w')
                   || negb (bool_decide (is_Some (v8.just a))) = true).
  { rewrite Hregion. destruct Hf as [Hn|(tc & Hc & Ht)].
    - rewrite Hn. rewrite bool_decide_eq_false_2 by (by intros [? ?]).
      apply orb_true_r.
    - unfold fault_region. rewrite Hc. cbn. by rewrite Ht. }
  unfold bind at 1. unfold call at 1, bind at 1, modify, ret. fold w'.
  unfold FromJust, bind, gets. rewrite Hcheck.
  rewrite (Throw_eq w' Hlive'). by rewrite Hregion, Hw'.
Qed.

Lemma bind_assoc {A B C} (m : M A) (f : A → M B) (k : B → M C) w :
  bind (bind m f) k w = bind m (λ x, bind (f x) k) w.
Proof. unfold bind. by destruct (m w) as [[a|e|] w']. Qed.

Lemma ToV8String_Just engine s x w :
  v8.String_NewFromUtf8 engine s = v8.Just x →
  v8.HasCaught (region w) = false →
  ToV8String engine s w = (Returns x, emit (Engine (call_NewFromUtf8 s)) w).
Proof.
  intros E Hr. unfold ToV8String. rewrite E. by apply call_FromJust_Just.
Qed.

Section Evaluate.

Variables (engine : v8.Engine) (w : World).
Variables (fileName code : list byte) (origin source : v8.String).
Hypothesis live : Context_is_live w.
Hypothesis origin_made : v8.String_NewFromUtf8 engine fileName = v8.Just origin.
Hypothesis source_made : v8.String_NewFromUtf8 engine code = v8.Just source.

Let opening : list EngineCall :=
  [call_NewFromUtf8 fileName; call_NewFromUtf8 code;
   call_Compile origin source].

Lemma Evaluate_compile_fault :
  faults (v8.Script_Compile engine origin source) →
  Evaluate engine (Some fileName) (Some code) w
  = (Returns None,
     delivered
       (translate (fault_region (v8.Script_Compile engine origin source)))
       (unguarded w
          (set_region (fault_region (v8.Script_Compile engine origin source))
             (guarded opening w)))).
Proof.
  intros Hf. unfold Evaluate, try_catch.
  rewrite with_V8Scope_eq by done.
  assert (Hlive0 : Context_is_live (guarded [] w)) by still_live live.
  destruct (CurrentContext_live _ Hlive0) as [h Eh].
  erewrite bind_Returns by exact Eh.
  erewrite bind_Returns by (by apply ToV8String_Just).
  erewrite bind_Returns by (by apply ToV8String_Just).
  rewrite <- bind_assoc.
  erewrite bind_Throws; last first.
  { apply call_FromJust_faults; [still_live live|done|done]. }
  cbn [fst snd]. erewrite bind_Returns; [reflexivity|].
  apply HandleScriptException_eq. still_live live.
Qed.

Variable script : v8.Script.
Hypothesis compiled : v8.Script_Compile engine origin source = v8.Just script.

Let calls : list EngineCall := opening ++ [call_Run script].

Lemma Evaluate_run_fault :
  faults (v8.Script_Run engine script) →
  Evaluate engine (Some fileName) (Some code) w
  = (Returns None,
     delivered (translate (fault_region (v8.Script_Run engine script)))
       (unguarded w
          (set_region (fault_region (v8.Script_Run engine script))
             (guarded calls w)))).
Proof.
  intros Hf. unfold Evaluate, try_catch.
  rewrite with_V8Scope_eq by done.
  assert (Hlive0 : Context_is_live (guarded [] w)) by still_live live.
  destruct (CurrentContext_live _ Hlive0) as [h Eh].
  erewrite bind_Returns by exact Eh.
  erewrite bind_Returns by (by apply ToV8String_Just).
  erewrite bind_Returns by (by apply ToV8String_Just).
  rewrite <- bind_assoc. rewrite compiled.
  erewrite bind_Returns by (by apply call_FromJust_Just).
  unfold Wrap_MaybeLocal. rewrite <- bind_assoc.
  erewrite bind_Throws; last first.
  { apply call_FromJust_faults; [still_live live|done|done]. }
  cbn [fst snd]. erewrite bind_Returns; [reflexivity|].
  apply HandleScriptException_eq. still_live live.
Qed.

Lemma Evaluate_wraps v r w1 :
  v8.Script_Run engine script = v8.Just v →
  Wrap v (guarded calls w) = (Returns r, w1) →
  Evaluate engine (Some fileName) (Some code) w = (Returns r, unguarded w w1).
Proof.
  intros Hrun HW. unfold Evaluate, try_catch.
  rewrite with_V8Scope_eq by done.
  assert (Hlive0 : Context_is_live (guarded [] w)) by still_live live.
  destruct (CurrentContext_live _ Hlive0) as [h Eh].
  erewrite bind_Returns by exact Eh.
  erewrite bind_Returns by (by apply ToV8String_Just).
  erewrite bind_Returns by (by apply ToV8String_Just).
  rewrite <- bind_assoc. rewrite compiled.
  erewrite bind_Returns by (by apply call_FromJust_Just).
  unfold Wrap_MaybeLocal. rewrite <- bind_assoc. rewrite Hrun.
  erewrite bind_Returns by (by apply call_FromJust_Just).
  unfold calls, opening, guarded in HW. cbn [foldl app] in HW.
  unfold guarded. cbn [foldl]. by rewrite HW.
Qed.

End Evaluate.

(** C7.  With an absent file name or an absent source, [Evaluate] tells
    the runtime-fault handler, returns an absent value and does nothing
    else: no guard is opened and no engine call is made.  With both
    present it opens a guard, makes the two strings, compiles, runs and
    wraps the result under that guard and closes it; when the compilation
    or the run faults, the guard is closed, the [ScriptException] read off
    the capture region goes to the script-exception handler and the
    caller gets an absent value; otherwise the caller gets what [Wrap]
    made of the script's value. *)
Theorem Evaluate_boundary (engine : v8.Engine) (w : World) :
  Context_is_live w →
  (∀ code,
     Evaluate engine None code w
     = (Returns None,
        reported "V8Simple::Context::Evaluate is not defined for nullptr `fileName` argument" w))
  ∧ (∀ fileName,
       Evaluate engine (Some fileName) None w
       = (Returns None,
          reported "V8Simple::Context::Evaluate is not defined for nullptr `code` argument" w))
  ∧ (∀ fileName code origin source,
       v8.String_NewFromUtf8 engine fileName = v8.Just origin →
       v8.String_NewFromUtf8 engine code = v8.Just source →
       let compile := v8.Script_Compile engine origin source in
       let opening := [call_NewFromUtf8 fileName; call_NewFromUtf8 code;
                       call_Compile origin source] in
       (faults compile →
        Evaluate engine (Some fileName) (Some code) w
        = (Returns None,
           delivered (translate (fault_region compile))
             (unguarded w
                (set_region (fault_region compile) (guarded opening w)))))
       ∧ (∀ script,
            compile = v8.Just script →
            let run := v8.Script_Run engine script in
            let calls := opening ++ [call_Run script] in
            (faults run →
             Evaluate engine (Some fileName) (Some code) w
             = (Returns None,
                delivered (translate (fault_region run))
                  (unguarded w
                     (set_region (fault_region run) (guarded calls w)))))
            ∧ (∀ v r w1,
                 run = v8.Just v →
                 Wrap v (guarded calls w) = (Returns r, w1) →
                 Evaluate engine (Some fileName) (Some code) w
                 = (Returns r, unguarded w w1)
                 ∧ tag_of w1 r = category v))).
Proof.
  intros Hlive. split_and!.
  - intros code. unfold Evaluate.
    erewrite bind_Returns by (by apply HandleRuntimeException_eq). done.
  - intros fileName. unfold Evaluate.
    erewrite bind_Returns by (by apply HandleRuntimeException_eq). done.
  - intros fileName code origin source Ho Hs compile opening. split.
    + by apply Evaluate_compile_fault.
    + intros script Hcompiled run calls. split.
      * by apply Evaluate_run_fault.
      * intros v r w1 Hrun HW. split; [|by apply Wrap_tag in HW].
        by eapply Evaluate_wraps.
Qed.

Lemma Evaluate_boundary_witness :
  let t := bytes "t" in
  (∃ w', Evaluate engine_ok None (Some (bytes "1+1")) World_live
         = (Returns None, w')
         ∧ trace w'
           = [MessageHandler_Handle 3%positive
                "V8Simple::Context::Evaluate is not defined for nullptr `fileName` argument"])
  ∧ (∃ e w', Evaluate engine_throwing (Some t) (Some (bytes "({}).x.y"))
               World_live
             = (Returns None, w')
             ∧ trace w'
               = [V8Scope_enter; Engine (call_NewFromUtf8 t);
                  Engine (call_NewFromUtf8 (bytes "({}).x.y"));
                  Engine (call_Compile t (bytes "({}).x.y"));
                  Engine (call_Run 1%positive); V8Scope_leave;
                  ScriptExceptionHandler_Handle 2%positive e]
             ∧ StackTrace e ≠ [])
  ∧ (∃ p w', Evaluate engine_ok (Some t) (Some (bytes "1+1")) World_live
             = (Returns (Some p), w')
             ∧ values w' !! p = Some (Int 2%Z)).
Proof.
  intros t.
  destruct (Evaluate_boundary engine_ok World_live World_live_is_live)
    as (Habsent & _ & Hok).
  destruct (Evaluate_boundary engine_throwing World_live World_live_is_live)
    as (_ & _ & Hthrowing).
  split_and!.
  - eexists. split; [apply Habsent|]. reflexivity.
  - destruct (Hthrowing t (bytes "({}).x.y") t (bytes "({}).x.y")
                eq_refl eq_refl) as [_ Hrun].
    destruct (Hrun 1%positive eq_refl) as [Hfault _].
    eexists _, _. split; [apply Hfault; by left|].
    split; [reflexivity|discriminate].
  - destruct (Hok t (bytes "1+1") t (bytes "1+1") eq_refl eq_refl)
      as [_ Hrun].
    destruct (Hrun 1%positive eq_refl) as [_ Hwrap].
    destruct (Hwrap (v8.Int32 2%Z 4611686018427387904%Z [x32])
                (Some 1%positive)
                (snd (Wrap (v8.Int32 2%Z 4611686018427387904%Z [x32])
                        (guarded [call_NewFromUtf8 t;
                                  call_NewFromUtf8 (bytes "1+1");
                                  call_Compile t (bytes "1+1");
                                  call_Run 1%positive] World_live)))
                eq_refl) as [E _]; [vm_compute; reflexivity|].
    eexists _, _. split; [exact E|]. vm_compute. reflexivity.
Defined.

(* ================================================================== *)
(** ** No operation reads the trace *)

Lemma set_trace_id w : set_trace (trace w) w = w.
Proof. by destruct w. Qed.

Lemma oblivious_run {A} (m : M A) w :
  oblivious m →
  m w = (fst (m (set_trace [] w)),
         set_trace (trace w ++ trace (snd (m (set_trace [] w))))
           (snd (m (set_trace [] w)))).
Proof. intros H. rewrite <- (set_trace_id w) at 1. apply H. Qed.

Lemma oblivious_ret {A} (a : A) : oblivious (ret a).
Proof. intros w t. unfold ret. cbn. by rewrite app_nil_r. Qed.

Lemma oblivious_throw {A} e : oblivious (@throw A e).
Proof. intros w t. unfold throw. cbn. by rewrite app_nil_r. Qed.

Lemma oblivious_undefined {A} : oblivious (@undefined A).
Proof. intros w t. unfold undefined. cbn. by rewrite app_nil_r. Qed.

Lemma oblivious_bind {A B} (m : M A) (k : A → M B) :
  oblivious m → (∀ a, oblivious (k a)) → oblivious (bind m k).
Proof.
  intros Hm Hk w t. unfold bind. rewrite (Hm w t).
  destruct (m (set_trace [] w)) as [[a|e|] w1]; cbn [fst snd]; try done.
  rewrite (Hk a w1 (t ++ trace w1)), (oblivious_run (k a) w1 (Hk a)).
  cbn. by rewrite app_assoc.
Qed.

Lemma oblivious_try_catch {A} (body : M A) handlers :
  oblivious body →
  (∀ e h, handlers e = Some h → oblivious h) →
  oblivious (try_catch body handlers).
Proof.
  intros Hm Hh w t. unfold try_catch. rewrite (Hm w t).
  destruct (body (set_trace [] w)) as [[a|e|] w1]; cbn [fst snd]; try done.
  destruct (handlers e) as [h|] eqn:E; [|done].
  rewrite (Hh e h E w1 (t ++ trace w1)), (oblivious_run h w1 (Hh e h E)).
  cbn. by rewrite app_assoc.
Qed.

Lemma oblivious_with_V8Scope {A} (body : M A) :
  oblivious body → oblivious (with_V8Scope body).
Proof.
  intros Hm w t. unfold with_V8Scope, globalContext. cbn.
  destruct (_globalContext w) as [c|]; [|cbn; by rewrite app_nil_r].
  destruct (contexts w !! c) as [ctx|]; [|cbn; by rewrite app_nil_r].
  change (set_region v8.TryCatch_new (emit V8Scope_enter (set_trace t w)))
    with (set_trace (t ++ [V8Scope_enter]) (set_region v8.TryCatch_new w)).
  change (set_region v8.TryCatch_new (emit V8Scope_enter (set_trace [] w)))
    with (set_trace [V8Scope_enter] (set_region v8.TryCatch_new w)).
  rewrite (Hm _ (t ++ [V8Scope_enter])), (Hm _ [V8Scope_enter]).
  destruct (body _) as [r w1]. cbn. f_equal.
  unfold set_trace, emit, set_region. cbn. f_equal.
  by rewrite <- !app_assoc.
Qed.

Lemma oblivious_for_each {A} (l : list A) body :
  (∀ a, oblivious (body a)) → oblivious (for_each l body).
Proof.
  intros H. induction l as [|a l IH]; cbn.
  - apply oblivious_ret.
  - apply oblivious_bind; [apply H|]. by intros _.
Qed.

Ltac oblivious_primitive :=
  let w := fresh "w" in
  let t := fresh "t" in
  intros w t; cbn;
  repeat match goal with
         | |- context [match ?x with _ => _ end] => destruct x; cbn
         end;
  rewrite ?app_nil_r; reflexivity.

Lemma oblivious_gets_region : oblivious (gets region).
Proof. oblivious_primitive. Qed.

Lemma oblivious_gets_globalContext : oblivious (gets _globalContext).
Proof. oblivious_primitive. Qed.

Lemma oblivious_globalContext : oblivious globalContext.
Proof. unfold globalContext. oblivious_primitive. Qed.

Lemma oblivious_emit e : oblivious (modify (emit e)).
Proof. oblivious_primitive. Qed.

Lemma oblivious_new v : oblivious (new v).
Proof. oblivious_primitive. Qed.

Lemma oblivious_call {A} c (a : v8.Maybe A) : oblivious (call c a).
Proof.
  unfold call. apply oblivious_bind; [|intros _; apply oblivious_ret].
  intros w t. unfold modify. cbn. by destruct (v8.caught a).
Qed.

Create HintDb oblivious.
#[local] Hint Resolve oblivious_ret oblivious_throw oblivious_undefined
  oblivious_gets_region oblivious_gets_globalContext oblivious_globalContext
  oblivious_emit oblivious_new oblivious_call : oblivious.

Ltac oblivious_program :=
  repeat first
    [ solve [auto with oblivious]
    | apply oblivious_bind; [|intros ?]
    | apply oblivious_with_V8Scope
    | match goal with
      | |- oblivious (if ?b then _ else _) => destruct b
      | |- oblivious (match ?x with _ => _ end) => destruct x
      end ].

Lemma oblivious_CurrentContext : oblivious CurrentContext.
Proof. unfold CurrentContext. oblivious_program. Qed.

Lemma oblivious_CurrentIsolate : oblivious CurrentIsolate.
Proof. unfold CurrentIsolate. oblivious_program. Qed.

#[local] Hint Resolve oblivious_CurrentContext oblivious_CurrentIsolate
  : oblivious.

Lemma oblivious_Throw : oblivious Throw.
Proof. unfold Throw. oblivious_program. Qed.

#[local] Hint Resolve oblivious_Throw : oblivious.

Lemma oblivious_FromJust {A} (a : option A) : oblivious (FromJust a).
Proof. unfold FromJust. oblivious_program. Qed.

#[local] Hint Resolve oblivious_FromJust : oblivious.

Lemma oblivious_Wrap v : oblivious (Wrap v).
Proof. unfold Wrap. oblivious_program. Qed.

Lemma oblivious_HandleScriptException e :
  oblivious (HandleScriptException e).
Proof. unfold HandleScriptException. oblivious_program. Qed.

Lemma oblivious_HandleRuntimeException e :
  oblivious (HandleRuntimeException e).
Proof. unfold HandleRuntimeException. oblivious_program. Qed.

#[local] Hint Resolve oblivious_Wrap oblivious_HandleScriptException
  oblivious_HandleRuntimeException : oblivious.

Lemma oblivious_Evaluate engine fileName code :
  oblivious (Evaluate engine fileName code).
Proof.
  unfold Evaluate. destruct fileName; [|oblivious_program].
  destruct code; [|oblivious_program].
  apply oblivious_try_catch.
  - unfold ToV8String, Wrap_MaybeLocal. oblivious_program.
  - intros [e| |] h; intros [= <-]; oblivious_program.
Qed.

Lemma oblivious_GlobalObject : oblivious GlobalObject.
Proof. unfold GlobalObject. oblivious_program. Qed.

(** An operation that never reads the trace cannot tell a world from the
    same world with one more event in its history. *)
Lemma oblivious_after_event {A} (m : M A) ev w :
  oblivious m →
  ∃ r out w0,
    m w = (r, set_trace (trace w ++ out) w0)
    ∧ m (emit ev w) = (r, set_trace ((trace w ++ [ev]) ++ out) w0).
Proof.
  intros H.
  exists (fst (m (set_trace [] w))), (trace (snd (m (set_trace [] w)))),
    (snd (m (set_trace [] w))).
  split; [by apply oblivious_run|].
  change (emit ev w) with (set_trace (trace w ++ [ev]) w). apply H.
Qed.

Lemma oblivious_after_report {A} (m : M A) message w :
  oblivious m →
  ∃ r out w0,
    m w = (r, set_trace (trace w ++ out) w0)
    ∧ m (reported message w)
      = (r, set_trace (trace (reported message w) ++ out) w0).
Proof.
  intros H.
  assert (Hsame : ∃ r out w0,
            m w = (r, set_trace (trace w ++ out) w0)
            ∧ m w = (r, set_trace (trace w ++ out) w0)).
  { eexists _, _, _. split; by apply oblivious_run. }
  unfold reported.
  destruct (_globalContext w) as [c|]; [|done].
  destruct (contexts w !! c) as [ctx|]; [|done].
  destruct (_runtimeExceptionHandler ctx) as [h|]; [|done].
  by apply oblivious_after_event.
Qed.

(** C6.  Constructing a [Context] while one is live returns at once
    without throwing: the runtime-fault handler of the live [Context] is
    handed the fault, and nothing else changes.  The live [Context] is
    still the singleton, its fields, the heap, the retain counts and the
    engine objects are as before, the storage of the second [Context] is
    not initialised, and [Evaluate] and [GlobalObject] return what they
    would have returned without the attempt, with the same effects. *)
Theorem Context_ctor_while_live
  (engine : v8.Engine) (w : World) (this : ptr)
  (scriptExceptionHandler runtimeExceptionHandler : option ptr) :
  Context_is_live w →
  let message := "V8Simple::Contexts are not re-entrant"%string in
  let w' := reported message w in
  Context_ctor engine this scriptExceptionHandler runtimeExceptionHandler w
  = (Returns tt, w')
  ∧ (∀ c ctx h,
       _globalContext w = Some c → contexts w !! c = Some ctx →
       _runtimeExceptionHandler ctx = Some h →
       trace w' = trace w ++ [MessageHandler_Handle h message])
  ∧ (_globalContext w' = _globalContext w ∧ contexts w' = contexts w
     ∧ values w' = values w ∧ vectors w' = vectors w
     ∧ region w' = region w ∧ externals w' = externals w
     ∧ functions w' = functions w ∧ retainCount w' = retainCount w
     ∧ _platform w' = _platform w ∧ isolates w' = isolates w)
  ∧ (∀ fileName code,
       ∃ r out w0,
         Evaluate engine fileName code w
         = (r, set_trace (trace w ++ out) w0)
         ∧ Evaluate engine fileName code w'
           = (r, set_trace (trace w' ++ out) w0))
  ∧ (∃ r out w0,
       GlobalObject w = (r, set_trace (trace w ++ out) w0)
       ∧ GlobalObject w' = (r, set_trace (trace w' ++ out) w0)).
Proof.
  intros Hlive message w'. split_and!.
  - unfold Context_ctor, bind at 1, gets.
    destruct Hlive as (c & ctx & Hg & Hc). rewrite Hg.
    apply HandleRuntimeException_eq. by exists c, ctx.
  - intros c ctx h Hg Hc Hh. unfold w', reported. by rewrite Hg, Hc, Hh.
  - by apply reported_fields.
  - by apply reported_fields.
  - by apply reported_fields.
  - by apply reported_fields.
  - by apply reported_fields.
  - by apply reported_fields.
  - by apply reported_fields.
  - by apply reported_fields.
  - by apply reported_fields.
  - by apply reported_fields.
  - intros fileName code. apply oblivious_after_report.
    apply oblivious_Evaluate.
  - apply oblivious_after_report. apply oblivious_GlobalObject.
Qed.

Lemma Context_ctor_while_live_witness :
  ∃ w', Context_ctor engine_ok 8%positive None None World_live
        = (Returns tt, w')
        ∧ trace w'
          = [MessageHandler_Handle 3%positive
               "V8Simple::Contexts are not re-entrant"]
        ∧ _globalContext w' = Some 1%positive
        ∧ contexts w' !! 1%positive = Some Context_live
        ∧ contexts w' !! 8%positive = None.
Proof.
  destruct (Context_ctor_while_live engine_ok World_live 8%positive
              None None World_live_is_live)
    as (E & Htrace & (Hg & Hc & _) & _).
  eexists. split; [exact E|].
  split; [by apply (Htrace 1%positive Context_live 3%positive)|].
  rewrite Hg, Hc. by split_and!.
Defined.

(** The storage the failed construction left uninitialised must not be
    destroyed: [~Context] would read fields that were never written. *)
Lemma Context_dtor_uninitialised this w :
  contexts w !! this = None → Context_dtor this w = (Undefined, w).
Proof. intros H. unfold Context_dtor, bind at 1. by rewrite H. Qed.

(* ================================================================== *)
(** ** The wrapped arguments are distinct live objects *)

Lemma Throw_never_returns w r w' :
  Throw w = (r, w') → w' = w ∧ r ≠ Returns tt.
Proof.
  unfold Throw, CurrentContext, CurrentIsolate, globalContext, bind, gets,
    ret, throw.
  destruct (_globalContext w) as [c|] eqn:Hg; [|cbn; by intros [= <- <-]].
  destruct (contexts w !! c) eqn:Hc; cbn; rewrite ?Hg, ?Hc; cbn;
    by intros [= <- <-].
Qed.

Lemma convert_and_new_heap {A} c (a : v8.Maybe A) mk w r w' :
  convert_and_new c a mk w = (r, w') → allocates_result w w' r.
Proof.
  unfold convert_and_new, allocates_result.
  unfold bind at 1. unfold call at 1, bind at 1, modify, ret.
  set (w1 := emit (Engine c) _).
  assert (Hsame : vectors w1 = vectors w ∧ values w1 = values w).
  { unfold w1. by destruct (v8.caught a). }
  destruct Hsame as [Hvec Hval]. rewrite <- Hvec, <- Hval. clearbody w1.
  unfold bind at 1. unfold FromJust at 1, gets.
  unfold bind at 1. unfold bind at 1.
  destruct (v8.HasCaught (region w1) || negb (bool_decide (is_Some (v8.just a)))).
  - destruct (Throw w1) as [[[]| |] w2] eqn:ET;
      apply Throw_never_returns in ET as [-> Hne]; [done| |];
      intros [= <- <-]; (split; [done|]); left; by split.
  - unfold ret at 1. destruct (v8.just a) as [x|].
    + unfold ret at 1, bind, new, ret. intros [= <- <-]. cbn.
      split; [done|]. right. eexists _, _. split; [done|].
      split; [apply is_fresh|done].
    + unfold undefined. intros [= <- <-]. split; [done|]. left. by split.
Qed.

Lemma Wrap_heap v w r w' : Wrap v w = (r, w') → allocates_result w w' r.
Proof.
  unfold Wrap. unfold bind at 1.
  destruct (CurrentContext w) as [[h| |] w1] eqn:E.
  - assert (w1 = w) as ->.
    { revert E. unfold CurrentContext, globalContext, bind, ret.
      destruct (_globalContext w) as [c|]; [|done].
      destruct (contexts w !! c); [|done]. by intros [= _ <-]. }
    destruct (v8.IsInt32 v); [apply (convert_and_new_heap _ _ Int)|].
    destruct (v8.IsNumber v || v8.IsNumberObject v);
      [apply (convert_and_new_heap _ _ Double)|].
    destruct (v8.IsBoolean v || v8.IsBooleanObject v);
      [apply (convert_and_new_heap _ _ Bool)|].
    destruct (v8.IsString v || v8.IsStringObject v).
    { apply (convert_and_new_heap _ _
               (λ str : v8.String, String (String_of_Utf8Value (Some str)))). }
    destruct (v8.IsArray v); [apply (convert_and_new_heap _ _ Array)|].
    destruct (v8.IsFunction v); [apply (convert_and_new_heap _ _ Function)|].
    destruct (v8.IsObject v); [apply (convert_and_new_heap _ _ Object)|].
    destruct (v8.IsUndefined v || v8.IsNull v);
      intros [= <- <-]; (split; [done|]); left; by split.
  - revert E. unfold CurrentContext, globalContext, bind, ret.
    destruct (_globalContext w) as [c|]; [|done].
    by destruct (contexts w !! c).
  - assert (w1 = w) as ->.
    { revert E. unfold CurrentContext, globalContext, bind, ret.
      destruct (_globalContext w) as [c|]; [|by intros [= <-]].
      destruct (contexts w !! c); [done|]. by intros [= <-]. }
    intros [= <- <-]. split; [done|]. left. by split.
Qed.

(** Whatever way the wrapping loop of the invocation ends, the vector it
    filled holds distinct live objects: what [call_and_release] asks of
    the wrapped arguments. *)
Lemma wrapped_arguments_owned a : ∀ args w r w' vs,
  vectors w !! a = Some vs →
  NoDup (owned vs) →
  (∀ p, p ∈ owned vs → is_Some (values w !! p)) →
  for_each args (λ arg, let* p := Wrap arg in push_back a p) w = (r, w') →
  ∃ vs', vectors w' !! a = Some vs'
         ∧ NoDup (owned vs')
         ∧ (∀ p, p ∈ owned vs' → is_Some (values w' !! p))
         ∧ (length vs' ≤ length vs + length args)%nat.
Proof.
  induction args as [|arg args IH]; intros w r w' vs Hv Hnd Hlive; cbn.
  - intros [= <- <-]. exists vs. split_and!; try done. lia.
  - unfold bind at 1. unfold bind at 1.
    destruct (Wrap arg w) as [rW w1] eqn:EW.
    apply Wrap_heap in EW as [Hvec Hheap].
    assert (Hkeep : ∀ p, p ∈ owned vs → is_Some (values w1 !! p)).
    { intros p Hp. destruct Hheap as [[-> _]|(q & x & _ & Hq & ->)];
        [by apply Hlive|].
      rewrite lookup_insert_ne; [by apply Hlive|].
      intros <-. apply Hq, elem_of_dom. by apply Hlive. }
    destruct rW as [p| |]; cycle 1.
    + intros [= <- <-]. exists vs. rewrite Hvec. split_and!; try done. lia.
    + intros [= <- <-]. exists vs. rewrite Hvec. split_and!; try done. lia.
    + unfold push_back at 1. rewrite Hvec, Hv. intros Hrest.
      set (w2 := set_vectors (<[a := vs ++ [p]]>) w1) in Hrest.
      assert (Hv2 : vectors w2 !! a = Some (vs ++ [p])).
      { cbn. apply lookup_insert_eq. }
      assert (Hnd2 : NoDup (owned (vs ++ [p]))).
      { unfold owned. rewrite omap_app. fold (owned vs).
        destruct p as [p|]; cbn; [|by rewrite app_nil_r].
        apply NoDup_app. split; [done|]. split; [|apply NoDup_singleton].
        intros q Hq Hq'. apply list_elem_of_In in Hq'. cbn in Hq'.
        destruct Hq' as [<-|[]].
        destruct Hheap as [[_ Hno]|(q' & x & [= <-] & Hfresh & _)];
          [by eapply Hno|].
        apply Hfresh, elem_of_dom. by apply Hlive. }
      assert (Hlive2 : ∀ q, q ∈ owned (vs ++ [p]) → is_Some (values w2 !! q)).
      { intros q. unfold owned. rewrite omap_app. fold (owned vs).
        rewrite elem_of_app. intros [Hq|Hq]; [by apply Hkeep|].
        destruct p as [p|]; cbn in Hq; [|by apply elem_of_nil in Hq].
        apply list_elem_of_In in Hq. cbn in Hq. destruct Hq as [<-|[]].
        destruct Hheap as [[_ Hno]|(q' & x & [= <-] & _ & Hins)];
          [exfalso; by eapply Hno|].
        cbn. rewrite Hins, lookup_insert_eq. by eexists. }
      destruct (IH w2 r w' (vs ++ [p]) Hv2 Hnd2 Hlive2 Hrest)
        as (vs' & ? & ? & ? & Hle).
      exists vs'. split_and!; try done.
      rewrite length_app in Hle. cbn in Hle. lia.
Qed.

(* ================================================================== *)
(** ** The invocation of a bridged callback *)

(** C5 fails on the code.  A script calls the bridged callback with a
    boxed number whose conversion throws: [FromJust] raises a
    [ScriptException], which the [catch] of the invocation, written for
    [std::runtime_error], lets through.  The exception leaves the
    function that the engine called: the guard is closed, no handler has
    been told, and the callback has not been called (its retain count,
    the vector and the heap are untouched). *)
Theorem invoke_conversion_fault_escapes (engine : v8.Engine) :
  let info := {| info_args := [boxed_number_throwing]; Data := 9%positive |} in
  ∃ w',
    invoke engine info World_callback
    = (Throws (throw_ScriptException (translate thrown_TypeError)), w')
    ∧ trace w' = [V8Scope_enter; Engine call_NumberValue; V8Scope_leave]
    ∧ values w' = values World_callback
    ∧ vectors w' = {[ 1%positive := [] ]}.
Proof.
  intros info. eexists. split; [vm_compute; reflexivity|].
  split_and!; vm_compute; reflexivity.
Qed.

(** What the [catch] was written for: an argument of no category [Wrap]
    knows (a symbol) is reported to the runtime-fault handler, and the
    callback is called with the arguments wrapped before it; the
    arguments after it are never wrapped. *)
Lemma invoke_unhandled_type_reported :
  let one := v8.Int32 1%Z 4607182418800017408%Z [x31] in
  let two := v8.Int32 2%Z 4611686018427387904%Z [x32] in
  let info := {| info_args := [one; v8.Symbol thrown_TypeError; two];
                 Data := 9%positive |} in
  ∃ w',
    invoke engine_ok info World_callback = (Returns (v8.Int32_New 1%Z), w')
    ∧ trace w'
      = [V8Scope_enter; Engine call_Int32Value;
         MessageHandler_Handle 3%positive "Unhandled type in V8Simple";
         V8Scope_leave]
    ∧ vectors w' = {[ 1%positive := [None] ]}.
Proof.
  intros one two info. eexists. split; [vm_compute; reflexivity|].
  split; vm_compute; reflexivity.
Qed.

(* ================================================================== *)
(** ** Which exceptions a program can throw *)

Lemma throws_only_weaken {A} (P Q : exception → Prop) (m : M A) :
  (∀ e, P e → Q e) → throws_only P m → throws_only Q m.
Proof. intros HPQ Hm w e E. by apply HPQ, (Hm w). Qed.

Lemma throws_only_ret {A} P (a : A) : throws_only P (ret a).
Proof. by intros w e. Qed.

Lemma throws_only_undefined {A} P : throws_only P (@undefined A).
Proof. by intros w e. Qed.

Lemma throws_only_gets {A} P (f : World → A) : throws_only P (gets f).
Proof. by intros w e. Qed.

Lemma throws_only_modify P f : throws_only P (modify f).
Proof. by intros w e. Qed.

Lemma throws_only_throw {A} (P : exception → Prop) e :
  P e → throws_only P (@throw A e).
Proof. intros He w e'. cbn. by intros [= <-]. Qed.

Lemma throws_only_bind {A B} P (m : M A) (k : A → M B) :
  throws_only P m → (∀ a, throws_only P (k a)) → throws_only P (bind m k).
Proof.
  intros Hm Hk w e. unfold bind.
  destruct (m w) as [[a|e'|] w'] eqn:E.
  - apply Hk.
  - cbn. intros [= <-]. apply (Hm w). by rewrite E.
  - done.
Qed.

Lemma throws_only_try_catch {A} P Q (body : M A) handlers :
  throws_only P body →
  (∀ e, P e → match handlers e with
              | Some h => throws_only Q h
              | None => Q e
              end) →
  throws_only Q (try_catch body handlers).
Proof.
  intros Hb Hh w e. unfold try_catch.
  destruct (body w) as [[a|e'|] w'] eqn:E; try done.
  assert (He' : P e') by (apply (Hb w); by rewrite E).
  specialize (Hh e' He').
  destruct (handlers e') as [h|].
  - apply Hh.
  - cbn. by intros [= <-].
Qed.

Lemma throws_only_with_V8Scope {A} P (body : M A) :
  throws_only P body → throws_only P (with_V8Scope body).
Proof.
  intros Hb w e. unfold with_V8Scope.
  destruct (globalContext w) as [[ctx| |] w0]; try done.
  destruct (body _) as [r w'] eqn:E. cbn. intros ->.
  eapply Hb. by rewrite E.
Qed.

Lemma throws_only_for_each {A} P (l : list A) body :
  (∀ a, throws_only P (body a)) → throws_only P (for_each l body).
Proof.
  intros Hb. induction l as [|a l IH]; cbn.
  - apply throws_only_ret.
  - apply throws_only_bind; [apply Hb|by intros _].
Qed.

Lemma throws_only_map_each {A B} P (l : list A) (f : A → M B) :
  (∀ a, throws_only P (f a)) → throws_only P (map_each l f).
Proof.
  intros Hf. induction l as [|a l IH]; cbn.
  - apply throws_only_ret.
  - apply throws_only_bind; [apply Hf|intros b].
    apply throws_only_bind; [apply IH|intros bs]. apply throws_only_ret.
Qed.

Ltac throws_nothing :=
  let w := fresh "w" in
  let e := fresh "e" in
  intros w e;
  cbv [globalContext deref delete_ new new_vector push_back
       UniqueValueVector_Length new_engine_object];
  repeat case_match; cbn; congruence.

Lemma throws_only_globalContext P : throws_only P globalContext.
Proof. throws_nothing. Qed.

Lemma throws_only_deref P p : throws_only P (deref p).
Proof. throws_nothing. Qed.

Lemma throws_only_delete P p : throws_only P (delete_ p).
Proof. destruct p; throws_nothing. Qed.

Lemma throws_only_new P v : throws_only P (new v).
Proof. throws_nothing. Qed.

Lemma throws_only_new_engine_object P : throws_only P new_engine_object.
Proof. throws_nothing. Qed.

Create HintDb throws.
#[local] Hint Resolve throws_only_ret throws_only_undefined throws_only_gets
  throws_only_modify throws_only_globalContext throws_only_deref
  throws_only_delete throws_only_new throws_only_new_engine_object : throws.

(** Takes a program apart along its binds, guards and case distinctions. *)
Ltac throws_program :=
  repeat first
    [ progress eauto with throws
    | apply throws_only_bind; [|intros ?]
    | apply throws_only_with_V8Scope
    | apply throws_only_map_each; intros ?
    | apply throws_only_for_each; intros ?
    | match goal with
      | |- throws_only _ (match ?x with _ => _ end) => destruct x
      | |- throws_only _ (if ?x then _ else _) => destruct x
      end ].

Lemma throws_only_CurrentIsolate P : throws_only P CurrentIsolate.
Proof. unfold CurrentIsolate. throws_program. Qed.

Lemma throws_only_CurrentContext P : throws_only P CurrentContext.
Proof. unfold CurrentContext. throws_program. Qed.

Lemma throws_only_Retain P p : throws_only P (Retain p).
Proof. unfold Retain. throws_program. Qed.

Lemma throws_only_Release P p : throws_only P (Release p).
Proof. unfold Release. throws_program. Qed.

Lemma throws_only_call {A} P c (a : v8.Maybe A) : throws_only P (call c a).
Proof. unfold call. throws_program. Qed.

Lemma throws_only_heap_call {A} P (a : v8.Maybe A) :
  throws_only P (heap_call a).
Proof. unfold heap_call. throws_program. Qed.

Lemma throws_only_HandleScriptException P e :
  throws_only P (HandleScriptException e).
Proof. unfold HandleScriptException. throws_program. Qed.

Lemma throws_only_HandleRuntimeException P e :
  throws_only P (HandleRuntimeException e).
Proof. unfold HandleRuntimeException. throws_program. Qed.

#[local] Hint Resolve throws_only_CurrentIsolate throws_only_CurrentContext
  throws_only_Retain throws_only_Release throws_only_call
  throws_only_heap_call throws_only_HandleScriptException
  throws_only_HandleRuntimeException : throws.

Lemma is_ScriptException_intro x : is_ScriptException (throw_ScriptException x).
Proof. by exists x. Qed.

Lemma is_caught_by_both_ScriptException x :
  is_caught_by_both (throw_ScriptException x).
Proof. done. Qed.

Lemma is_caught_by_both_runtime_error what :
  is_caught_by_both (runtime_error what).
Proof. done. Qed.

#[local] Hint Resolve is_ScriptException_intro
  is_caught_by_both_ScriptException is_caught_by_both_runtime_error : throws.

Lemma throws_only_Throw (P : exception → Prop) :
  (∀ x, P (throw_ScriptException x)) → throws_only P Throw.
Proof.
  intros HP. unfold Throw. throws_program. by apply throws_only_throw.
Qed.

#[local] Hint Resolve throws_only_Throw : throws.

Lemma throws_only_FromJust {A} (P : exception → Prop) (a : option A) :
  (∀ x, P (throw_ScriptException x)) → throws_only P (FromJust a).
Proof. intros HP. unfold FromJust. throws_program. Qed.

#[local] Hint Resolve throws_only_FromJust : throws.

Lemma throws_only_ToV8String (P : exception → Prop) engine s :
  (∀ x, P (throw_ScriptException x)) → throws_only P (ToV8String engine s).
Proof. intros HP. unfold ToV8String. throws_program. Qed.

#[local] Hint Resolve throws_only_ToV8String : throws.

Lemma throws_only_Wrap (P : exception → Prop) v :
  (∀ x, P (throw_ScriptException x)) → (∀ what, P (runtime_error what)) →
  throws_only P (Wrap v).
Proof.
  intros HS HR. unfold Wrap. throws_program. by apply throws_only_throw.
Qed.

Lemma throws_only_Unwrap (P : exception → Prop) engine value :
  (∀ x, P (throw_ScriptException x)) → throws_only P (Unwrap engine value).
Proof.
  intros HP. unfold Unwrap, Unwrap_Callback. throws_program; by intros ? ?.
Qed.

#[local] Hint Resolve throws_only_Wrap throws_only_Unwrap : throws.

Lemma throws_only_UnwrapVector (P : exception → Prop) engine values :
  (∀ x, P (throw_ScriptException x)) →
  throws_only P (UnwrapVector engine values).
Proof. intros HP. unfold UnwrapVector. throws_program. Qed.

#[local] Hint Resolve throws_only_UnwrapVector : throws.

Lemma throws_only_catch_ScriptException {A} (body after : M A) :
  throws_only is_ScriptException body →
  throws_only (λ _, False) after →
  throws_only (λ _, False) (try_catch body (catch_ScriptException after)).
Proof.
  intros Hb Ha. apply (throws_only_try_catch is_ScriptException); [done|].
  intros e [x ->]. cbn. throws_program.
Qed.

Lemma throws_only_catch_both {A} (body after : M A) :
  throws_only is_caught_by_both body →
  throws_only (λ _, False) after →
  throws_only (λ _, False) (try_catch body (catch_both after)).
Proof.
  intros Hb Ha. apply (throws_only_try_catch is_caught_by_both); [done|].
  intros [x|what|] He; cbn; [throws_program..|done].
Qed.

Ltac method_never_throws :=
  first
    [ apply throws_only_catch_both; [apply throws_only_with_V8Scope|]
    | apply throws_only_catch_ScriptException;
      [apply throws_only_with_V8Scope|] ];
  throws_program.

Section NeverThrows.

Variables (engine : v8.Engine) (heap : Heap).

Lemma Object_Get_throws_nothing this key :
  throws_only (λ _, False) (Object_Get engine heap this key).
Proof. unfold Object_Get. destruct key; [method_never_throws|throws_program]. Qed.

Lemma Object_Set_throws_nothing this key value :
  throws_only (λ _, False) (Object_Set engine heap this key value).
Proof. unfold Object_Set. destruct key; [method_never_throws|throws_program]. Qed.

Lemma Object_Keys_throws_nothing this :
  throws_only (λ _, False) (Object_Keys heap this).
Proof. unfold Object_Keys. method_never_throws. Qed.

Lemma Function_Call_throws_nothing P this args :
  throws_only P (Function_Call engine heap this args).
Proof.
  apply (throws_only_weaken (λ _, False)); [done|].
  unfold Function_Call. method_never_throws.
Qed.

#[local] Hint Resolve Function_Call_throws_nothing : throws.

Lemma Function_Construct_throws_nothing this args :
  throws_only (λ _, False) (Function_Construct engine heap this args).
Proof. unfold Function_Construct. method_never_throws. Qed.

Lemma Function_Equals_throws_nothing this function :
  throws_only (λ _, False) (Function_Equals heap this function).
Proof. unfold Function_Equals, this_Function. method_never_throws. Qed.

Lemma Object_InstanceOf_throws_nothing this type :
  throws_only (λ _, False) (Object_InstanceOf engine heap this type).
Proof.
  unfold Object_InstanceOf. apply throws_only_catch_both; [|throws_program].
  throws_program.
Qed.

Lemma Object_CallMethod_throws_nothing this name args :
  throws_only (λ _, False) (Object_CallMethod engine heap this name args).
Proof.
  unfold Object_CallMethod, this_Object.
  destruct name; [method_never_throws|throws_program].
Qed.

Lemma Object_ContainsKey_throws_nothing this key :
  throws_only (λ _, False) (Object_ContainsKey engine heap this key).
Proof.
  unfold Object_ContainsKey, this_Object.
  destruct key; [method_never_throws|throws_program].
Qed.

Lemma Object_Equals_throws_nothing this o :
  throws_only (λ _, False) (Object_Equals heap this o).
Proof. unfold Object_Equals, this_Object. method_never_throws. Qed.

Lemma Array_Get_throws_nothing this index :
  throws_only (λ _, False) (Array_Get heap this index).
Proof. unfold Array_Get, this_Array. method_never_throws. Qed.

Lemma Array_Set_throws_nothing this index value :
  throws_only (λ _, False) (Array_Set engine heap this index value).
Proof. unfold Array_Set, this_Array. method_never_throws. Qed.

Lemma Array_Length_throws_nothing this :
  throws_only (λ _, False) (Array_Length heap this).
Proof. unfold Array_Length, this_Array. throws_program. Qed.

Lemma Array_Equals_throws_nothing this array :
  throws_only (λ _, False) (Array_Equals heap this array).
Proof. unfold Array_Equals, this_Array. method_never_throws. Qed.

Lemma Evaluate_throws_nothing P fileName code :
  throws_only P (Evaluate engine fileName code).
Proof.
  apply (throws_only_weaken (λ _, False)); [done|].
  unfold Evaluate. destruct fileName; [|throws_program].
  destruct code; [|throws_program].
  apply (throws_only_try_catch is_caught_by_both).
  - unfold Wrap_MaybeLocal. throws_program.
  - intros [x|what|] He; cbn; [throws_program..|done].
Qed.

#[local] Hint Resolve Evaluate_throws_nothing : throws.

Lemma GlobalObject_throws_nothing : throws_only (λ _, False) GlobalObject.
Proof. unfold GlobalObject. throws_program. Qed.

Lemma SetDebugMessageHandler_throws_nothing handler :
  throws_only (λ _, False) (SetDebugMessageHandler handler).
Proof. unfold SetDebugMessageHandler. throws_program. Qed.

Lemma Context_ctor_throws_nothing this seh reh :
  throws_only (λ _, False) (Context_ctor engine this seh reh).
Proof.
  unfold Context_ctor. throws_program.
Qed.

Lemma Context_dtor_throws_nothing this :
  throws_only (λ _, False) (Context_dtor this).
Proof.
  unfold Context_dtor. apply throws_only_bind; [by intros w e; case_match|].
  intros fields. throws_program.
Qed.

End NeverThrows.

(* ================================================================== *)
(** ** What a program leaves as it was *)

Section Preserves.

Context {B : Type} (f : World → B).
Hypothesis f_region : ∀ tc w, f (set_region tc w) = f w.
Hypothesis f_emit : ∀ ev w, f (emit ev w) = f w.

Lemma preserves_ret {A} (a : A) : preserves f (ret a).
Proof. by intros w. Qed.

Lemma preserves_throw {A} e : preserves f (@throw A e).
Proof. by intros w. Qed.

Lemma preserves_undefined {A} : preserves f (@undefined A).
Proof. by intros w. Qed.

Lemma preserves_gets {A} (g : World → A) : preserves f (gets g).
Proof. by intros w. Qed.

Lemma preserves_modify g : (∀ w, f (g w) = f w) → preserves f (modify g).
Proof. intros Hg w. apply Hg. Qed.

Lemma preserves_bind {A C} (m : M A) (k : A → M C) :
  preserves f m → (∀ a, preserves f (k a)) → preserves f (bind m k).
Proof.
  intros Hm Hk w. unfold bind. specialize (Hm w).
  destruct (m w) as [[a|e|] w']; cbn in *; [|done..].
  by rewrite Hk.
Qed.

Lemma preserves_try_catch {A} (body : M A) handlers :
  preserves f body →
  (∀ e h, handlers e = Some h → preserves f h) →
  preserves f (try_catch body handlers).
Proof.
  intros Hb Hh w. unfold try_catch. specialize (Hb w).
  destruct (body w) as [[a|e|] w']; cbn in *; [done| |done].
  destruct (handlers e) as [h|] eqn:E; [|done].
  by rewrite (Hh e h E).
Qed.

Lemma preserves_with_V8Scope {A} (body : M A) :
  preserves f body → preserves f (with_V8Scope body).
Proof.
  intros Hb w. unfold with_V8Scope.
  destruct (globalContext w) as [[ctx| |] w0]; [|done..].
  specialize (Hb (set_region v8.TryCatch_new (emit V8Scope_enter w))).
  destruct (body _) as [r w']. cbn in *.
  by rewrite f_emit, f_region, Hb, f_region, f_emit.
Qed.

Lemma preserves_for_each {A} (l : list A) body :
  (∀ a, preserves f (body a)) → preserves f (for_each l body).
Proof.
  intros Hb. induction l as [|a l IH]; cbn.
  - apply preserves_ret.
  - apply preserves_bind; [apply Hb|by intros _].
Qed.

Lemma preserves_map_each {A C} (l : list A) (g : A → M C) :
  (∀ a, preserves f (g a)) → preserves f (map_each l g).
Proof.
  intros Hg. induction l as [|a l IH]; cbn.
  - apply preserves_ret.
  - apply preserves_bind; [apply Hg|intros b].
    apply preserves_bind; [apply IH|intros bs]. apply preserves_ret.
Qed.

Lemma preserves_globalContext : preserves f globalContext.
Proof. intros w. unfold globalContext. by repeat case_match. Qed.

Lemma preserves_deref p : preserves f (deref p).
Proof. intros w. unfold deref. by case_match. Qed.

Lemma preserves_call {A} c (a : v8.Maybe A) : preserves f (call c a).
Proof.
  intros w. unfold call, bind, modify, ret. cbn.
  rewrite f_emit. by destruct (v8.caught a).
Qed.

Lemma preserves_heap_call {A} (a : v8.Maybe A) : preserves f (heap_call a).
Proof.
  intros w. unfold heap_call, bind, modify, ret. cbn.
  by destruct (v8.caught a).
Qed.

Lemma preserves_catch_ScriptException {A} (body after : M A) :
  preserves f body → preserves f after →
  preserves f (try_catch body (catch_ScriptException after)).
Proof.
  intros Hb Ha. apply preserves_try_catch; [done|].
  intros [x|what|] h [= <-].
  apply preserves_bind; [|done]. unfold HandleScriptException.
  apply preserves_bind; [apply preserves_globalContext|intros ctx].
  destruct (_scriptExceptionHandler ctx);
    [by apply preserves_modify|apply preserves_ret].
Qed.

Lemma preserves_HandleRuntimeException what :
  preserves f (HandleRuntimeException what).
Proof.
  unfold HandleRuntimeException.
  apply preserves_bind; [apply preserves_gets|intros [c|]];
    [|apply preserves_ret].
  apply preserves_bind; [apply preserves_globalContext|intros ctx].
  destruct (_runtimeExceptionHandler ctx);
    [by apply preserves_modify|apply preserves_ret].
Qed.

Lemma preserves_catch_both {A} (body after : M A) :
  preserves f body → preserves f after →
  preserves f (try_catch body (catch_both after)).
Proof.
  intros Hb Ha. apply preserves_try_catch; [done|].
  intros [x|what|] h [= <-]; (apply preserves_bind; [|done]).
  - unfold HandleScriptException.
    apply preserves_bind; [apply preserves_globalContext|intros ctx].
    destruct (_scriptExceptionHandler ctx);
      [by apply preserves_modify|apply preserves_ret].
  - apply preserves_HandleRuntimeException.
Qed.

End Preserves.

(** Takes a program apart; what is left are the steps that write to the
    world. *)
Ltac preserves_program :=
  repeat first
    [ apply preserves_ret
    | apply preserves_throw
    | apply preserves_undefined
    | apply preserves_gets
    | apply preserves_globalContext
    | apply preserves_deref
    | apply preserves_call; done
    | apply preserves_heap_call; done
    | apply preserves_HandleRuntimeException; done
    | apply preserves_modify; done
    | apply preserves_with_V8Scope; [done|done|]
    | apply preserves_catch_both; [done| |]
    | apply preserves_catch_ScriptException; [done| |]
    | apply preserves_map_each; intros ?
    | apply preserves_for_each; intros ?
    | apply preserves_bind; [|intros ?]
    | match goal with
      | |- preserves _ (match ?x with _ => _ end) => destruct x
      | |- preserves _ (if ?x then _ else _) => destruct x
      end ].

Lemma CurrentIsolate_world w : snd (CurrentIsolate w) = w.
Proof.
  unfold CurrentIsolate, globalContext, bind, ret.
  destruct (_globalContext w) as [c|]; [|done].
  by destruct (contexts w !! c).
Qed.

Lemma CurrentContext_world w : snd (CurrentContext w) = w.
Proof.
  unfold CurrentContext, globalContext, bind, ret.
  destruct (_globalContext w) as [c|]; [|done].
  by destruct (contexts w !! c).
Qed.

Lemma Unwrap_frame engine value w :
  (∀ p prog, value = Some p → values w !! p ≠ Some (Callback prog)) →
  frame (snd (Unwrap engine value w)) = frame w.
Proof.
  intros Hno. unfold Unwrap. unfold bind at 1.
  pose proof (CurrentIsolate_world w) as Hw.
  destruct (CurrentIsolate w) as [[h| |] w0]; cbn in Hw; subst w0; [|done..].
  destruct value as [p|]; [|done].
  unfold bind at 1, deref.
  destruct (values w !! p) as [v|] eqn:Hp; [|done].
  destruct v; try done.
  - assert (H : preserves frame
                  (let* l := ToV8String engine (c_str _value) in
                   ret (v8.LocalString l))) by preserves_program.
    apply H.
  - by destruct (Hno p Call).
Qed.

Lemma Unwrap_Values_of engine value : preserves Values_of (Unwrap engine value).
Proof.
  unfold Unwrap, Unwrap_Callback, Retain. preserves_program; by intros w.
Qed.

Lemma UnwrapVector_Values_of engine values :
  preserves Values_of (UnwrapVector engine values).
Proof. apply preserves_map_each; [done..|]. apply Unwrap_Values_of. Qed.

(* ================================================================== *)
(** ** What a program allocates *)

Lemma Values_of_eq w w' :
  Values_of w' = Values_of w → values w' = values w ∧ vectors w' = vectors w.
Proof. unfold Values_of. by intros [= -> ->]. Qed.

Lemma allocates_result_from w0 w w' r :
  Values_of w = Values_of w0 → allocates_result w w' r →
  allocates_result w0 w' r.
Proof.
  intros [Hv Hvec]%Values_of_eq. unfold allocates_result.
  by rewrite Hv, Hvec.
Qed.

Lemma allocates_result_to w w' w'' r :
  Values_of w'' = Values_of w' → allocates_result w w' r →
  allocates_result w w'' r.
Proof.
  intros [Hv Hvec]%Values_of_eq. unfold allocates_result.
  by rewrite Hv, Hvec.
Qed.

Lemma allocates_result_nothing w w' (r : result (option ptr)) :
  Values_of w' = Values_of w → (∀ p, r ≠ Returns (Some p)) →
  allocates_result w w' r.
Proof.
  intros [Hv Hvec]%Values_of_eq Hr. split; [done|]. left. by split.
Qed.

Lemma allocates_result_unchanged w w' (r : result (option ptr)) :
  allocates_result w w' r → (∀ p, r ≠ Returns (Some p)) →
  Values_of w' = Values_of w.
Proof.
  intros [Hvec [[Hv _]|(p & x & -> & _)]] Hr; [|by destruct (Hr p)].
  unfold Values_of. by rewrite Hv, Hvec.
Qed.

Lemma allocating_Wrap v : allocating (Wrap v).
Proof.
  intros w. destruct (Wrap v w) as [r w'] eqn:E. by apply Wrap_heap in E.
Qed.

Lemma allocating_ret_None : allocating (ret None).
Proof. intros w. by apply allocates_result_nothing. Qed.

Lemma allocating_undefined : allocating undefined.
Proof. intros w. by apply allocates_result_nothing. Qed.

Lemma allocating_new v : allocating (let* p := new v in ret (Some p)).
Proof.
  intros w. split; [done|]. right. eexists _, _. split; [done|].
  split; [apply is_fresh|done].
Qed.

Lemma allocating_bind {A} (m : M A) k :
  preserves Values_of m → (∀ a, allocating (k a)) → allocating (bind m k).
Proof.
  intros Hm Hk w. unfold bind. specialize (Hm w).
  destruct (m w) as [[a|e|] w']; cbn in *.
  - by eapply allocates_result_from; [|apply Hk].
  - by apply allocates_result_nothing.
  - by apply allocates_result_nothing.
Qed.

Lemma allocating_with_V8Scope body :
  allocating body → allocating (with_V8Scope body).
Proof.
  intros Hb w. unfold with_V8Scope.
  destruct (globalContext w) as [[ctx| |] w0];
    [|by apply allocates_result_nothing..].
  specialize (Hb (set_region v8.TryCatch_new (emit V8Scope_enter w))).
  destruct (body _) as [r w']. cbn in *.
  eapply allocates_result_to; [|eapply allocates_result_from; [|exact Hb]];
    done.
Qed.

Lemma allocating_try_catch body handlers :
  allocating body →
  (∀ e h, handlers e = Some h →
          preserves Values_of h ∧ ∀ w p, fst (h w) ≠ Returns (Some p)) →
  allocating (try_catch body handlers).
Proof.
  intros Hb Hh w. unfold try_catch. specialize (Hb w).
  destruct (body w) as [[a|e|] w']; cbn in *; [done| |done].
  apply allocates_result_unchanged in Hb; [|done].
  destruct (handlers e) as [h|] eqn:E; [|by apply allocates_result_nothing].
  destruct (Hh e h E) as [Hp Hr].
  apply allocates_result_nothing; [by rewrite Hp|apply Hr].
Qed.

Lemma handler_returns_None {A} (m : M A) w (p : ptr) :
  fst ((m >> ret None) w) ≠ Returns (Some p).
Proof. unfold bind, ret. by destruct (m w) as [[a|e|] w']. Qed.

Lemma preserves_HandleScriptException {B} (f : World → B) e :
  (∀ ev w, f (emit ev w) = f w) → preserves f (HandleScriptException e).
Proof.
  intros Hf. unfold HandleScriptException.
  apply preserves_bind; [apply preserves_globalContext|intros ctx].
  destruct (_scriptExceptionHandler ctx);
    [by apply preserves_modify|apply preserves_ret].
Qed.

Lemma allocating_catch_both body :
  allocating body → allocating (try_catch body (catch_both (ret None))).
Proof.
  intros Hb. apply allocating_try_catch; [done|].
  intros [x|what|] h [= <-]; (split; [|apply handler_returns_None]).
  - apply preserves_bind;
      [by apply preserves_HandleScriptException|intros; apply preserves_ret].
  - apply preserves_bind;
      [by apply preserves_HandleRuntimeException|intros; apply preserves_ret].
Qed.

Lemma allocating_catch_ScriptException body :
  allocating body →
  allocating (try_catch body (catch_ScriptException (ret None))).
Proof.
  intros Hb. apply allocating_try_catch; [done|].
  intros [x|what|] h [= <-]. split; [|apply handler_returns_None].
  apply preserves_bind;
    [by apply preserves_HandleScriptException|intros; apply preserves_ret].
Qed.

Lemma preserves_Throw {B} (f : World → B) : preserves f Throw.
Proof. unfold Throw. preserves_program. Qed.

Lemma preserves_FromJust {A B} (f : World → B) (a : option A) :
  preserves f (FromJust a).
Proof. unfold FromJust, Throw. preserves_program. Qed.

Lemma preserves_ToV8String {B} (f : World → B) engine s :
  (∀ tc w, f (set_region tc w) = f w) → (∀ ev w, f (emit ev w) = f w) →
  preserves f (ToV8String engine s).
Proof. intros Hr He. unfold ToV8String, FromJust, Throw. preserves_program. Qed.

(** A method that ends in [Wrap], in [new] or without a result, after
    steps that leave the [Value]s alone. *)
Ltac allocating_program :=
  repeat first
    [ apply allocating_Wrap
    | apply allocating_ret_None
    | apply allocating_undefined
    | apply allocating_new
    | apply allocating_catch_both
    | apply allocating_catch_ScriptException
    | apply allocating_with_V8Scope
    | apply allocating_bind;
      [first [ apply Unwrap_Values_of
             | apply UnwrapVector_Values_of
             | apply preserves_FromJust
             | apply preserves_ToV8String; done
             | by (unfold this_Object, this_Function, this_Array, Throw,
                     CurrentIsolate, CurrentContext;
                   preserves_program) ]
      |intros ?]
    | match goal with
      | |- allocating (match ?x with _ => _ end) => destruct x
      end ].

Section Allocating.

Variables (engine : v8.Engine) (heap : Heap).

Lemma allocating_Object_Get this key :
  allocating (Object_Get engine heap this key).
Proof.
  unfold Object_Get. destruct key; [allocating_program|].
  apply allocating_bind;
    [by apply preserves_HandleRuntimeException|intros; allocating_program].
Qed.

Lemma allocating_Function_Call this args :
  allocating (Function_Call engine heap this args).
Proof. unfold Function_Call. allocating_program. Qed.

Lemma allocating_Function_Construct this args :
  allocating (Function_Construct engine heap this args).
Proof. unfold Function_Construct. allocating_program. Qed.

Lemma allocating_Object_CallMethod this name args :
  allocating (Object_CallMethod engine heap this name args).
Proof.
  unfold Object_CallMethod. destruct name; [allocating_program|].
  apply allocating_bind;
    [by apply preserves_HandleRuntimeException|intros; allocating_program].
Qed.

Lemma allocating_Array_Get this index :
  allocating (Array_Get heap this index).
Proof. unfold Array_Get. allocating_program. Qed.

Lemma allocating_Evaluate fileName code :
  allocating (Evaluate engine fileName code).
Proof.
  unfold Evaluate.
  destruct fileName; [destruct code|];
    [|apply allocating_bind;
       [by apply preserves_HandleRuntimeException
       |intros; allocating_program]..].
  change (λ e : exception, _) with (@catch_both (option ptr) (ret None)).
  unfold Wrap_MaybeLocal. allocating_program.
Qed.

End Allocating.

Ltac borrows_program :=
  repeat first
    [ apply Unwrap_Values_of
    | apply UnwrapVector_Values_of
    | apply preserves_ret
    | apply preserves_throw
    | apply preserves_undefined
    | apply preserves_gets
    | apply preserves_globalContext
    | apply preserves_deref
    | apply preserves_FromJust
    | apply preserves_call; done
    | apply preserves_heap_call; done
    | apply preserves_HandleRuntimeException; done
    | apply preserves_modify; done
    | apply preserves_with_V8Scope; [done|done|]
    | apply preserves_catch_both; [done| |]
    | apply preserves_catch_ScriptException; [done| |]
    | apply preserves_map_each; intros ?
    | apply preserves_bind; [|intros ?]
    | match goal with
      | |- preserves _ (match ?x with _ => _ end) => destruct x
      | |- preserves _ (if ?x then _ else _) => destruct x
      end ].

Section Borrowing.

Variables (engine : v8.Engine) (heap : Heap).

Lemma Object_Set_Values_of this key value :
  preserves Values_of (Object_Set engine heap this key value).
Proof. unfold Object_Set. borrows_program. Qed.

Lemma Object_Keys_Values_of this :
  preserves Values_of (Object_Keys heap this).
Proof. unfold Object_Keys. borrows_program. Qed.

Lemma Object_ContainsKey_Values_of this key :
  preserves Values_of (Object_ContainsKey engine heap this key).
Proof. unfold Object_ContainsKey. borrows_program. Qed.

Lemma Object_Equals_Values_of this o :
  preserves Values_of (Object_Equals heap this o).
Proof. unfold Object_Equals. borrows_program. Qed.

Lemma Function_Equals_Values_of this function :
  preserves Values_of (Function_Equals heap this function).
Proof. unfold Function_Equals. borrows_program. Qed.

Lemma Array_Set_Values_of this index value :
  preserves Values_of (Array_Set engine heap this index value).
Proof. unfold Array_Set. borrows_program. Qed.

Lemma Array_Length_Values_of this :
  preserves Values_of (Array_Length heap this).
Proof. unfold Array_Length. borrows_program. Qed.

Lemma Array_Equals_Values_of this array :
  preserves Values_of (Array_Equals heap this array).
Proof. unfold Array_Equals. borrows_program. Qed.

Lemma delete_result_restores (m : M (option ptr)) :
  allocating m →
  preserves Values_of
    (let* callResult := m in
     let* result :=
       match callResult with
       | None => ret false
       | Some p =>
           let* v := deref p in
           ret (match v with Bool b => b | _ => false end)
       end in
     delete_ callResult >> ret result).
Proof.
  intros Hm w. specialize (Hm w). unfold bind at 1.
  destruct (m w) as [[[p|]|e|] w1]; cbn [fst snd] in *.
  - destruct Hm as [Hvec [[_ Hno]|(q & x & [= <-] & Hfresh & Hv)]];
      [by destruct (Hno p)|].
    unfold bind, deref, delete_, ret. rewrite Hv, lookup_insert_eq. cbn.
    rewrite Hv, lookup_insert_eq. cbn. unfold Values_of. cbn.
    rewrite Hvec, Hv, delete_insert_eq. f_equal. apply delete_id.
    by apply not_elem_of_dom.
  - by apply (allocates_result_unchanged _ _ _ Hm).
  - by apply (allocates_result_unchanged _ _ _ Hm).
  - by apply (allocates_result_unchanged _ _ _ Hm).
Qed.

Lemma Object_InstanceOf_Values_of this type :
  preserves Values_of (Object_InstanceOf engine heap this type).
Proof.
  unfold Object_InstanceOf.
  apply preserves_catch_both; [done| |borrows_program].
  apply preserves_bind; [apply preserves_globalContext|intros ctx].
  destruct (_instanceOf ctx) as [f|]; [|apply preserves_undefined].
  apply delete_result_restores, allocating_Function_Call.
Qed.

End Borrowing.

(* ================================================================== *)
(** ** From the engine to a [Value] and back *)

Lemma convert_and_new_stores {A} c (a : v8.Maybe A) mk w r w' :
  Context_is_live w →
  convert_and_new c a mk w = (Returns r, w') →
  ∃ p x, r = Some p ∧ v8.just a = Some x ∧ values w' !! p = Some (mk x)
         ∧ Context_is_live w' ∧ v8.HasCaught (region w') = false.
Proof.
  intros Hlive.
  unfold convert_and_new, call, FromJust, Throw, bind, modify, gets, ret,
    new, throw, undefined.
  cbn.
  destruct (v8.HasCaught _ || negb (bool_decide (is_Some (v8.just a)))) eqn:E.
  - destruct (CurrentContext _) as [[?| |] ?]; try done.
    destruct (CurrentIsolate _) as [[?| |] ?]; done.
  - destruct (v8.just a) as [x|] eqn:Ea; [|done].
    intros [= <- <-]. eexists _, x. split; [done|]. split; [done|].
    cbn. split; [apply lookup_insert_eq|].
    apply orb_false_elim in E as [E _].
    split; [|by destruct (v8.caught a)].
    destruct (v8.caught a); still_live Hlive.
Qed.

Lemma Unwrap_eq engine p x w :
  Context_is_live w → values w !! p = Some x →
  Unwrap engine (Some p) w
  = match x with
    | Int z => (Returns (v8.Int32_New z), w)
    | Double d => (Returns (v8.Number_New d), w)
    | String s =>
        (let* l := ToV8String engine (c_str s) in ret (v8.LocalString l)) w
    | Bool b => (Returns (v8.Boolean_New b), w)
    | Object h | Array h | Function h => (Returns (v8.Persistent_Get h), w)
    | Callback _ => Unwrap_Callback engine p w
    end.
Proof.
  intros Hlive Hp. destruct (CurrentIsolate_live w Hlive) as [i Ei].
  unfold Unwrap. rewrite (bind_Returns _ _ _ _ _ Ei).
  unfold bind at 1, deref. rewrite Hp. by destruct x.
Qed.

Lemma c_str_prefix s : c_str s `prefix_of` s.
Proof.
  induction s as [|b s IH]; cbn; [done|].
  destruct (Byte.eqb b x00); [apply prefix_nil|by apply prefix_cons].
Qed.

Lemma c_str_no_nul s : x00 ∉ c_str s.
Proof.
  induction s as [|b s IH]; cbn; [apply not_elem_of_nil|].
  destruct (Byte.eqb b x00) eqn:E; [apply not_elem_of_nil|].
  apply not_elem_of_cons. split; [|done].
  intros <-. done.
Qed.

Lemma c_str_stops a b : x00 ∉ a → c_str (a ++ x00 :: b) = a.
Proof.
  induction a as [|c a IH]; cbn; [done|].
  intros [Hc Ha]%not_elem_of_cons.
  destruct (Byte.eqb c x00) eqn:E.
  - apply Byte.byte_dec_bl in E. congruence.
  - by rewrite IH.
Qed.

Lemma c_str_id s : x00 ∉ s → c_str s = s.
Proof.
  induction s as [|c s IH]; cbn; [done|].
  intros [Hc Hs]%not_elem_of_cons.
  destruct (Byte.eqb c x00) eqn:E.
  - apply Byte.byte_dec_bl in E. congruence.
  - by rewrite IH.
Qed.

Ltac round_trip_branch engine mk :=
  let H := fresh "H" in
  let Hj := fresh "Hj" in
  let Hp := fresh "Hp" in
  let Hl := fresh "Hl" in
  let Hr := fresh "Hr" in
  intros H; apply (convert_and_new_stores _ _ mk) in H; [|assumption];
  destruct H as (? & x & [= <-] & Hj & Hp & Hl & Hr);
  exists x; split; [exact Hj|];
  rewrite (Unwrap_eq engine _ _ _ Hl Hp).

(** X2.  What [Wrap] made of a native value, [Unwrap] gives back to the
    engine with the same payload and without touching the world: the
    integer, the number, the boolean that the conversion produced, or the
    very heap object.  For a string the engine is asked for a new string
    of the stored characters read as a C string. *)
Theorem Wrap_Unwrap_round_trip (engine : v8.Engine) (v : v8.Value)
  (w w1 : World) (p : ptr) :
  Wrap v w = (Returns (Some p), w1) →
  match category v with
  | Some (Some Type_Int) =>
      ∃ z, v8.just (v8.Int32Value v) = Some z
           ∧ Unwrap engine (Some p) w1 = (Returns (v8.Int32_New z), w1)
  | Some (Some Type_Double) =>
      ∃ d, v8.just (v8.NumberValue v) = Some d
           ∧ Unwrap engine (Some p) w1 = (Returns (v8.Number_New d), w1)
  | Some (Some Type_Bool) =>
      ∃ b, v8.just (v8.BooleanValue v) = Some b
           ∧ Unwrap engine (Some p) w1 = (Returns (v8.Boolean_New b), w1)
  | Some (Some Type_String) =>
      ∃ s, v8.just (v8.ToString v) = Some s
           ∧ ∀ l, v8.String_NewFromUtf8 engine (c_str s) = v8.Just l →
                  Unwrap engine (Some p) w1
                  = (Returns (v8.LocalString l),
                     emit (Engine (call_NewFromUtf8 (c_str s))) w1)
  | Some (Some (Type_Array | Type_Function | Type_Object)) =>
      ∃ h, v8.just (v8.ToObject v) = Some h
           ∧ Unwrap engine (Some p) w1 = (Returns (v8.Persistent_Get h), w1)
  | _ => False
  end.
Proof.
  unfold Wrap, category, precedence. cbn [List.find fst snd].
  unfold bind at 1.
  destruct (CurrentContext w) as [[h| |] w0] eqn:E; try done.
  apply CurrentContext_Returns in E as [Hlive ->].
  destruct (v8.IsInt32 v); [by round_trip_branch engine Int|].
  destruct (v8.IsNumber v || v8.IsNumberObject v);
    [by round_trip_branch engine Double|].
  destruct (v8.IsBoolean v || v8.IsBooleanObject v);
    [by round_trip_branch engine Bool|].
  destruct (v8.IsString v || v8.IsStringObject v).
  { round_trip_branch engine
      (λ str : v8.String, String (String_of_Utf8Value (Some str))).
    intros l El. rewrite String_of_Utf8Value_Some.
    by erewrite bind_Returns by (by apply ToV8String_Just). }
  destruct (v8.IsArray v); [by round_trip_branch engine Array|].
  destruct (v8.IsFunction v); [by round_trip_branch engine Function|].
  destruct (v8.IsObject v); [by round_trip_branch engine Object|].
  by destruct (v8.IsUndefined v || v8.IsNull v).
Qed.

Lemma Wrap_Unwrap_round_trip_witness :
  ∃ w1,
    Wrap (v8.Int32 2%Z 4611686018427387904%Z [x32]) World_live
    = (Returns (Some 1%positive), w1)
    ∧ Unwrap engine_ok (Some 1%positive) w1 = (Returns (v8.Int32_New 2%Z), w1).
Proof.
  eexists. split; [vm_compute; reflexivity|].
  destruct (Wrap_Unwrap_round_trip engine_ok
              (v8.Int32 2%Z 4611686018427387904%Z [x32]) World_live _
              1%positive eq_refl) as (z & [= <-] & E).
  exact E.
Defined.

(** X3.  A [String] goes back to the engine as a C string: [Unwrap] asks
    the engine for a string of the characters before the first nul, so
    the characters [Wrap] stored after an embedded nul do not make the
    round trip. *)
Theorem Unwrap_String_stops_at_nul (engine : v8.Engine) (w : World)
  (p : ptr) (s : list byte) (l : v8.String) :
  Context_is_live w →
  values w !! p = Some (String s) →
  v8.HasCaught (region w) = false →
  v8.String_NewFromUtf8 engine (c_str s) = v8.Just l →
  Unwrap engine (Some p) w
  = (Returns (v8.LocalString l), emit (Engine (call_NewFromUtf8 (c_str s))) w)
  ∧ (x00 ∉ c_str s)
  ∧ (x00 ∉ s → c_str s = s)
  ∧ (∀ a b, s = a ++ x00 :: b → x00 ∉ a → c_str s = a).
Proof.
  intros Hlive Hp Hr El. split_and!.
  - rewrite (Unwrap_eq engine _ _ _ Hlive Hp).
    by erewrite bind_Returns by (by apply ToV8String_Just).
  - apply c_str_no_nul.
  - apply c_str_id.
  - intros a b ->. apply c_str_stops.
Qed.

Lemma Unwrap_String_stops_at_nul_witness :
  ∃ w',
    Unwrap engine_ok (Some 5%positive) World_string
    = (Returns (v8.LocalString [x61]), w')
    ∧ c_str [x61; x00; x62] = [x61].
Proof.
  destruct (Unwrap_String_stops_at_nul engine_ok World_string 5%positive
              [x61; x00; x62] [x61]) as (E & _ & _ & Hcut).
  - exists 1%positive, Context_live. split; reflexivity.
  - reflexivity.
  - reflexivity.
  - reflexivity.
  - eexists. split; [exact E|].
    apply (Hcut [x61] [x62]); [reflexivity|].
    intros H. apply list_elem_of_In in H. cbn in H.
    destruct H as [H|[]]. discriminate H.
Defined.

(* ================================================================== *)
(** ** The methods of [Object] and [Function] *)

Lemma heap_call_FromJust_Just {A} (x : A) w :
  v8.HasCaught (region w) = false →
  (let* a := heap_call (v8.Just x) in FromJust a) w = (Returns x, w).
Proof.
  intros Hr. unfold heap_call, FromJust, bind, modify, gets, ret. cbn.
  by rewrite Hr.
Qed.

Lemma heap_call_FromJust_faults {A} (a : v8.Maybe A) w :
  Context_is_live w → region w = v8.TryCatch_new → faults a →
  (let* r := heap_call a in FromJust r) w
  = (Throws (throw_ScriptException (translate (fault_region a))),
     set_region (fault_region a) w).
Proof.
  intros Hlive Hr Hf.
  set (w' := match v8.caught a with
             | Some tc => set_region tc w
             | None => w
             end).
  assert (Hlive' : Context_is_live w').
  { unfold w'. destruct (v8.caught a); still_live Hlive. }
  assert (Hregion : region w' = fault_region a).
  { unfold w', fault_region. destruct (v8.caught a); cbn; done. }
  assert (Hw' : w' = set_region (fault_region a) w).
  { unfold w', fault_region. destruct (v8.caught a); cbn; [done|].
    destruct w. cbn in *. by subst. }
  assert (Hcheck : v8.HasCaught (region w')
                   || negb (bool_decide (is_Some (v8.just a))) = true).
  { rewrite Hregion. destruct Hf as [Hn|(tc & Hc & Ht)].
    - rewrite Hn. rewrite bool_decide_eq_false_2 by (by intros [? ?]).
      apply orb_true_r.
    - unfold fault_region. rewrite Hc. cbn. by rewrite Ht. }
  unfold bind at 1. unfold heap_call at 1, bind at 1, modify, ret. fold w'.
  unfold FromJust, bind, gets. rewrite Hcheck.
  rewrite (Throw_eq w' Hlive'). by rewrite Hregion, Hw'.
Qed.

Lemma HandleRuntimeException_no_Context message w :
  _globalContext w = None →
  HandleRuntimeException message w = (Returns tt, reported message w).
Proof.
  intros Hg. unfold HandleRuntimeException, reported, bind, gets, ret.
  by rewrite Hg.
Qed.

Lemma this_Object_eq this o w :
  values w !! this = Some (Object o) → this_Object this w = (Returns o, w).
Proof. intros H. unfold this_Object, bind, deref. by rewrite H. Qed.

Lemma this_Function_eq this f w :
  values w !! this = Some (Function f) → this_Function this w = (Returns f, w).
Proof. intros H. unfold this_Function, bind, deref. by rewrite H. Qed.

(** X4.  With a null name or key, [Object::Get], [Object::Set],
    [Object::CallMethod] and [Object::ContainsKey] tell the runtime-fault
    handler (when a [Context] is live) and return null, nothing or
    [false]: no guard is opened, no engine call is made, the object the
    method was called on is not looked at and the world is otherwise as it
    was. *)
Theorem Object_methods_null_name (engine : v8.Engine) (heap : Heap)
  (this : ptr) (w : World) :
  Context_is_live w ∨ _globalContext w = None →
  Object_Get engine heap this None w
  = (Returns None,
     reported "V8Simple::Object::Get is not defined for nullptr argument" w)
  ∧ (∀ value,
       Object_Set engine heap this None value w
       = (Returns tt,
          reported
            "V8Simple::Object::Set is not defined for nullptr `key` argument"
            w))
  ∧ (∀ args,
       Object_CallMethod engine heap this None args w
       = (Returns None,
          reported
            "V8Simple::Object::CallMethod is not defined for nullptr `name` argument"
            w))
  ∧ Object_ContainsKey engine heap this None w
    = (Returns false,
       reported "V8Simple::Object::ContainsKey is not defined for nullptr" w).
Proof.
  intros Hw.
  assert (H : ∀ message,
            HandleRuntimeException message w = (Returns tt, reported message w)).
  { intros message. destruct Hw as [Hlive|Hnone].
    - by apply HandleRuntimeException_eq.
    - by apply HandleRuntimeException_no_Context. }
  unfold Object_Get, Object_Set, Object_CallMethod, Object_ContainsKey.
  split_and!; intros; try apply H; by erewrite bind_Returns by apply H.
Qed.

Lemma Object_methods_null_name_witness :
  Object_Get engine_ok
    {| heap_Get := λ _ _, v8.Nothing; heap_Set := λ _ _ _, v8.Nothing;
       heap_Has := λ _ _, v8.Nothing;
       heap_GetPropertyNames := λ _, v8.Nothing;
       heap_Equals := λ _ _, v8.Nothing; heap_Call := λ _ _ _, v8.Nothing;
       heap_CallProperty := λ _ _ _, v8.Nothing;
       heap_NewInstance := λ _ _, v8.Nothing;
       heap_GetIndex := λ _ _, v8.Nothing;
       heap_SetIndex := λ _ _ _, v8.Nothing; heap_Length := λ _, 0%Z |}
    7%positive None World_live
  = (Returns None,
     emit (MessageHandler_Handle 3%positive
             "V8Simple::Object::Get is not defined for nullptr argument")
       World_live).
Proof.
  refine (proj1 (Object_methods_null_name engine_ok _ 7%positive World_live _)).
  left. exists 1%positive, Context_live. split; reflexivity.
Defined.

(** X5.  [Object::CallMethod] on a property that is not a function: the
    property is read, nothing is in the capture region, and [Throw] makes
    a [ScriptException] of that: one with every string empty and line
    number -1 goes to the script-exception handler, the caller gets a
    null pointer; the arguments are not unwrapped (no [Callback] among
    them is retained) and nothing is called. *)
Theorem Object_CallMethod_not_a_function (engine : v8.Engine) (heap : Heap)
  (this : ptr) (o : handle) (name : list byte) (k : v8.String)
  (prop : v8.Value) (args : list (option ptr)) (w : World) :
  Context_is_live w →
  values w !! this = Some (Object o) →
  v8.String_NewFromUtf8 engine name = v8.Just k →
  heap_Get heap o k = v8.Just prop →
  v8.IsFunction prop = false →
  Object_CallMethod engine heap this (Some name) args w
  = (Returns None,
     delivered ScriptException_empty
       (unguarded w (guarded [call_NewFromUtf8 name] w))).
Proof.
  intros Hlive Hthis Hk Hprop Hnf.
  unfold Object_CallMethod, try_catch.
  rewrite with_V8Scope_eq by done.
  assert (Hlive0 : Context_is_live (guarded [] w)) by still_live Hlive.
  destruct (CurrentIsolate_live _ Hlive0) as [i Ei].
  destruct (CurrentContext_live _ Hlive0) as [h Eh].
  erewrite bind_Returns by exact Ei.
  erewrite bind_Returns by exact Eh.
  erewrite bind_Returns by (by apply this_Object_eq).
  erewrite bind_Returns by (by apply ToV8String_Just).
  rewrite <- bind_assoc. rewrite Hprop.
  erewrite bind_Returns by (by apply heap_call_FromJust_Just).
  rewrite Hnf.
  erewrite bind_Throws; last first.
  { apply Throw_eq. still_live Hlive. }
  cbn [fst snd catch_both].
  erewrite bind_Returns; [reflexivity|].
  apply HandleScriptException_eq. still_live Hlive.
Qed.

Lemma World_objects_is_live : Context_is_live World_objects.
Proof. exists 1%positive, Context_live. split; reflexivity. Qed.

Lemma Object_CallMethod_not_a_function_witness :
  ∃ w',
    Object_CallMethod engine_ok heap_two 5%positive (Some [x66])
      [Some 8%positive] World_objects
    = (Returns None, w')
    ∧ trace w'
      = [V8Scope_enter; Engine (call_NewFromUtf8 [x66]); V8Scope_leave;
         ScriptExceptionHandler_Handle 2%positive ScriptException_empty].
Proof.
  eexists. split.
  - apply (Object_CallMethod_not_a_function engine_ok heap_two 5%positive
             10%positive [x66] [x66]
             (v8.Int32 2%Z 4611686018427387904%Z [x32]));
      [exact World_objects_is_live|reflexivity..].
  - reflexivity.
Defined.

Lemma UnwrapVector_natives engine args : ∀ w ls,
  Context_is_live w → natives w args = Some ls →
  UnwrapVector engine args w = (Returns ls, w).
Proof.
  unfold UnwrapVector, natives.
  induction args as [|a args IH]; intros w ls Hlive; cbn.
  - by intros [= <-].
  - destruct a as [p|].
    + destruct (values w !! p) as [x|] eqn:Hp; [|done]. cbn.
      destruct (native_of x) as [l|] eqn:Hx; [|done]. cbn.
      destruct (mapM _ args) as [ls'|] eqn:Hrest; [|done].
      cbn. intros [= <-].
      erewrite bind_Returns; last first.
      { rewrite (Unwrap_eq engine _ _ _ Hlive Hp).
        destruct x; cbn in Hx; by try injection Hx as <-. }
      by erewrite bind_Returns by (by apply IH).
    + destruct (mapM _ args) as [ls'|] eqn:Hrest; [|done].
      cbn. intros [= <-].
      destruct (CurrentIsolate_live w Hlive) as [i Ei].
      erewrite bind_Returns; last first.
      { unfold Unwrap. by erewrite bind_Returns by exact Ei. }
      by erewrite bind_Returns by (by apply IH).
Qed.

(** X6.  [Function::Call] on arguments that are absent values, numbers,
    booleans and heap objects: under one guard the engine function is
    called with the global object of the context as receiver and the
    natives of the arguments, in their order.  When the call faults, the
    [ScriptException] read off the capture region goes to the
    script-exception handler and the caller gets a null pointer; when it
    yields a value, the caller gets what [Wrap] makes of it. *)
Theorem Function_Call_boundary (engine : v8.Engine) (heap : Heap)
  (this c : ptr) (ctx : Context) (f : handle) (args : list (option ptr))
  (ls : list v8.Local) (w : World) :
  _globalContext w = Some c →
  contexts w !! c = Some ctx →
  values w !! this = Some (Function f) →
  natives w args = Some ls →
  let called := heap_Call heap f (_context ctx) ls in
  (faults called →
   Function_Call engine heap this args w
   = (Returns None,
      delivered (translate (fault_region called))
        (unguarded w (set_region (fault_region called) (guarded [] w)))))
  ∧ (∀ v r w1,
       called = v8.Just v →
       Wrap v (guarded [] w) = (Returns r, w1) →
       Function_Call engine heap this args w = (Returns r, unguarded w w1)).
Proof.
  intros Hg Hc Hthis Hargs called.
  assert (Hlive : Context_is_live w) by (by exists c, ctx).
  assert (Hlive0 : Context_is_live (guarded [] w)) by still_live Hlive.
  assert (Eh : CurrentContext (guarded [] w)
               = (Returns (_context ctx), guarded [] w)).
  { unfold CurrentContext, globalContext, bind. cbn. by rewrite Hg, Hc. }
  destruct (CurrentIsolate_live _ Hlive0) as [i Ei].
  assert (Hstart : ∀ k : option v8.Value → M (option ptr),
            with_V8Scope
              (let* context := CurrentContext in
               let* unwrappedArgs := UnwrapVector engine args in
               CurrentIsolate >>
               let* f := this_Function this in
               let* r := heap_call (heap_Call heap f context unwrappedArgs) in
               k r) w
            = (fst ((let* r := heap_call called in k r) (guarded [] w)),
               unguarded w
                 (snd ((let* r := heap_call called in k r) (guarded [] w))))).
  { intros k. rewrite with_V8Scope_eq by done.
    erewrite bind_Returns by exact Eh.
    erewrite bind_Returns by (by apply UnwrapVector_natives).
    erewrite bind_Returns by exact Ei.
    by erewrite bind_Returns by (by apply this_Function_eq). }
  unfold Function_Call, try_catch. rewrite Hstart. split.
  - intros Hf. rewrite <- bind_assoc.
    erewrite bind_Throws; last first.
    { by apply heap_call_FromJust_faults. }
    cbn [fst snd catch_both].
    erewrite bind_Returns; [reflexivity|].
    apply HandleScriptException_eq. still_live Hlive.
  - intros v r w1 Ev HW. rewrite <- bind_assoc. rewrite Ev.
    erewrite bind_Returns by (by apply heap_call_FromJust_Just).
    by rewrite HW.
Qed.

Lemma Function_Call_boundary_witness :
  ∃ w',
    Function_Call engine_ok heap_two 6%positive [Some 8%positive; None]
      World_objects
    = (Returns (Some 9%positive), w')
    ∧ values w' !! 9%positive = Some (Int 2%Z)
    ∧ values w' !! 8%positive = Some (Int 7%Z).
Proof.
  destruct (Function_Call_boundary engine_ok heap_two 6%positive 1%positive
              Context_live 11%positive [Some 8%positive; None]
              [v8.Int32_New 7%Z; v8.Null] World_objects
              eq_refl eq_refl eq_refl eq_refl) as [_ H].
  eexists. split.
  - apply (H (v8.Int32 2%Z 4611686018427387904%Z [x32])); [reflexivity|].
    vm_compute. reflexivity.
  - split; vm_compute; reflexivity.
Defined.

